(** * DSLP: non-autoregressive translation models with layer-wise
      self-conditioning

    A shallow embedding of the two model files

      - [fairseq/models/nat/nat_ctc_sd.py]        (module [CtcSd])
      - [fairseq/models/nat/nat_sd_glat_anneal.py] (module [GlatAnneal])

    Token tensors are [int64] tensors and are modelled as lists of rows of
    [Z]; a tensor is a list of rows of one length.  Arithmetic on lengths
    that involves a number given by the caller (the upsample scale, the
    beam size) wraps at 64 bits ([wrap64]); counts of positions of a tensor
    cannot leave 64 bits.

    The floating-point numbers the two files compute themselves, the keep
    probability and the statistics of the glancing block and the positions
    of [_uniform_assignment], are [float32] numbers ([Float32]): every
    operation gives the exact result rounded to the nearest [float32]
    value, a tie going to the even significand.  The numbers that come out
    of the network (scores, the losses of the CTC kernel) are values the
    network gives; a loss is a rational, and a loss that is not a finite
    number ([nan], an infinity) is [None].

    The neural network itself (embeddings, attention layers, output head,
    the CTC kernel and the beam search of the libraries) is a parameter,
    the records [GlatAnneal.Network] and [CtcSd.Network]: what is modelled
    is the control flow and the token/length bookkeeping written in the two
    files. *)

From Stdlib Require Import ZArith QArith Qround Qreals Qpower Lia Reals Psatz.
From Stdlib Require Floats.SpecFloat.
From stdpp Require Import list gmap strings.

Local Open Scope Z_scope.

(** ** Tensor operations used by both files *)

Module Torch.

Definition wrap64 (z : Z) : Z := (z + 2 ^ 63) mod 2 ^ 64 - 2 ^ 63.

Definition in_int64 (z : Z) : Prop := - 2 ^ 63 <= z < 2 ^ 63.

(** [t.ne(v)] and [t.eq(v)] on a [B x T] tensor of token ids. *)
Definition ne (t : list (list Z)) (v : Z) : list (list bool) :=
  (fun r : list Z => (fun x => negb (x =? v)) <$> r) <$> t.

Definition eq (t : list (list Z)) (v : Z) : list (list bool) :=
  (fun r : list Z => (fun x => x =? v) <$> r) <$> t.

(** [mask.sum(1)]: the number of [True] entries of each row. *)
Definition sum_row (r : list bool) : Z :=
  foldr (fun b acc => Z.b2z b + acc) 0 r.

Definition sum1 (m : list (list bool)) : list Z := sum_row <$> m.

(** [x.clamp_(min=m)] on one entry. *)
Definition clamp_min (m x : Z) : Z := Z.max x m.

(** [x.max()] over all entries; the library raises on an empty tensor. *)
Definition tensor_max (l : list Z) : option Z :=
  match l with
  | [] => None
  | x :: l' => Some (foldl Z.max x l')
  end.

(** [row.masked_fill(mask, v)]. *)
Definition masked_fill {A} (row : list A) (mask : list bool) (v : A) : list A :=
  zip_with (fun x (m : bool) => if m then v else x) row mask.

(** [t[:, 0] = v] on one row: there is no column 0 in an empty row. *)
Definition setitem_col0 (row : list Z) (v : Z) : option (list Z) :=
  match row with
  | [] => None
  | _ :: _ => Some (<[0%nat := v]> row)
  end.

(** [t.scatter_(1, index, v)] on one row with a single index: the index
    has to be a column of the row. *)
Definition scatter1 (row : list Z) (index : Z) (v : Z) : option (list Z) :=
  if bool_decide (0 <= index < Z.of_nat (length row))
  then Some (<[Z.to_nat index := v]> row)
  else None.

(** [t[b, c]] *)
Definition at2 {A} (t : list (list A)) (b c : nat) : option A :=
  t !! b ≫= (fun r : list A => r !! c).

(** Two tensors of the same shape. *)
Definition same_shape {A B} (x : list (list A)) (y : list (list B)) : Prop :=
  Forall2 (fun (r : list A) (r' : list B) => length r = length r') x y.

(** A [B x T] tensor. *)
Definition has_shape {A} (B T : nat) (t : list (list A)) : Prop :=
  length t = B /\ Forall (fun r : list A => length r = T) t.

(** [t.masked_fill(mask, v)] and [a + b] on [B x T] tensors.  In the one
    sum of the program a summand is 0 at every position, so it stays in
    64 bits. *)
Definition masked_fill2 {A} (t : list (list A)) (mask : list (list bool)) (v : A)
    : list (list A) :=
  zip_with (fun row mrow => masked_fill row mrow v) t mask.

Definition add2 (a b : list (list Z)) : list (list Z) :=
  zip_with (zip_with Z.add) a b.

(** [~mask]. *)
Definition invert (mask : list (list bool)) : list (list bool) :=
  (fun r : list bool => negb <$> r) <$> mask.

(** [t[mask]]: the selected entries, row after row. *)
Definition select_row {A} (row : list A) (mask : list bool) : list A :=
  (zip row mask) ≫= (fun xm : A * bool => if xm.2 then [xm.1] else []).

Definition masked_select {A} (t : list (list A)) (mask : list (list bool)) : list A :=
  concat (zip_with select_row t mask).

(** [t.masked_scatter_(mask, source)]: the entries of [source] are
    copied, in order, into the positions of [t] where [mask] holds.  The
    second component is the part of [source] not used yet.  The program
    passes a source with one entry per selected position, so the source
    does not run out. *)
Fixpoint scatter_row {A} (self : list A) (mask : list bool) (source : list A)
    : list A * list A :=
  match self, mask with
  | x :: self', m :: mask' =>
      if m then
        match source with
        | s :: source' =>
            let r := scatter_row self' mask' source' in (s :: r.1, r.2)
        | [] => (x :: self', [])
        end
      else
        let r := scatter_row self' mask' source in (x :: r.1, r.2)
  | _, _ => (self, source)
  end.

Fixpoint masked_scatter {A} (t : list (list A)) (mask : list (list bool))
    (source : list A) : list (list A) :=
  match t, mask with
  | row :: t', mrow :: mask' =>
      let r := scatter_row row mrow source in
      r.1 :: masked_scatter t' mask' r.2
  | _, _ => t
  end.

(** [u < k] on two finite numbers. *)
Definition Qlt_bool (u k : Q) : bool := negb (Qle_bool k u).

(** Broadcasting.  Two sizes go together when they are equal or one of
    them is 1; the size of the result is the other one. *)
Definition bdim (n m : nat) : option nat :=
  if decide (n = m) then Some n
  else if decide (n = 1%nat) then Some m
  else if decide (m = 1%nat) then Some n
  else None.

(** [l.expand(n)] along one dimension: a single entry is repeated, a
    list of [n] entries stays. *)
Definition expand {A} (l : list A) (n : nat) : list A :=
  match l with
  | [a] => replicate n a
  | _ => l
  end.

(** Two one-dimensional tensors brought to one size, as an operation on
    both does; [None] is the [RuntimeError] of sizes that do not go
    together. *)
Definition broadcast1 {A B} (x : list A) (y : list B) : option (list A * list B) :=
  n ← bdim (length x) (length y);
  Some (expand x n, expand y n).

Definition num_cols {A} (t : list (list A)) : nat :=
  match t with
  | r :: _ => length r
  | [] => 0%nat
  end.

(** Two [B x T] tensors brought to one shape.  A tensor without rows
    does not show how many columns it has; its columns are taken to go
    with those of the other tensor. *)
Definition broadcast2 {A B} (x : list (list A)) (y : list (list B))
    : option (list (list A) * list (list B)) :=
  b ← bdim (length x) (length y);
  c ← match x, y with
      | _ :: _, _ :: _ => bdim (num_cols x) (num_cols y)
      | _, _ => Some 0%nat
      end;
  Some (expand ((fun r : list A => expand r c) <$> x) b,
        expand ((fun r : list B => expand r c) <$> y) b).

(** [t.new_zeros] of the size of [t], converted with [type_as] to the
    type of the scores: a score tensor of zeros of the shape of [t]. *)
Definition new_zeros (t : list (list Z)) : list (list Q) :=
  (fun r : list Z => (fun _ : Z => 0%Q) <$> r) <$> t.

(** [x.clamp(min=lo, max=hi)] on one entry. *)
Definition clamp (lo hi x : Z) : Z := Z.min (Z.max x lo) hi.

End Torch.

(** ** [float32] numbers

    A [float32] value is a finite number, an infinity or [nan].  A finite
    value is given by the rational it stands for, as a reduced fraction;
    the sign of a zero is not kept (no zero of the program that could be
    negative is a divisor).
    [round] is the rounding of IEEE 754 for the format with 24 bits of
    significand and exponents from -149 (the subnormal numbers) to 104:
    to the nearest value, a tie to the even significand, and to an
    infinity from [2^128] on. *)

Module Float32.

Inductive t : Type :=
  | Fin (q : Q)
  | Inf (negative : bool)
  | NaN.

Definition pow2 (e : Z) : Q := (2 ^ e)%Q.

(** The exponent [e] with [2^e <= q < 2^(e+1)], for [0 < q]. *)
Definition ilog2 (q : Q) : Z :=
  let e := Z.log2 (Qnum q) - Z.log2 (Z.pos (Qden q)) in
  if Qle_bool (pow2 e) q then e else e - 1.

(** The nearest integer, a tie going to the even one: the rounding of
    the format, and [torch.round]. *)
Definition round_half_even (q : Q) : Z :=
  let f := Qfloor q in
  let r := (q - inject_Z f)%Q in
  if Torch.Qlt_bool r (1 # 2) then f
  else if Torch.Qlt_bool (1 # 2) r then f + 1
  else if Z.even f then f else f + 1.

(** What [round] computes for [0 < q]: the exponent of the last bit, the
    integer significand and the value. *)
Definition expo (q : Q) : Z := Z.max (ilog2 q) (-126) - 23.
Definition signif (q : Q) : Z := round_half_even (q / pow2 (expo q)).
Definition value (q : Q) : Q := (inject_Z (signif q) * pow2 (expo q))%Q.

Definition round_pos (q : Q) : t :=
  if Qle_bool (pow2 128) (value q) then Inf false else Fin (Qred (value q)).

Definition opp (x : t) : t :=
  match x with
  | Fin q => Fin (- q)
  | Inf s => Inf (negb s)
  | NaN => NaN
  end.

Definition round (q : Q) : t :=
  match (q ?= 0)%Q with
  | Eq => Fin 0
  | Gt => round_pos q
  | Lt => opp (round_pos (- q))
  end.

(** [t.float()] on an integer, and a Python number next to a [float32]
    tensor. *)
Definition of_Z (n : Z) : t := round (inject_Z n).

(** [x * y] *)
Definition mul (x y : t) : t :=
  match x, y with
  | NaN, _ | _, NaN => NaN
  | Fin a, Fin b => round (a * b)
  | Fin a, Inf s | Inf s, Fin a =>
      match (a ?= 0)%Q with
      | Eq => NaN
      | Gt => Inf s
      | Lt => Inf (negb s)
      end
  | Inf s, Inf s' => Inf (xorb s s')
  end.

(** [x / y] *)
Definition div (x y : t) : t :=
  match x, y with
  | NaN, _ | _, NaN => NaN
  | Fin a, Fin b =>
      match (b ?= 0)%Q with
      | Eq =>
          match (a ?= 0)%Q with
          | Eq => NaN
          | Gt => Inf false
          | Lt => Inf true
          end
      | _ => round (a / b)
      end
  | Fin _, Inf _ => Fin 0
  | Inf s, Fin b =>
      match (b ?= 0)%Q with
      | Lt => Inf (negb s)
      | _ => Inf s
      end
  | Inf _, Inf _ => NaN
  end.

(** [x - y] *)
Definition sub (x y : t) : t :=
  match x, y with
  | NaN, _ | _, NaN => NaN
  | Fin a, Fin b => round (a - b)
  | Inf s, Fin _ => Inf s
  | Fin _, Inf s => Inf (negb s)
  | Inf s, Inf s' => if Bool.eqb s s' then NaN else Inf s
  end.

(** [x < y]: a comparison with [nan] is false. *)
Definition ltb (x y : t) : bool :=
  match x, y with
  | Fin a, Fin b => Torch.Qlt_bool a b
  | Fin _, Inf s => negb s
  | Inf s, Fin _ => s
  | Inf s, Inf s' => s && negb s'
  | _, _ => false
  end.

(** [torch.round(x).long()].  The integer the library gives for an
    infinity, for [nan] or for a number outside 64 bits is not defined
    (the smallest integer on the usual processors); the model has no
    integer there. *)
Definition to_long (x : t) : option Z :=
  match x with
  | Fin q =>
      let n := round_half_even q in
      if bool_decide (Torch.in_int64 n) then Some n else None
  | _ => None
  end.

(** The order of the values that are no [nan], and their equality, a
    finite value being a rational. *)
Definition le (x y : t) : Prop :=
  match x, y with
  | Fin a, Fin b => (a <= b)%Q
  | Fin _, Inf s => s = false
  | Inf s, Fin _ => s = true
  | Inf s, Inf s' => s = true \/ s' = false
  | _, _ => False
  end.

Definition feq (x y : t) : Prop :=
  match x, y with
  | Fin a, Fin b => (a == b)%Q
  | Inf s, Inf s' => s = s'
  | NaN, NaN => True
  | _, _ => False
  end.

(** The values of the IEEE 754 specification of the standard library
    ([SpecFloat], with 24 bits of precision and the exponent bound 128) as
    values of this module, to compare the two on examples. *)
Definition of_spec (x : SpecFloat.spec_float) : t :=
  match x with
  | SpecFloat.S754_zero _ => Fin 0
  | SpecFloat.S754_infinity s => Inf s
  | SpecFloat.S754_nan => NaN
  | SpecFloat.S754_finite s m e =>
      Fin (Qred ((if s then -1 else 1) * inject_Z (Z.pos m) * pow2 e))
  end.

Definition spec_of_Z (n : Z) : SpecFloat.spec_float :=
  match n with
  | Z0 => SpecFloat.S754_zero false
  | _ => SpecFloat.binary_normalize 24 128 n 0 false
  end.

End Float32.

(** ** The dictionary and the helper of [fairseq.utils] *)

Record Dictionary : Type := {
  pad : Z;
  bos : Z;
  eos : Z;
  unk : Z;
  blank_index : Z
}.

(** The special symbols [pad], [bos], [eos], [unk] are different ids. *)
Definition special_distinct (d : Dictionary) : Prop :=
  NoDup [pad d; bos d; eos d; unk d].

(** Modelled from the spec: [utils.new_arange(x, *size)] lives in
    [fairseq/utils.py], which is not among the source files.  The spec's
    length-beam scenario (beam 3 around length 6 giving 5, 6, 7) and the
    column positions of the skeleton fix it as the positions
    [0, 1, ..., n-1] for the last size [n]; a negative size is refused. *)
Definition new_arange (n : Z) : option (list Z) :=
  if bool_decide (0 <= n) then Some (Z.of_nat <$> seq 0 (Z.to_nat n)) else None.

(** The number of non-pad tokens of one row, as [t.ne(pad).sum(1)] counts
    it. *)
Definition nonpad_count (d : Dictionary) (row : list Z) : Z :=
  Torch.sum_row ((fun x => negb (x =? pad d)) <$> row).

(** ** Python results: a value or a raised exception *)

Inductive exn : Type :=
  | NotImplementedError
  | UnboundLocalError (name : string)
  | AttributeError
  | IndexError
  | TypeError
  | RuntimeError
  | ZeroDivisionError.

(** [UnboundLocalError] is a subclass of [NameError]. *)
Definition is_NameError (e : exn) : bool :=
  match e with
  | UnboundLocalError _ => true
  | _ => false
  end.

Inductive result (A : Type) : Type :=
  | Ok (a : A)
  | Raise (e : exn).
Arguments Ok {A} a.
Arguments Raise {A} e.

#[global] Instance result_ret : MRet result := fun A a => Ok a.
#[global] Instance result_bind : MBind result := fun A B f m =>
  match m with
  | Ok a => f a
  | Raise e => Raise e
  end.

(** [l[i]] on a Python list: negative indices count from the end. *)
Definition py_index {A} (l : list A) (i : Z) : result A :=
  let j := if i <? 0 then Z.of_nat (length l) + i else i in
  if j <? 0 then Raise IndexError
  else match l !! Z.to_nat j with
       | Some a => Ok a
       | None => Raise IndexError
       end.

(** ** Tensors and lists as shared objects

    [DecoderOut] is a named tuple of references: two states can hold the
    same tensor, and an in-place operation on it is seen through both. *)

Abbreviation loc := positive.

Inductive obj : Type :=
  | TokensT (t : list (list Z))
  | ScoresT (s : list (list Q))
  | HistoryL (entries : list loc).

Record DecoderOut : Type := {
  output_tokens : loc;
  output_scores : loc;
  attn : option loc;
  step : Z;
  max_step : Z;
  history : option loc
}.

Definition read_tokens (h : gmap loc obj) (l : loc) : result (list (list Z)) :=
  match h !! l with
  | Some (TokensT t) => Ok t
  | _ => Raise TypeError
  end.

Definition read_scores (h : gmap loc obj) (l : loc) : result (list (list Q)) :=
  match h !! l with
  | Some (ScoresT t) => Ok t
  | _ => Raise TypeError
  end.

Definition read_history (h : gmap loc obj) (l : loc) : result (list loc) :=
  match h !! l with
  | Some (HistoryL e) => Ok e
  | _ => Raise TypeError
  end.

(** A new object gets a reference that is not in use. *)
Definition alloc (h : gmap loc obj) (o : obj) : loc * gmap loc obj :=
  let l := fresh (dom h) in (l, <[l := o]> h).

(** [if history is not None: history.append(output_tokens.clone())] *)
Definition history_append_clone (h : gmap loc obj) (history : option loc)
    (tokens : loc) : result (gmap loc obj) :=
  match history with
  | None => Ok h
  | Some hl =>
      t ← read_tokens h tokens;
      entries ← read_history h hl;
      let a := alloc h (TokensT t) in
      Ok (<[hl := HistoryL (entries ++ [a.1])]> a.2)
  end.

(** A state whose references hold a token tensor, a score tensor and, if
    any, a history list. *)
Definition valid_state (decoder_out : DecoderOut) (h : gmap loc obj)
    (toks : list (list Z)) (scores : list (list Q)) : Prop :=
  h !! output_tokens decoder_out = Some (TokensT toks) /\
  h !! output_scores decoder_out = Some (ScoresT scores) /\
  match history decoder_out with
  | None => True
  | Some hl => exists es, h !! hl = Some (HistoryL es)
  end.

(** ** Length initializer: the skeleton shared by the four initializers *)

Module Skeleton.
Import Torch.

(** The lines shared by [initialize_output_tokens_by_src_tokens],
    [initialize_output_tokens] and [regenerate_length_beam], from
    [max_length = length_tgt.max()] on: [length_tgt] is already clamped. *)
Definition fill (d : Dictionary) (length_tgt : list Z) : option (list (list Z)) :=
  max_length ← tensor_max length_tgt;
  idx_length ← new_arange max_length;
  (* new_zeros(B, max_length).fill_(pad) *)
  let t0 := (fun _ : Z => replicate (Z.to_nat max_length) (pad d)) <$> length_tgt in
  (* masked_fill_(idx_length[None, :] < length_tgt[:, None], unk) *)
  let t1 := zip_with
              (fun row len => masked_fill row ((fun i => i <? len) <$> idx_length) (unk d))
              t0 length_tgt in
  (* [:, 0] = bos *)
  t2 ← mapM (fun row => setitem_col0 row (bos d)) t1;
  (* scatter_(1, length_tgt[:, None] - 1, eos) *)
  mapM (fun rl : list Z * Z => scatter1 rl.1 (wrap64 (rl.2 - 1)) (eos d))
       (zip t2 length_tgt).

(** What one row of the skeleton looks like, column by column. *)
Definition row_at (d : Dictionary) (len : Z) (c : nat) : Z :=
  if bool_decide (Z.of_nat c = len - 1) then eos d
  else if bool_decide (c = 0%nat) then bos d
  else if bool_decide (Z.of_nat c < len) then unk d
  else pad d.

Definition row (d : Dictionary) (max_length : Z) (len : Z) : list Z :=
  row_at d len <$> seq 0 (Z.to_nat max_length).

End Skeleton.

(** ** The helper [_argmax] of both files *)

Module Helpers.

(** [x.max(-1)[0]] on one row; the library refuses an empty row. *)
Definition row_max (r : list Q) : option Q :=
  match r with
  | [] => None
  | x :: r' => Some (foldl (fun a b => if Torch.Qlt_bool a b then b else a) x r')
  end.

(** [_argmax(x, -1)] on a [B x V] tensor:
    [(x == x.max(-1, keepdim=True)[0]).type_as(x)]. *)
Definition _argmax (x : list (list Q)) : option (list (list Q)) :=
  mapM (fun r : list Q =>
          m ← row_max r;
          Some ((fun v : Q => if Qeq_bool v m then 1%Q else 0%Q) <$> r))
       x.

End Helpers.

(** ** [nat_ctc_sd.py] *)

Module CtcSd.
Import Torch.

Record Args : Type := {
  copy_src_token : bool;
  src_upsample_scale : Z;
  num_cross_layer_sample : Z;
  label_smoothing : Q;
  plain_ctc : bool;
  inference_decoder_layer : Z
}.

(** The inner helper [_us(x, s)]:
    [x.unsqueeze(-1).expand(B, -1, s).reshape(B, -1)].  The size [s] has
    to fit 64 bits, and with a batch of no example [reshape(0, -1)]
    cannot tell the second size: both raise a [RuntimeError], which is
    [None]. *)
Definition _us (x : list (list Z)) (s : Z) : option (list (list Z)) :=
  match x with
  | [] => None
  | _ :: _ =>
      if bool_decide (in_int64 s)
      then Some ((fun r : list Z => r ≫= (fun t => replicate (Z.to_nat s) t)) <$> x)
      else None
  end.

(** [length_tgt * self.args.src_upsample_scale]: an [int64] tensor times
    a Python integer, which has to fit 64 bits itself. *)
Definition mul_scalar (t : list Z) (k : Z) : option (list Z) :=
  if bool_decide (in_int64 k) then Some ((fun n => wrap64 (n * k)) <$> t) else None.

Definition initialize_output_tokens_by_src_tokens
    (args : Args) (d : Dictionary) (src_tokens : list (list Z))
    : option (list (list Z)) :=
  if negb (copy_src_token args) then
    let length_tgt := sum1 (ne src_tokens (pad d)) in
    length_tgt ←
      (if 2 <? src_upsample_scale args
       then mul_scalar length_tgt (src_upsample_scale args)
       else mul_scalar length_tgt (src_upsample_scale args));
    let length_tgt := clamp_min 2 <$> length_tgt in
    Skeleton.fill d length_tgt
  else
    if src_upsample_scale args <=? 1 then Some src_tokens
    else _us src_tokens (src_upsample_scale args).

(** The first half of [regenerate_length_beam]: the lengths of the
    [B * beam_size] hypotheses, after [view(-1).clamp_(min=2)]. *)
Definition length_beam (d : Dictionary) (output_tokens : list (list Z))
    (beam_size : Z) : option (list Z) :=
  let length_tgt := sum1 (ne output_tokens (pad d)) in
  arange ← new_arange beam_size;
  let length_tgt :=
    (fun l : Z =>
       (fun j : Z => wrap64 (wrap64 (l + j) - beam_size `div` 2)) <$> (arange : list Z))
      <$> length_tgt in
  Some (clamp_min 2 <$> concat length_tgt).

(** [regenerate_length_beam]: the two fresh tensors that
    [decoder_out._replace] installs as [output_tokens] and
    [output_scores]. *)
Definition regenerate_length_beam (d : Dictionary) (output_tokens : list (list Z))
    (beam_size : Z) : option (list (list Z) * list (list Q)) :=
  length_tgt ← length_beam d output_tokens beam_size;
  initial_output_tokens ← Skeleton.fill d length_tgt;
  let initial_output_scores := new_zeros initial_output_tokens in
  Some (initial_output_tokens, initial_output_scores).

(** The offsets the specification names for a length beam:
    [-(beam_size // 2) ... +(beam_size // 2 - 1)]. *)
Definition spec_offsets (beam_size : Z) : list Z :=
  (fun j : nat => Z.of_nat j - beam_size `div` 2)
    <$> seq 0 (Z.to_nat (2 * (beam_size `div` 2))).

Definition spec_length_beam (d : Dictionary) (output_tokens : list (list Z))
    (beam_size : Z) : list Z :=
  concat ((fun l : Z => (fun o : Z => Z.max 2 (l + o)) <$> spec_offsets beam_size)
            <$> sum1 (ne output_tokens (pad d))).

(** *** The loss *)

(** The decoder of [nat_sd_shared.py] (not among the files modelled
    here), the CTC kernel and the beam-search decoder of the libraries, for
    one fixed [encoder_out].  A logits tensor is a [B x T] table of
    vocabulary vectors.
    - [ctc_loss_mean] and [ctc_loss_none] are [F.ctc_loss] on the
      log-softmax of the logits with [zero_infinity=True], with reduction
      ["mean"] and ["none"];
    - [smoothed_nll logits mask] is
      [-log_probs.mean(-1)[logit_mask].mean()];
    - [ctc_decode] is [ctc_decoder.decode] on the softmax of the logits,
      giving [beam_results] and [out_lens]. *)
Record Network : Type := {
  Vec : Type;
  decoder : list (list Z) -> Z -> list (list (list Vec));
  vmax : Vec -> Q * Z;
  ctc_loss_mean :
    list (list Vec) -> list Z -> list Z -> list Z -> Z -> option Q;
  ctc_loss_none :
    list (list Vec) -> list Z -> list Z -> list Z -> Z -> list (option Q);
  smoothed_nll : list (list Vec) -> list (list bool) -> option Q;
  ctc_decode :
    list (list Vec) -> list Z -> list (list (list Z)) * list (list Z)
}.

(** A loss tensor: one entry when reduced, one per example otherwise;
    an entry that is not a finite number is [None]. *)
Definition scale (c : Q) (v : list (option Q)) : list (option Q) :=
  (fun x : option Q => (fun q => c * q)%Q <$> x) <$> v.

Definition add_entry (x y : option Q) : option Q :=
  a ← x; b ← y; Some (a + b)%Q.

(** [a + b] with a 0-dimensional operand broadcast. *)
Definition add_loss (a b : list (option Q)) : list (option Q) :=
  match a, b with
  | [x], _ => add_entry x <$> b
  | _, [y] => (fun x => add_entry x y) <$> a
  | _, _ => zip_with add_entry a b
  end.

Definition div_entry (x : option Q) (n : Z) : option Q :=
  if n =? 0 then None else (fun q => q / inject_Z n)%Q <$> x.

(** [sequence_ctc_loss_with_logits] on a [B x T] target tensor of at
    least one example (of no example, [torch.stack] has no loss to stack
    when [reduce] is unset).  The second component is what is logged: the
    number of examples whose logit length is below their target length,
    when there is one. *)
Definition sequence_ctc_loss_with_logits (net : Network)
    (logits : list (list (Vec net))) (logit_mask : list (list bool))
    (targets : list (list Z)) (target_mask : list (list bool))
    (blank : Z) (label_smoothing : Q) (reduce : bool)
    : list (option Q) * list Z :=
  let logit_lengths := sum1 logit_mask in
  let target_lengths := sum1 target_mask in
  let targets := masked_select targets target_mask in
  let loss :=
    if reduce
    then [ctc_loss_mean net logits targets logit_lengths target_lengths blank]
    else zip_with div_entry
           (ctc_loss_none net logits targets logit_lengths target_lengths blank)
           target_lengths in
  let n_invalid_samples :=
    foldr Z.add 0 (zip_with (fun a b => Z.b2z (a <? b)) logit_lengths target_lengths) in
  let warnings := if 0 <? n_invalid_samples then [n_invalid_samples] else [] in
  let loss :=
    if Qlt_bool 0 label_smoothing
    then add_loss (scale (1 - label_smoothing) loss)
                  (scale label_smoothing [smoothed_nll net logits logit_mask])
    else loss in
  (loss, warnings).

(** [stack.view(L, -1, V).gather(0, idx).view(B, T, V)]: position [t] of
    example [b] comes from the layer named at [b * T + t]. *)
Definition gather {V} (stack : list (list (list V))) (ids : list nat)
    (batch_size num_tokens : nat) : option (list (list V)) :=
  mapM (fun b =>
          mapM (fun t =>
                  id ← ids !! (b * num_tokens + t)%nat;
                  layer ← stack !! id;
                  row ← layer !! b;
                  row !! t)
               (seq 0 num_tokens))
       (seq 0 batch_size).

(** One iteration of the sampling loop: [ids] is the draw of
    [torch.randint], [acc] is [all_sample_ctc_loss] with the log so far. *)
Definition sample_step (net : Network) (args : Args) (d : Dictionary)
    (output_logits_list : list (list (list (Vec net))))
    (prev_output_tokens tgt_tokens : list (list Z)) (reduce : bool)
    (ids : list nat) (acc : list (option Q) * list Z)
    : result (list (option Q) * list Z) :=
  let prev_output_tokens_mask := ne prev_output_tokens (pad d) in
  let num_tokens := match prev_output_tokens with
                    | r :: _ => length r
                    | [] => 0%nat
                    end in
  let batch_size := length prev_output_tokens in
  match gather output_logits_list ids batch_size num_tokens with
  | None => Raise RuntimeError
  | Some gather_logits =>
      let target_mask := ne tgt_tokens (pad d) in
      let r := sequence_ctc_loss_with_logits net gather_logits
                 prev_output_tokens_mask tgt_tokens target_mask
                 (blank_index d) (label_smoothing args) reduce in
      Ok (add_loss acc.1 r.1, acc.2 ++ r.2)
  end.

(** [forward], the branch [num_cross_layer_sample != 0].  [randint s] is
    the draw of [torch.randint] in iteration [s]; [all_sample_ctc_loss]
    starts as the number 0. *)
Definition forward_cross_layer (net : Network) (args : Args) (d : Dictionary)
    (output_logits_list : list (list (list (Vec net))))
    (prev_output_tokens tgt_tokens : list (list Z)) (reduce : bool)
    (randint : nat -> list nat) : result (list (option Q) * list Z) :=
  (* torch.stack of an empty list is refused *)
  if bool_decide (length output_logits_list = 0%nat) then Raise RuntimeError else
  let N_SAMPLE := num_cross_layer_sample args in
  let all_sample_ctc_loss :=
    foldl (fun (acc : result (list (option Q) * list Z)) (sample_id : nat) =>
             match acc with
             | Ok a => sample_step net args d output_logits_list
                         prev_output_tokens tgt_tokens reduce (randint sample_id) a
             | Raise e => Raise e
             end)
          (Ok ([Some 0%Q], []))
          (seq 0 (Z.to_nat N_SAMPLE)) in
  match all_sample_ctc_loss with
  | Ok a =>
      Ok ((fun x => div_entry x (Z.of_nat (length output_logits_list))) <$> a.1,
          a.2)
  | Raise e => Raise e
  end.

(** [forward], the other branch: the average over the layers.  The two
    accumulators start as the number 0, and a quotient of two numbers 0 is
    refused. *)
Definition forward_all_layers (net : Network) (args : Args) (d : Dictionary)
    (output_logits_list : list (list (list (Vec net))))
    (prev_output_tokens tgt_tokens : list (list Z)) (reduce : bool)
    : result (list (option Q) * list Z) :=
  let prev_output_tokens_mask := ne prev_output_tokens (pad d) in
  let target_mask := ne tgt_tokens (pad d) in
  let acc :=
    foldl (fun (acc : list (option Q) * Z * list Z) word_ins_out =>
             let r := sequence_ctc_loss_with_logits net word_ins_out
                        prev_output_tokens_mask tgt_tokens target_mask
                        (blank_index d) (label_smoothing args) reduce in
             let factor := 1 in
             (add_loss acc.1.1 (scale (inject_Z factor) r.1),
              acc.1.2 + factor, acc.2 ++ r.2))
          ([Some 0%Q], 0, []) output_logits_list in
  if acc.1.2 =? 0 then Raise ZeroDivisionError
  else Ok ((fun x => div_entry x acc.1.2) <$> acc.1.1, acc.2).

(** [NATransformerModel.forward]: the [ctc_loss] entry and the log. *)
Definition forward (net : Network) (args : Args) (d : Dictionary)
    (src_tokens tgt_tokens : list (list Z)) (reduce : bool)
    (randint : nat -> list nat) : result (list (option Q) * list Z) :=
  match initialize_output_tokens_by_src_tokens args d src_tokens with
  | None => Raise RuntimeError
  | Some prev_output_tokens =>
      let output_logits_list := decoder net prev_output_tokens 0 in
      if negb (num_cross_layer_sample args =? 0)
      then forward_cross_layer net args d output_logits_list
             prev_output_tokens tgt_tokens reduce randint
      else forward_all_layers net args d output_logits_list
             prev_output_tokens tgt_tokens reduce
  end.

(** The average the specification names for the sampling mode: the sum
    of the [N] sampled losses over [N]. *)
Definition spec_sample_average (losses : list Q) : Q :=
  (foldr Qplus 0 losses / inject_Z (Z.of_nat (length losses)))%Q.

(** *** Inference *)

(** [output_logits.max(-1)] *)
Definition max_last (net : Network) (logits : list (list (Vec net)))
    : list (list Q) * list (list Z) :=
  ((fun r : list (Vec net) => (fun v => (vmax net v).1) <$> r) <$> logits,
   (fun r : list (Vec net) => (fun v => (vmax net v).2) <$> r) <$> logits).

(** [top_beam_tokens[~mask] = pad] with
    [mask = arange(width) < top_beam_len]. *)
Definition pad_beyond (d : Dictionary) (row : list Z) (len : Z) : list Z :=
  imap (fun c x => if Z.of_nat c <? len then x else pad d) row.

Definition forward_decoder (net : Network) (args : Args) (d : Dictionary)
    (decoder_out : DecoderOut) (h : gmap loc obj)
    : result (DecoderOut * gmap loc obj) :=
  let output_tokens_ref := output_tokens decoder_out in
  let history := history decoder_out in
  toks ← read_tokens h output_tokens_ref;
  let output_logits_list := decoder net toks (step decoder_out) in
  output_logits ← py_index output_logits_list (inference_decoder_layer args);
  if plain_ctc args then
    let output_scores_ref := output_scores decoder_out in
    let st := max_last net output_logits in
    let output_masks := ne toks (pad d) in
    (* output_tokens.masked_scatter_(output_masks, _tokens[output_masks]) *)
    let h := <[output_tokens_ref :=
                 TokensT (masked_scatter toks output_masks
                            (masked_select st.2 output_masks))]> h in
    scores ← read_scores h output_scores_ref;
    let h := <[output_scores_ref :=
                 ScoresT (masked_scatter scores output_masks
                            (masked_select st.1 output_masks))]> h in
    h ← history_append_clone h history output_tokens_ref;
    Ok ({| output_tokens := output_tokens_ref;
           output_scores := output_scores_ref;
           attn := None;
           step := step decoder_out;
           max_step := max_step decoder_out;
           history := history |}, h)
  else
    let output_length := sum1 (ne toks (pad d)) in
    let br := ctc_decode net output_logits output_length in
    (* beam_results[:, 0, :] and out_lens[:, 0] *)
    top_beam_tokens ← mapM (fun beams : list (list Z) => py_index beams 0) br.1;
    top_beam_len ← mapM (fun lens : list Z => py_index lens 0) br.2;
    let top_beam_tokens := zip_with (pad_beyond d) top_beam_tokens top_beam_len in
    h ← history_append_clone h history output_tokens_ref;
    let a := alloc h (TokensT top_beam_tokens) in
    let b := alloc a.2 (ScoresT ((fun r : list Z => (fun _ => 1%Q) <$> r)
                                   <$> top_beam_tokens)) in
    Ok ({| output_tokens := a.1;
           output_scores := b.1;
           attn := None;
           step := step decoder_out;
           max_step := max_step decoder_out;
           history := history |}, b.2).

(** [initialize_output_tokens].  [src_tokens] is the reference of the
    caller's tensor: in copy mode with a scale of at most 1,
    [initialize_output_tokens_by_src_tokens] returns that very tensor, and
    a new one in every other mode. *)
Definition initialize_output_tokens (args : Args) (d : Dictionary)
    (src_tokens : loc) (h : gmap loc obj) : result (DecoderOut * gmap loc obj) :=
  src ← read_tokens h src_tokens;
  match initialize_output_tokens_by_src_tokens args d src with
  | None => Raise RuntimeError
  | Some initial_output_tokens =>
      let a :=
        if copy_src_token args && (src_upsample_scale args <=? 1)
        then (src_tokens, h)
        else alloc h (TokensT initial_output_tokens) in
      let b := alloc a.2 (ScoresT (new_zeros initial_output_tokens)) in
      Ok ({| output_tokens := a.1;
             output_scores := b.1;
             attn := None;
             step := 0;
             max_step := 0;
             history := None |}, b.2)
  end.

End CtcSd.

(** ** [nat_sd_glat_anneal.py] *)

Module GlatAnneal.
Import Torch.

Record Args : Type := {
  hard_argmax : bool;
  fix_schedule : bool;
  always_half : bool;
  inference_decoder_layer : Z;
  src_embedding_copy : bool
}.

(** One entry of a per-layer blend weight, as [forward] builds it: the
    constant [0.5], the number [min(0.5, train_ratio * 10.0)] that Python
    computes for a [train_ratio], or [acc ** 0.5 / 2] for an accuracy
    [acc].  The weights are only handed to the blend of the network; their
    arithmetic is left to it. *)
Inductive weight : Type :=
  | WConst (q : Q)
  | WSchedule (train_ratio : Q)
  | WSqrtHalf (acc : Float32.t).

(** The learned modules and the tensor arithmetic on hidden states, for
    one fixed [encoder_out].
    - [encoder_embedding] and [enc_padding_mask] are the lists
      [encoder_out["encoder_embedding"]] and
      [encoder_out["encoder_padding_mask"]]: tables of source embeddings
      and masks that are [True] at the padding;
    - [forward_embedding] takes the tokens and the optional [states];
    - [blend_even x y_hat] is [(x + y_hat) / sqrt(2)];
    - [blend_weighted p x y_hat] is
      [(p * x + (1 - p) * y_hat) / sqrt(p^2 + (1 - p)^2)], [p] broadcast
      over time and channels;
    - [soft_y_hat] is the softmax of the detached logits over the
      temperature times the embedding table, [hard_y_hat] the embedding
      of the argmax;
    - a layer takes [new_x] and the decoder padding mask;
    - [tensor_mean] is [t.mean()] of a [float32] tensor: the order in
      which the library adds the entries is its own. *)
Record Network : Type := {
  Hidden : Type;
  Logits : Type;
  Emb : Type;
  encoder_embedding : list (list (list Emb));
  enc_padding_mask : list (list (list bool));
  forward_embedding : list (list Z) -> option (list (list Emb)) -> Hidden;
  output_layer : Hidden -> Logits;
  soft_y_hat : Logits -> Hidden;
  hard_y_hat : Logits -> Hidden;
  blend_even : Hidden -> Hidden -> Hidden;
  blend_weighted : list weight -> Hidden -> Hidden -> Hidden;
  layers : list (Hidden -> list (list bool) -> Hidden);
  layer_norm : option (Hidden -> Hidden);
  project_out_dim : option (Hidden -> Hidden);
  log_softmax : Logits -> Logits;
  argmax : Logits -> list (list Z);
  max_last : Logits -> list (list Q) * list (list Z);
  tensor_mean : list Float32.t -> Float32.t
}.

(** *** Copying the source embeddings *)

(** [_uniform_assignment]: for every example the positions
    [round(t * steps)] with [steps = (src_len - 1) / (trg_len - 1)], [t]
    below the longest target length, all in [float32].  The two tensors
    of lengths are brought to one size.  A target length of 1 makes the
    step infinite or [nan], and the positions of that example are no
    integers. *)
Definition _uniform_assignment (src_lens trg_lens : list Z)
    : option (list (list Z)) :=
  max_trg_len ← tensor_max trg_lens;
  index_t ← new_arange max_trg_len;
  st ← broadcast1 src_lens trg_lens;
  mapM (fun st : Z * Z =>
          let steps :=
            Float32.div (Float32.sub (Float32.of_Z st.1) (Float32.Fin 1))
                        (Float32.sub (Float32.of_Z st.2) (Float32.Fin 1)) in
          mapM (fun t : Z => Float32.to_long (Float32.mul steps (Float32.of_Z t)))
               (index_t : list Z))
       (zip st.1 st.2).

(** [forward_copying_source] on a [B x S] table of source embeddings:
    [masked_fill] brings the positions and the mask to one shape, and
    [torch.gather] needs a source row for every row of positions and
    every position to be one of that row. *)
Definition forward_copying_source {E} (src_embeds : list (list E))
    (src_masks tgt_masks : list (list bool)) : option (list (list E)) :=
  let length_sources := sum1 src_masks in
  let length_targets := sum1 tgt_masks in
  index_t ← _uniform_assignment length_sources length_targets;
  im ← broadcast2 index_t (invert tgt_masks);
  let mapped_inputs := masked_fill2 im.1 im.2 0 in
  if bool_decide (length mapped_inputs <= length src_embeds)%nat then
    mapM (fun em : list E * list Z =>
            mapM (fun i : Z =>
                    if 0 <=? i then (em.1 : list E) !! Z.to_nat i else None)
                 (em.2 : list Z))
         (zip src_embeds mapped_inputs)
  else None.

(** *** The decoder *)

(** The state of the loop of [extract_features] and its result.
    [layer_inputs] is not a variable of the program: it records the
    [new_x] handed to each layer, in order. *)
Record Features (net : Network) : Type := {
  x_out : Hidden net;
  inner_states : list (Hidden net);
  all_layer_output_logits : list (Logits net);
  layer_inputs : list (Hidden net)
}.
Arguments x_out {net} _.
Arguments inner_states {net} _.
Arguments all_layer_output_logits {net} _.
Arguments layer_inputs {net} _.

(** How many of [n] remaining layers the loop runs from layer [i] on. *)
Definition layers_run (early_exit : option Z) (i n : nat) : nat :=
  match early_exit with
  | None => n
  | Some e => Nat.min n (Z.to_nat (e - Z.of_nat i))
  end.

(** The feedback of the logits of a hidden state. *)
Definition y_hat_of (net : Network) (args : Args) (layer_out_logits : Logits net)
    : Hidden net :=
  if negb (hard_argmax args) then soft_y_hat net layer_out_logits
  else hard_y_hat net layer_out_logits.

(** [for i, layer in enumerate(self.layers): ...] *)
Fixpoint run_layers (net : Network) (args : Args) (early_exit : option Z)
    (feed_forward_weights : option (list (list weight)))
    (decoder_padding_mask : list (list bool))
    (i : nat) (ls : list (Hidden net -> list (list bool) -> Hidden net))
    (st : Features net) : result (Features net) :=
  match ls with
  | [] => Ok st
  | layer :: ls' =>
      if match early_exit with
         | Some e => e <=? Z.of_nat i
         | None => false
         end
      then Ok st
      else
        let x := x_out st in
        let layer_out_logits := output_layer net x in
        let y_hat := y_hat_of net args layer_out_logits in
        let logits :=
          if (0 <? i)%nat
          then all_layer_output_logits st ++ [layer_out_logits]
          else all_layer_output_logits st in
        new_x ←
          match feed_forward_weights with
          | None => Ok (blend_even net x y_hat)
          | Some w =>
              p ← py_index w (Z.of_nat i);
              Ok (blend_weighted net p x y_hat)
          end;
        let x' := layer new_x decoder_padding_mask in
        run_layers net args early_exit feed_forward_weights decoder_padding_mask
          (S i) ls'
          {| x_out := x';
             inner_states := inner_states st ++ [x'];
             all_layer_output_logits := logits;
             layer_inputs := layer_inputs st ++ [new_x] |}
  end.

(** [new_x] is the blend that layer [i] is handed for the state [x]
    before it: the even blend of [x] and its feedback without weights, the
    blend with the weights of index [i] otherwise. *)
Definition is_blend (net : Network) (args : Args)
    (feed_forward_weights : option (list (list weight))) (i : nat)
    (x new_x : Hidden net) : Prop :=
  let y_hat := y_hat_of net args (output_layer net x) in
  match feed_forward_weights with
  | None => new_x = blend_even net x y_hat
  | Some w => exists p, w !! i = Some p /\ new_x = blend_weighted net p x y_hat
  end.

(** The embedding at the head of [extract_features]: with
    [embedding_copy] the states are the source embeddings that
    [forward_copying_source] copies, under the source mask of
    [encoder_out] or a mask of ones. *)
Definition embed (net : Network) (d : Dictionary)
    (prev_output_tokens : list (list Z)) (embedding_copy : bool)
    : result (Hidden net) :=
  if embedding_copy then
    src_embd ← py_index (encoder_embedding net) 0;
    let src_mask :=
      match enc_padding_mask net with
      | src_mask :: _ => invert src_mask
      | [] => (fun r : list (Emb net) => (fun _ => true) <$> r) <$> src_embd
      end in
    match forward_copying_source src_embd src_mask (ne prev_output_tokens (pad d)) with
    | Some states => Ok (forward_embedding net prev_output_tokens (Some states))
    | None => Raise RuntimeError
    end
  else Ok (forward_embedding net prev_output_tokens None).

Definition extract_features (net : Network) (args : Args) (d : Dictionary)
    (prev_output_tokens : list (list Z)) (early_exit : option Z)
    (embedding_copy : bool)
    (feed_forward_weights : option (list (list weight)))
    : result (Features net) :=
  x ← embed net d prev_output_tokens embedding_copy;
  let decoder_padding_mask := eq prev_output_tokens (pad d) in
  st ← run_layers net args early_exit feed_forward_weights decoder_padding_mask
         0 (layers net)
         {| x_out := x; inner_states := [x];
            all_layer_output_logits := []; layer_inputs := [] |};
  let logits := all_layer_output_logits st ++ [output_layer net (x_out st)] in
  let x := match layer_norm net with
           | Some f => f (x_out st)
           | None => x_out st
           end in
  let x := match project_out_dim net with
           | Some f => f x
           | None => x
           end in
  Ok {| x_out := x; inner_states := inner_states st;
        all_layer_output_logits := logits;
        layer_inputs := layer_inputs st |}.

(** [NATransformerDecoder.forward]; the transpositions only change the
    layout. *)
Definition decoder (net : Network) (args : Args) (d : Dictionary)
    (normalize : bool) (prev_output_tokens : list (list Z)) (step : Z)
    (feed_forward_weights : option (list (list weight)))
    : result (list (Logits net)) :=
  f ← extract_features net args d prev_output_tokens None
        ((step =? 0) && src_embedding_copy args) feed_forward_weights;
  Ok ((fun x => if normalize then log_softmax net x else x)
        <$> all_layer_output_logits f).

(** *** Glancing *)

(** The operations of the glancing block on tensors of one shape. *)

(** [((pred_tokens == tgt_tokens) & nonpad_positions).sum(1)] *)
Definition same_num (pred_tokens tgt_tokens : list (list Z))
    (nonpad_positions : list (list bool)) : list Z :=
  sum1 (zip_with (zip_with andb)
          (zip_with (zip_with Z.eqb) pred_tokens tgt_tokens) nonpad_positions).

(** The two counts for one example: [seq_lens] and [same_num] of a
    target row and a prediction row. *)
Definition sl_row (d : Dictionary) (trow : list Z) : Z :=
  sum_row (negb <$> ((fun x => x =? pad d) <$> trow)).

Definition sn_row (d : Dictionary) (prow trow : list Z) : Z :=
  sum_row (zip_with andb (zip_with Z.eqb prow trow)
             (negb <$> ((fun x => x =? pad d) <$> trow))).

(** [(seq_lens - same_num) / seq_lens * glat['context_p']], one entry per
    example: the quotient of two integer tensors is a [float32] tensor,
    and the Python number [context_p] is taken to [float32] for the
    product. *)
Definition keep_prob (context_p : Q) (seq_lens same : list Z) : list Float32.t :=
  zip_with (fun sl sn =>
              Float32.mul (Float32.div (Float32.of_Z (sl - sn)) (Float32.of_Z sl))
                          (Float32.round context_p))
           seq_lens same.

(** [torch.rand(prev_output_tokens.shape) < keep_prob]: [rand] holds the
    uniform draws, a table of the shape of [prev_output_tokens]. *)
Definition keep_word_mask (rand : list (list Q)) (kp : list Float32.t)
    : list (list bool) :=
  zip_with (fun urow k => (fun u => Float32.ltb (Float32.Fin u) k) <$> urow) rand kp.

Definition glat_prev_output_tokens (prev_output_tokens tgt_tokens : list (list Z))
    (mask : list (list bool)) : list (list Z) :=
  add2 (masked_fill2 prev_output_tokens mask 0)
       (masked_fill2 tgt_tokens (invert mask) 0).

Definition glat_tgt_tokens (d : Dictionary) (tgt_tokens : list (list Z))
    (mask : list (list bool)) : list (list Z) :=
  masked_fill2 tgt_tokens mask (pad d).

(** Two tensors broadcast to one shape, or the [RuntimeError] of the
    operation that is given them. *)
Definition broadcast_1d {A B} (x : list A) (y : list B) : result (list A * list B) :=
  match broadcast1 x y with
  | Some p => Ok p
  | None => Raise RuntimeError
  end.

Definition broadcast_2d {A B} (x : list (list A)) (y : list (list B))
    : result (list (list A) * list (list B)) :=
  match broadcast2 x y with
  | Some p => Ok p
  | None => Raise RuntimeError
  end.

Record GlatInfo : Type := {
  glat_accu : Float32.t;
  glat_context_p : Q;
  glat_keep : Float32.t
}.

(** [torch.div(torch.sum((logits.argmax(-1) == tgt_tokens) & tgt_mask, dim=-1, dtype=logits.dtype),
    torch.sum(tgt_mask, dim=-1))] for [float32] logits: the count of a row
    of fewer than [2^24] positions is added up exactly. *)
Definition per_layer_acc (pred tgt_tokens : list (list Z))
    (tgt_mask : list (list bool)) : result (list Float32.t) :=
  pt ← broadcast_2d pred tgt_tokens;
  em ← broadcast_2d (zip_with (zip_with Z.eqb) pt.1 pt.2) tgt_mask;
  cl ← broadcast_1d (sum1 (zip_with (zip_with andb) em.1 em.2)) (sum1 tgt_mask);
  Ok (zip_with (fun c l => Float32.div (Float32.of_Z c) (Float32.of_Z l)) cl.1 cl.2).

(** The locals of [forward] after the glancing block. *)
Record Locals : Type := {
  l_prev_output_tokens : list (list Z);
  l_tgt_tokens : list (list Z);
  l_glat_info : option GlatInfo;
  l_anneal_info : option (list Float32.t);
  l_all_layer_weight : option (list (list weight))
}.

(** What [forward] returns: the entries [word_ins_i] with their targets and
    mask, and the statistics.  [decoder_input] and [decoder_weights] are
    the arguments of the last decoder call. *)
Record RetVal (net : Network) : Type := {
  word_ins_out : list (Logits net);
  ret_tgt : list (list Z);
  ret_mask : list (list bool);
  ret_glat_info : option GlatInfo;
  ret_anneal_info : option (list Float32.t);
  decoder_input : list (list Z);
  decoder_weights : option (list (list weight))
}.
Arguments word_ins_out {net} _.
Arguments ret_tgt {net} _.
Arguments ret_mask {net} _.
Arguments ret_glat_info {net} _.
Arguments ret_anneal_info {net} _.
Arguments decoder_input {net} _.
Arguments decoder_weights {net} _.

(** The block under [if "context_p" in glat:].  [rand] is the tensor that
    [torch.rand(prev_output_tokens.shape)] gives, a table of draws of the
    shape of [prev_output_tokens].  Every operation on two tensors first
    brings them to one shape, or raises [RuntimeError] when they have
    none; on tensors of one shape nothing changes, and the new tokens are
    [glat_prev_output_tokens] and [glat_tgt_tokens] of the arguments. *)
Definition glancing (net : Network) (args : Args) (d : Dictionary)
    (prev_output_tokens tgt_tokens : list (list Z)) (tgt_mask : list (list bool))
    (context_p : Q) (train_ratio : option Q) (rand : list (list Q))
    : result Locals :=
  (* 1. calculate glancing probability *)
  word_ins_out_list ← decoder net args d false prev_output_tokens 0 None;
  last ← py_index word_ins_out_list (-1);
  let pred_tokens := argmax net last in
  let nonpad_positions := invert (eq tgt_tokens (pad d)) in
  pt ← broadcast_2d pred_tokens tgt_tokens;
  let same := same_num pt.1 pt.2 (invert (eq pt.2 (pad d))) in
  let seq_lens := sum1 nonpad_positions in
  ss ← broadcast_1d seq_lens same;
  let kp := keep_prob context_p ss.1 ss.2 in
  rk ← broadcast_1d rand kp;
  let mask := keep_word_mask rk.1 rk.2 in
  (* prev_output_tokens.masked_fill(keep_word_mask, 0)
     + tgt_tokens.masked_fill(~keep_word_mask, 0) *)
  pm ← broadcast_2d prev_output_tokens mask;
  tm ← broadcast_2d tgt_tokens (invert mask);
  ab ← broadcast_2d (masked_fill2 pm.1 pm.2 0) (masked_fill2 tm.1 tm.2 0);
  let prev' := add2 ab.1 ab.2 in
  (* tgt_tokens.masked_fill(keep_word_mask, self.pad) *)
  tk ← broadcast_2d tgt_tokens mask;
  let tgt' := glat_tgt_tokens d tk.1 tk.2 in
  let info :=
    {| glat_accu :=
         Float32.div (Float32.of_Z (foldr Z.add 0 same))
                     (Float32.of_Z (foldr Z.add 0 seq_lens));
       glat_context_p := context_p;
       glat_keep := tensor_mean net kp |} in
  (* 2. get per layer accuracy *)
  all_layer_acc_list ←
    mapM (fun logits => per_layer_acc (argmax net logits) tgt' tgt_mask)
         word_ins_out_list;
  (* 2.1 calculate per layer y_hat weights *)
  let batch := length pred_tokens in
  all_layer_weight ←
    (if fix_schedule args then
       match train_ratio with
       | None => Raise TypeError
       | Some r =>
           Ok ((fun _ => replicate batch (WSchedule r)) <$> word_ins_out_list)
       end
     else if always_half args then
       Ok ((fun _ => replicate batch (WConst (1 # 2))) <$> word_ins_out_list)
     else
       Ok ((fun acc : list Float32.t => WSqrtHalf <$> acc) <$> all_layer_acc_list));
  Ok {| l_prev_output_tokens := prev';
        l_tgt_tokens := tgt';
        l_glat_info := Some info;
        l_anneal_info := Some (tensor_mean net <$> all_layer_acc_list);
        l_all_layer_weight := Some all_layer_weight |}.

(** [NATransformerModel.forward].  [glat] is [None] or a dictionary; an
    empty dictionary is false as a condition. *)
Definition forward (net : Network) (args : Args) (d : Dictionary)
    (training : bool)
    (prev_output_tokens : list (list Z)) (tgt_tokens : option (list (list Z)))
    (glat : option (gmap string Q)) (train_ratio : option Q)
    (rand : list (list Q)) : result (RetVal net) :=
  (* tgt_mask = tgt_tokens.ne(self.pad) *)
  tgt ← match tgt_tokens with
        | Some t => Ok t
        | None => Raise AttributeError
        end;
  let tgt_mask := ne tgt (pad d) in
  let untouched :=
    {| l_prev_output_tokens := prev_output_tokens;
       l_tgt_tokens := tgt;
       l_glat_info := None;
       l_anneal_info := None;
       l_all_layer_weight := None |} in
  locals ←
    match glat with
    | Some g =>
        if bool_decide (g = ∅) then Ok untouched
        else
          match g !! "context_p"%string with
          | Some context_p =>
              glancing net args d prev_output_tokens tgt tgt_mask
                context_p train_ratio rand
          | None =>
              match g !! "schedule"%string with
              | Some _ => Raise NotImplementedError
              | None => Ok untouched
              end
          end
    | None => Ok untouched
    end;
  word_ins_out_list ←
    (if training then
       w ← match l_all_layer_weight locals with
           | Some w => Ok w
           | None => Raise (UnboundLocalError "all_layer_weight")
           end;
       decoder net args d false (l_prev_output_tokens locals) 0 (Some w)
     else
       decoder net args d false (l_prev_output_tokens locals) 0 None);
  Ok {| word_ins_out := word_ins_out_list;
        ret_tgt := l_tgt_tokens locals;
        ret_mask := tgt_mask;
        ret_glat_info := l_glat_info locals;
        ret_anneal_info := l_anneal_info locals;
        decoder_input := l_prev_output_tokens locals;
        decoder_weights :=
          if training then l_all_layer_weight locals else None |}.

(** *** Inference *)

Definition forward_decoder (net : Network) (args : Args) (d : Dictionary)
    (decoder_out : DecoderOut) (h : gmap loc obj)
    : result (DecoderOut * gmap loc obj) :=
  let output_tokens_ref := output_tokens decoder_out in
  let output_scores_ref := output_scores decoder_out in
  let history := history decoder_out in
  toks ← read_tokens h output_tokens_ref;
  (* execute the decoder *)
  let output_masks := ne toks (pad d) in
  output_logits_list ← decoder net args d true toks (step decoder_out) None;
  output_logits ← py_index output_logits_list (inference_decoder_layer args);
  let st := max_last net output_logits in
  (* output_tokens.masked_scatter_(output_masks, _tokens[output_masks]) *)
  let h := <[output_tokens_ref :=
               TokensT (masked_scatter toks output_masks
                          (masked_select st.2 output_masks))]> h in
  (* output_scores.masked_scatter_(output_masks, _scores[output_masks]) *)
  scores ← read_scores h output_scores_ref;
  let h := <[output_scores_ref :=
               ScoresT (masked_scatter scores output_masks
                          (masked_select st.1 output_masks))]> h in
  h ← history_append_clone h history output_tokens_ref;
  Ok ({| output_tokens := output_tokens_ref;
         output_scores := output_scores_ref;
         attn := None;
         step := step decoder_out;
         max_step := max_step decoder_out;
         history := history |}, h).

(** *** Length prediction *)

(** What the length predictor reads from [encoder_out]: the sizes [T] and
    [B] of [encoder_out["encoder_out"][0]], and the list
    [encoder_out["encoder_padding_mask"]], which is empty or starts with a
    [B x T] mask that is [True] at the padding. *)
Record EncoderOut : Type := {
  enc_T : nat;
  enc_B : nat;
  encoder_padding_mask : list (list (list bool))
}.

(** [src_lengs] of [forward_length_prediction]: the length [T] for every
    example without a mask, the count of the positions that are not
    padding with one. *)
Definition src_lengs (encoder_out : EncoderOut) : list Z :=
  match encoder_padding_mask encoder_out with
  | [] => replicate (enc_B encoder_out) (Z.of_nat (enc_T encoder_out))
  | src_masks :: _ => sum1 (invert src_masks)
  end.

(** [forward_length_prediction].  [pred_lengs] is [length_out.max(-1)[1]],
    the bucket the length classifier scores highest for each example;
    [pred_length_offset] is the attribute of the decoder.  The sums are
    sums of counts and of bucket numbers and stay in 64 bits. *)
Definition forward_length_prediction (d : Dictionary) (pred_length_offset : bool)
    (pred_lengs : list Z) (encoder_out : EncoderOut)
    (tgt_tokens : option (list (list Z))) : list Z :=
  match tgt_tokens with
  | Some tgt =>
      (* obtain the length target *)
      let tgt_lengs := sum1 (ne tgt (pad d)) in
      let length_tgt :=
        if pred_length_offset
        then zip_with (fun t s => t - s + 128) tgt_lengs (src_lengs encoder_out)
        else tgt_lengs in
      clamp 0 255 <$> length_tgt
  | None =>
      (* predict the length target *)
      if pred_length_offset
      then zip_with (fun p s => p - 128 + s) pred_lengs (src_lengs encoder_out)
      else pred_lengs
  end.

(** [initialize_output_tokens]: the skeleton for the predicted lengths,
    with a score tensor of zeros, as a new decoder state.  [src_tokens]
    only gives the batch size, which is the one of [length_tgt]. *)
Definition initialize_output_tokens (d : Dictionary) (pred_length_offset : bool)
    (pred_lengs : list Z) (encoder_out : EncoderOut) (h : gmap loc obj)
    : result (DecoderOut * gmap loc obj) :=
  let length_tgt :=
    forward_length_prediction d pred_length_offset pred_lengs encoder_out None in
  let length_tgt := clamp_min 2 <$> length_tgt in
  match Skeleton.fill d length_tgt with
  | None => Raise RuntimeError
  | Some initial_output_tokens =>
      let a := alloc h (TokensT initial_output_tokens) in
      let b := alloc a.2 (ScoresT (new_zeros initial_output_tokens)) in
      Ok ({| output_tokens := a.1;
             output_scores := b.1;
             attn := None;
             step := 0;
             max_step := 0;
             history := None |}, b.2)
  end.

(** [regenerate_length_beam]: its lines are those of the function of the
    same name of [nat_ctc_sd.py]; [decoder_out._replace] builds a state
    with the two new tensors and the other fields of [decoder_out]. *)
Definition regenerate_length_beam (d : Dictionary) (decoder_out : DecoderOut)
    (beam_size : Z) (h : gmap loc obj) : result (DecoderOut * gmap loc obj) :=
  output_tokens_val ← read_tokens h (output_tokens decoder_out);
  match CtcSd.regenerate_length_beam d output_tokens_val beam_size with
  | None => Raise RuntimeError
  | Some (initial_output_tokens, initial_output_scores) =>
      let a := alloc h (TokensT initial_output_tokens) in
      let b := alloc a.2 (ScoresT initial_output_scores) in
      Ok ({| output_tokens := a.1;
             output_scores := b.1;
             attn := attn decoder_out;
             step := step decoder_out;
             max_step := max_step decoder_out;
             history := history decoder_out |}, b.2)
  end.

End GlatAnneal.

(** ** The registered architectures

    [args] is an [argparse.Namespace]: a finite map from attribute names
    to values.  Every line of an architecture function has the form
    [args.name = getattr(args, name, default)], where the default is a
    constant or another attribute of [args]. *)

Module Architecture.

Inductive pyval : Type :=
  | PyNone
  | PyInt (z : Z)
  | PyBool (b : bool)
  | PyFloat (q : Q)
  | PyStr (s : string).

Inductive default_expr : Type :=
  | Const (v : pyval)
  | Attr (name : string).

(** The default is an argument of [getattr] and is evaluated before the
    call: reading an attribute that is not set raises. *)
Definition eval_default (args : gmap string pyval) (e : default_expr)
    : result pyval :=
  match e with
  | Const v => Ok v
  | Attr name =>
      match args !! name with
      | Some v => Ok v
      | None => Raise AttributeError
      end
  end.

(** [args.name = getattr(args, name, default)] *)
Definition set_default (args : gmap string pyval) (line : string * default_expr)
    : result (gmap string pyval) :=
  v ← eval_default args line.2;
  Ok (<[line.1 := default v (args !! line.1)]> args).

Definition run (lines : list (string * default_expr)) (args : gmap string pyval)
    : result (gmap string pyval) :=
  foldl (fun acc line =>
           match acc with
           | Ok a => set_default a line
           | Raise e => Raise e
           end)
        (Ok args) lines.

(** The lines of [base_architecture], [base_architecture_12d] and
    [base_architecture_24d] of [nat_sd_glat_anneal.py], and of the two
    [base_architecture], [base_architecture1] and [base_architecture2] of
    [nat_ctc_sd.py], in order: the functions differ in the default of
    [decoder_layers] only. *)
Definition lines (decoder_layers : Z) : list (string * default_expr) :=
  [ ("encoder_embed_path", Const PyNone);
    ("encoder_embed_dim", Const (PyInt 512));
    ("encoder_ffn_embed_dim", Const (PyInt 2048));
    ("encoder_layers", Const (PyInt 6));
    ("encoder_attention_heads", Const (PyInt 8));
    ("encoder_normalize_before", Const (PyBool false));
    ("encoder_learned_pos", Const (PyBool false));
    ("decoder_embed_path", Const PyNone);
    ("decoder_embed_dim", Attr "encoder_embed_dim");
    ("decoder_ffn_embed_dim", Attr "encoder_ffn_embed_dim");
    ("decoder_layers", Const (PyInt decoder_layers));
    ("decoder_attention_heads", Const (PyInt 8));
    ("decoder_normalize_before", Const (PyBool false));
    ("decoder_learned_pos", Const (PyBool false));
    ("attention_dropout", Const (PyFloat 0));
    ("activation_dropout", Const (PyFloat 0));
    ("activation_fn", Const (PyStr "relu"));
    ("dropout", Const (PyFloat (1 # 10)));
    ("adaptive_softmax_cutoff", Const PyNone);
    ("adaptive_softmax_dropout", Const (PyInt 0));
    ("share_decoder_input_output_embed", Const (PyBool false));
    ("share_all_embeddings", Const (PyBool false));
    ("no_token_positional_embeddings", Const (PyBool false));
    ("adaptive_input", Const (PyBool false));
    ("apply_bert_init", Const (PyBool false));
    ("decoder_output_dim", Attr "decoder_embed_dim");
    ("decoder_input_dim", Attr "decoder_embed_dim");
    (* --- special arguments --- *)
    ("sg_length_pred", Const (PyBool false));
    ("pred_length_offset", Const (PyBool false));
    ("length_loss_factor", Const (PyFloat (1 # 10)));
    ("src_embedding_copy", Const (PyBool false)) ]%string.

Definition base_architecture : gmap string pyval -> result (gmap string pyval) :=
  run (lines 6).

Definition base_architecture_12d : gmap string pyval -> result (gmap string pyval) :=
  run (lines 12).

Definition base_architecture_24d : gmap string pyval -> result (gmap string pyval) :=
  run (lines 24).

Definition big_architecture_12e (args : gmap string pyval)
    : result (gmap string pyval) :=
  args ← set_default args ("encoder_layers"%string, Const (PyInt 12));
  base_architecture args.

(** The names a list of lines assigns, and the check that every attribute
    read as a default is assigned by an earlier line or is in [seen]. *)
Definition names (ls : list (string * default_expr)) : list string := fst <$> ls.

Fixpoint attrs_bound (seen : list string) (ls : list (string * default_expr)) : bool :=
  match ls with
  | [] => true
  | (name, e) :: ls' =>
      match e with
      | Const _ => true
      | Attr a => bool_decide (a ∈ seen)
      end && attrs_bound (name :: seen) ls'
  end.

End Architecture.

(** ** Concrete instances used by the examples below *)

Module Examples.

(** The usual fairseq ids: [bos] 0, [pad] 1, [eos] 2, [unk] 3. *)
Definition dict : Dictionary :=
  {| pad := 1; bos := 0; eos := 2; unk := 3; blank_index := 4 |}.

Definition ctc_args : CtcSd.Args :=
  {| CtcSd.copy_src_token := false; CtcSd.src_upsample_scale := 2;
     CtcSd.num_cross_layer_sample := 0; CtcSd.label_smoothing := 0;
     CtcSd.plain_ctc := false; CtcSd.inference_decoder_layer := -1 |}.

(** Two source sentences of 3 and 1 tokens, padded to width 4. *)
Definition src_batch : list (list Z) := [[5; 6; 7; 1]; [5; 1; 1; 1]].

(** A network small enough to run by hand: hidden states and logits
    are token tables, every module is the identity, and the output head
    reads 12 wherever it sees [unk]. *)
Definition guess (t : Z) : Z := if t =? 3 then 12 else t.

Definition toy_net : GlatAnneal.Network :=
  {| GlatAnneal.Hidden := list (list Z);
     GlatAnneal.Logits := list (list Z);
     GlatAnneal.Emb := Z;
     GlatAnneal.encoder_embedding := [[[5; 6; 7]]];
     GlatAnneal.enc_padding_mask := [];
     GlatAnneal.forward_embedding := fun toks states =>
       match states with
       | Some e => e
       | None => toks
       end;
     GlatAnneal.output_layer := fun x => x;
     GlatAnneal.soft_y_hat := fun l => l;
     GlatAnneal.hard_y_hat := fun l => l;
     GlatAnneal.blend_even := fun x _ => x;
     GlatAnneal.blend_weighted := fun _ x _ => x;
     GlatAnneal.layers := [fun x _ => x; fun x _ => x];
     GlatAnneal.layer_norm := None;
     GlatAnneal.project_out_dim := None;
     GlatAnneal.log_softmax := fun l => l;
     GlatAnneal.argmax := fun l => (fun r : list Z => guess <$> r) <$> l;
     GlatAnneal.max_last := fun l =>
       ((fun r : list Z => (fun _ => 0%Q) <$> r) <$> l,
        (fun r : list Z => guess <$> r) <$> l);
     GlatAnneal.tensor_mean := fun l => default Float32.NaN (head l) |}.

(** A network on real numbers: a hidden state is one number, the
    modules are the identity, and the two blends are the formulas of
    [extract_features]. *)
Definition weight_R (w : GlatAnneal.weight) : R :=
  match w with
  | GlatAnneal.WConst q => Q2R q
  | GlatAnneal.WSchedule r => Rmin (1 / 2) (Q2R r * 10)
  | GlatAnneal.WSqrtHalf (Float32.Fin a) => (sqrt (Q2R a) / 2)%R
  | GlatAnneal.WSqrtHalf _ => 0%R
  end.

Definition real_net : GlatAnneal.Network :=
  {| GlatAnneal.Hidden := R;
     GlatAnneal.Logits := R;
     GlatAnneal.Emb := R;
     GlatAnneal.encoder_embedding := [];
     GlatAnneal.enc_padding_mask := [];
     GlatAnneal.forward_embedding := fun _ _ => 1%R;
     GlatAnneal.output_layer := fun x => x;
     GlatAnneal.soft_y_hat := fun l => l;
     GlatAnneal.hard_y_hat := fun l => l;
     GlatAnneal.blend_even := fun x y_hat => ((x + y_hat) / sqrt 2)%R;
     GlatAnneal.blend_weighted := fun w x y_hat =>
       let p := weight_R (default (GlatAnneal.WConst (1 # 2)) (head w)) in
       ((p * x + (1 - p) * y_hat) / sqrt (p * p + (1 - p) * (1 - p)))%R;
     GlatAnneal.layers := [fun x _ => x; fun x _ => x];
     GlatAnneal.layer_norm := None;
     GlatAnneal.project_out_dim := None;
     GlatAnneal.log_softmax := fun l => l;
     GlatAnneal.argmax := fun _ => [];
     GlatAnneal.max_last := fun _ => ([], []);
     GlatAnneal.tensor_mean := fun _ => Float32.NaN |}.

Definition glat_args : GlatAnneal.Args :=
  {| GlatAnneal.hard_argmax := false; GlatAnneal.fix_schedule := false;
     GlatAnneal.always_half := false;
     GlatAnneal.inference_decoder_layer := -1;
     GlatAnneal.src_embedding_copy := false |}.

(** One training example: the skeleton, the target, and the draws. *)
Definition prev_tokens : list (list Z) := [[0; 3; 3; 2]].
Definition tgt_tokens : list (list Z) := [[0; 12; 11; 2]].
Definition draws : list (list Q) := [[0; 1 # 2; 1 # 16; 1 # 2]]%Q.

Definition glat_half : gmap string Q := {[ "context_p"%string := (1 # 2)%Q ]}.
Definition glat_zero : gmap string Q := {[ "context_p"%string := 0%Q ]}.
Definition glat_schedule : gmap string Q := {[ "schedule"%string := (1 # 2)%Q ]}.

(** A CTC model small enough to run by hand: a vocabulary vector is one
    number, the decoder has two layers whose logits are 1 everywhere and
    3 everywhere, and the loss kernel adds up the logits it is given. *)
Definition sum2 (t : list (list Q)) : Q :=
  foldr Qplus 0%Q ((fun r : list Q => foldr Qplus 0%Q r) <$> t).

Definition toy_ctc_net : CtcSd.Network :=
  {| CtcSd.Vec := Q;
     CtcSd.decoder := fun toks _ =>
       [(fun r : list Z => (fun _ => 1%Q) <$> r) <$> toks;
        (fun r : list Z => (fun _ => 3%Q) <$> r) <$> toks];
     CtcSd.vmax := fun v => (v, 7);
     CtcSd.ctc_loss_mean := fun logits _ _ _ _ => Some (sum2 logits);
     CtcSd.ctc_loss_none := fun logits _ _ _ _ =>
       (fun r : list Q => Some (foldr Qplus 0%Q r)) <$> logits;
     CtcSd.smoothed_nll := fun _ _ => Some 0%Q;
     CtcSd.ctc_decode := fun logits lens =>
       ((fun r : list Q => [(fun _ => 9) <$> r]) <$> logits,
        (fun n : Z => [n - 1]) <$> lens) |}.

(** One sample over two decoder layers. *)
Definition sample_args : CtcSd.Args :=
  {| CtcSd.copy_src_token := false; CtcSd.src_upsample_scale := 2;
     CtcSd.num_cross_layer_sample := 1; CtcSd.label_smoothing := 0;
     CtcSd.plain_ctc := false; CtcSd.inference_decoder_layer := -1 |}.

Definition plain_args : CtcSd.Args :=
  {| CtcSd.copy_src_token := false; CtcSd.src_upsample_scale := 2;
     CtcSd.num_cross_layer_sample := 0; CtcSd.label_smoothing := 0;
     CtcSd.plain_ctc := true; CtcSd.inference_decoder_layer := -1 |}.

(** The draw of the single sample: layers 0, 1, 0, 1 for the four
    positions. *)
Definition layer_draw (sample_id : nat) : list nat := [0; 1; 0; 1]%nat.

(** A decoder state: tokens at reference 1, scores at reference 2, no
    history. *)
Definition state0 : DecoderOut :=
  {| output_tokens := 1%positive; output_scores := 2%positive; attn := None;
     step := 0; max_step := 0; history := None |}.

Definition heap0 : gmap loc obj :=
  <[1%positive := TokensT [[0; 3; 2; 1]]]>
    (<[2%positive := ScoresT [[0; 0; 0; 0]]%Q]> ∅).

(** An encoder output for one source sentence of 3 tokens, without a
    padding mask. *)
Definition enc_out : GlatAnneal.EncoderOut :=
  {| GlatAnneal.enc_T := 3; GlatAnneal.enc_B := 1;
     GlatAnneal.encoder_padding_mask := [] |}.

(** Copy mode: the source repeated twice, and the source itself decoded
    with the plain CTC decoder. *)
Definition copy_args : CtcSd.Args :=
  {| CtcSd.copy_src_token := true; CtcSd.src_upsample_scale := 2;
     CtcSd.num_cross_layer_sample := 0; CtcSd.label_smoothing := 0;
     CtcSd.plain_ctc := true; CtcSd.inference_decoder_layer := -1 |}.

Definition copy_plain_args : CtcSd.Args :=
  {| CtcSd.copy_src_token := true; CtcSd.src_upsample_scale := 1;
     CtcSd.num_cross_layer_sample := 0; CtcSd.label_smoothing := 0;
     CtcSd.plain_ctc := true; CtcSd.inference_decoder_layer := -1 |}.

(** The caller's [src_tokens] at reference 1. *)
Definition heap_src : gmap loc obj := <[1%positive := TokensT [[5; 6; 1]]]> ∅.

(** A decoder state that keeps a history, the list at reference 3. *)
Definition state_h : DecoderOut :=
  {| output_tokens := 1%positive; output_scores := 2%positive; attn := None;
     step := 0; max_step := 0; history := Some 3%positive |}.

Definition heap_h : gmap loc obj := <[3%positive := HistoryL []]> heap0.

End Examples.

(** * Properties *)

(** ** Arithmetic and list facts *)

Section TorchFacts.
Import Torch.

Lemma wrap64_id (z : Z) : in_int64 z -> wrap64 z = z.
Proof.
  unfold in_int64, wrap64. intros Hz.
  rewrite Z.mod_small by lia. lia.
Qed.

Lemma foldl_max_ge (l : list Z) (x : Z) : x <= foldl Z.max x l.
Proof.
  revert x. induction l as [|y l IH]; intros x; simpl; [lia|].
  specialize (IH (Z.max x y)). lia.
Qed.

Lemma foldl_max_upper (l : list Z) (x : Z) :
  Forall (fun y => y <= foldl Z.max x l) l.
Proof.
  revert x. induction l as [|y l IH]; intros x; simpl; constructor.
  - pose proof (foldl_max_ge l (Z.max x y)). lia.
  - apply IH.
Qed.

Lemma foldl_max_attained (l : list Z) (x : Z) :
  foldl Z.max x l = x \/ foldl Z.max x l ∈ l.
Proof.
  revert x. induction l as [|y l IH]; intros x; simpl; [by left|].
  destruct (IH (Z.max x y)) as [H|H].
  - rewrite H. destruct (Z.max_spec x y) as [[_ ->]|[_ ->]].
    + right. by left.
    + by left.
  - right. by right.
Qed.

Lemma tensor_max_Some (l : list Z) :
  l <> [] ->
  exists m, tensor_max l = Some m /\ m ∈ l /\ Forall (fun y => y <= m) l.
Proof.
  destruct l as [|x l]; [done|]. intros _. simpl.
  exists (foldl Z.max x l). split; [done|]. split.
  - destruct (foldl_max_attained l x) as [->|H]; [by left|by right].
  - constructor; [apply foldl_max_ge|apply foldl_max_upper].
Qed.

Lemma sum_row_bounds (r : list bool) : 0 <= sum_row r <= Z.of_nat (length r).
Proof.
  induction r as [|b r IH]; simpl; [lia|].
  unfold sum_row in *. simpl. destruct b; simpl; lia.
Qed.

Lemma zip_with_fmap_same {A B C} (f : B -> A -> C) (g : A -> B) (l : list A) :
  zip_with f (g <$> l) l = (fun x => f (g x) x) <$> l.
Proof. induction l as [|x l IH]; csimpl; [done|]. by f_equal. Qed.

Lemma mapM_all_Some {A B} (f : A -> option B) (g : A -> B) (l : list A) :
  Forall (fun x => f x = Some (g x)) l -> mapM f l = Some (g <$> l).
Proof.
  intros H. apply mapM_Some. apply Forall2_fmap_r.
  by apply Forall_Forall2_diag.
Qed.

End TorchFacts.

(** ** [float32]: rounding is monotone, exact on the values of the format,
       and close *)

Section Pow2.

Lemma pow2_pos (e : Z) : (0 < Float32.pow2 e)%Q.
Proof. apply Qpower_0_lt. reflexivity. Qed.

Lemma pow2_add (a b : Z) : (Float32.pow2 (a + b) == Float32.pow2 a * Float32.pow2 b)%Q.
Proof. apply Qpower_plus. discriminate. Qed.

Lemma pow2_le (a b : Z) : a <= b -> (Float32.pow2 a <= Float32.pow2 b)%Q.
Proof. intros H. apply Qpower_le_compat_l; [done|]. discriminate. Qed.

Lemma pow2_lt (a b : Z) : a < b -> (Float32.pow2 a < Float32.pow2 b)%Q.
Proof. intros H. apply Qpower_lt_compat_l; [done|]. reflexivity. Qed.

Lemma pow2_lt_inv (a b : Z) : (Float32.pow2 a < Float32.pow2 b)%Q -> a < b.
Proof. intros H. apply (Qpower_lt_compat_l_inv (2 # 1)); [done|]. reflexivity. Qed.

Lemma pow2_Z (k : Z) : 0 <= k -> (Float32.pow2 k == inject_Z (2 ^ k))%Q.
Proof. intros H. unfold Float32.pow2. rewrite Zpower_Qpower by done. reflexivity. Qed.

Lemma pow2_sub (a b : Z) : (Float32.pow2 (a - b) == Float32.pow2 a / Float32.pow2 b)%Q.
Proof. apply Qpower_minus. discriminate. Qed.

Lemma Qdiv_pow2 (q : Q) (e : Z) : (q / Float32.pow2 e * Float32.pow2 e == q)%Q.
Proof.
  pose proof (pow2_pos e). field. intros E. rewrite E in H. by apply Qlt_irrefl in H.
Qed.

Lemma Qdiv_pow2_le (q q' : Q) (e : Z) :
  (q <= q')%Q -> (q / Float32.pow2 e <= q' / Float32.pow2 e)%Q.
Proof.
  intros H. pose proof (pow2_pos e) as He.
  apply Qmult_le_compat_r; [done|]. apply Qlt_le_weak, Qinv_lt_0_compat, He.
Qed.

Lemma Qdiv_pow2_lt (q q' : Q) (e : Z) : (q < q')%Q -> (q / Float32.pow2 e < q' / Float32.pow2 e)%Q.
Proof.
  intros H. pose proof (pow2_pos e) as He.
  apply Qmult_lt_compat_r; [|done]. apply Qinv_lt_0_compat, He.
Qed.

Lemma Qdiv_pow2_nonneg (q : Q) (e : Z) : (0 <= q)%Q -> (inject_Z 0 <= q / Float32.pow2 e)%Q.
Proof.
  intros H. change (inject_Z 0) with 0%Q. apply Qmult_le_0_compat; [done|].
  apply Qlt_le_weak, Qinv_lt_0_compat, pow2_pos.
Qed.

End Pow2.

Section Log2.

Lemma ilog2_spec (q : Q) :
  (0 < q)%Q ->
  (Float32.pow2 (Float32.ilog2 q) <= q)%Q /\ (q < Float32.pow2 (Float32.ilog2 q + 1))%Q.
Proof.
  intros Hq. destruct q as [n d]. 
  assert (0 < n) as Hn.
  { unfold Qlt in Hq. simpl in Hq. lia. }
  pose proof (Z.log2_spec n Hn) as [Hn1 Hn2].
  pose proof (Z.log2_spec (Z.pos d) (Pos2Z.is_pos d)) as [Hd1 Hd2].
  pose proof (Z.log2_nonneg n) as Hln. pose proof (Z.log2_nonneg (Z.pos d)) as Hld.
  unfold Float32.ilog2. cbn [Qnum Qden].
  set (ln := Z.log2 n) in *. set (ld := Z.log2 (Z.pos d)) in *.
  assert (n # d == inject_Z n / inject_Z (Z.pos d))%Q as Hq' by apply Qmake_Qdiv.
  assert (0 < inject_Z (Z.pos d))%Q as Hdp by (unfold Qlt; simpl; lia).
  assert ((n # d) * inject_Z (Z.pos d) == inject_Z n)%Q as Hmul.
  { rewrite Hq'. field. intros E. rewrite E in Hdp. by apply Qlt_irrefl in Hdp. }
  assert (Float32.pow2 ln <= inject_Z n)%Q as A1.
  { rewrite pow2_Z by done. rewrite <- Zle_Qle. done. }
  assert (inject_Z n < Float32.pow2 (ln + 1))%Q as A2.
  { rewrite pow2_Z by lia. rewrite <- Zlt_Qlt. replace (ln + 1) with (Z.succ ln) by lia. done. }
  assert (Float32.pow2 ld <= inject_Z (Z.pos d))%Q as B1.
  { rewrite pow2_Z by done. rewrite <- Zle_Qle. done. }
  assert (inject_Z (Z.pos d) < Float32.pow2 (ld + 1))%Q as B2.
  { rewrite pow2_Z by lia. rewrite <- Zlt_Qlt. replace (ld + 1) with (Z.succ ld) by lia. done. }
  assert (n # d < Float32.pow2 (ln - ld + 1))%Q as U.
  { apply (Qmult_lt_r _ _ (inject_Z (Z.pos d))); [done|]. rewrite Hmul.
    eapply Qlt_le_trans; [apply A2|].
    replace (ln + 1) with ((ln - ld + 1) + ld) by lia. rewrite pow2_add.
    apply Qmult_le_l; [apply pow2_pos|done]. }
  assert (Float32.pow2 (ln - ld - 1) <= n # d)%Q as L.
  { apply (Qmult_le_r _ _ (inject_Z (Z.pos d))); [done|]. rewrite Hmul.
    eapply Qle_trans; [|apply A1].
    replace ln with ((ln - ld - 1) + (ld + 1)) at 2 by lia. rewrite pow2_add.
    apply Qmult_le_l; [apply pow2_pos|]. by apply Qlt_le_weak. }
  destruct (Qle_bool (Float32.pow2 (ln - ld)) (n # d)) eqn:E.
  - apply Qle_bool_iff in E. split; done.
  - split; [done|]. replace (ln - ld - 1 + 1) with (ln - ld) by lia.
    apply Qnot_le_lt. intros C. apply Qle_bool_iff in C. congruence.
Qed.

Lemma ilog2_unique (q : Q) (e : Z) :
  (Float32.pow2 e <= q)%Q -> (q < Float32.pow2 (e + 1))%Q -> Float32.ilog2 q = e.
Proof.
  intros H1 H2.
  assert (0 < q)%Q as Hq by (eapply Qlt_le_trans; [apply (pow2_pos e)|done]).
  destruct (ilog2_spec q Hq) as [G1 G2].
  assert (Float32.ilog2 q < e + 1).
  { apply pow2_lt_inv. eapply Qle_lt_trans; [apply G1|done]. }
  assert (e < Float32.ilog2 q + 1).
  { apply pow2_lt_inv. eapply Qle_lt_trans; [apply H1|done]. }
  lia.
Qed.

Lemma ilog2_mono (q q' : Q) : (0 < q)%Q -> (q <= q')%Q -> Float32.ilog2 q <= Float32.ilog2 q'.
Proof.
  intros Hq Hle.
  assert (0 < q')%Q as Hq' by (eapply Qlt_le_trans; done).
  destruct (ilog2_spec q Hq) as [G1 G2]. destruct (ilog2_spec q' Hq') as [G1' G2'].
  assert (Float32.ilog2 q < Float32.ilog2 q' + 1); [|lia].
  apply pow2_lt_inv. eapply Qle_lt_trans; [apply G1|].
  eapply Qle_lt_trans; [apply Hle|done].
Qed.

Lemma ilog2_comp (q q' : Q) : (0 < q)%Q -> (q == q')%Q -> Float32.ilog2 q = Float32.ilog2 q'.
Proof.
  intros Hq E. destruct (ilog2_spec q Hq) as [G1 G2]. symmetry.
  apply ilog2_unique; rewrite <- E; done.
Qed.

End Log2.

Section Rounding.

Lemma Qlt_bool_spec (a b : Q) : reflect (a < b)%Q (Torch.Qlt_bool a b).
Proof.
  unfold Torch.Qlt_bool. destruct (Qle_bool b a) eqn:E; simpl; constructor.
  - apply Qle_bool_iff in E. lra.
  - intros. destruct (Qlt_le_dec a b) as [H|H]; [done|].
    apply Qle_bool_iff in H. congruence.
Qed.

Lemma round_half_even_cases (q : Q) :
  let f := Qfloor q in
  (inject_Z f <= q < inject_Z f + 1)%Q /\
  (Float32.round_half_even q = f /\ (q - inject_Z f <= 1 # 2)%Q \/
   Float32.round_half_even q = f + 1 /\ (1 # 2 <= q - inject_Z f)%Q).
Proof.
  intros f. pose proof (Qfloor_le q) as Hle. pose proof (Qlt_floor q) as Hlt.
  fold f in Hle, Hlt. rewrite inject_Z_plus in Hlt. change (inject_Z 1) with 1%Q in Hlt.
  split; [split; [done|lra]|].
  unfold Float32.round_half_even. fold f.
  destruct (Qlt_bool_spec (q - inject_Z f) (1 # 2)); [left; split; [done|lra]|].
  destruct (Qlt_bool_spec (1 # 2) (q - inject_Z f)); [right; split; [done|lra]|].
  destruct (Z.even f); [left|right]; (split; [done|lra]).
Qed.

Lemma round_half_even_bounds (q : Q) (a b : Z) :
  (inject_Z a <= q <= inject_Z b)%Q -> a <= Float32.round_half_even q <= b.
Proof.
  intros [Ha Hb].
  destruct (round_half_even_cases q) as [[Hf1 Hf2] Hr]. cbv zeta in *.
  set (f := Qfloor q) in *.
  assert (a <= f) as Haf.
  { rewrite <- (Qfloor_Z a). by apply Qfloor_resp_le. }
  assert (f <= b) as Hfb.
  { rewrite <- (Qfloor_Z b). by apply Qfloor_resp_le. }
  destruct Hr as [[-> _]|[-> Hhalf]]; [lia|].
  split; [lia|].
  assert (inject_Z f < inject_Z b)%Q as Hlt by lra.
  rewrite <- Zlt_Qlt in Hlt. lia.
Qed.

Lemma round_half_even_mono (q q' : Q) :
  (q <= q')%Q -> Float32.round_half_even q <= Float32.round_half_even q'.
Proof.
  intros Hq.
  pose proof (Qfloor_resp_le q q' Hq) as Hff.
  destruct (round_half_even_cases q) as [[Hf1 Hf2] Hr].
  destruct (round_half_even_cases q') as [[Hf1' Hf2'] Hr']. cbv zeta in *.
  destruct (decide (Qfloor q = Qfloor q')) as [E|E].
  - unfold Float32.round_half_even. rewrite <- E.
    set (f := Qfloor q) in *.
    destruct (Qlt_bool_spec (q - inject_Z f) (1 # 2));
      destruct (Qlt_bool_spec (q' - inject_Z f) (1 # 2)); try lia; try lra.
    + destruct (Qlt_bool_spec (1 # 2) (q' - inject_Z f)); [lia|].
      destruct (Z.even f); lia.
    + destruct (Qlt_bool_spec (1 # 2) (q - inject_Z f));
        destruct (Qlt_bool_spec (1 # 2) (q' - inject_Z f)); try lia; try lra.
      destruct (Z.even f); lia.
  - destruct Hr as [[-> _]|[-> _]]; destruct Hr' as [[-> _]|[-> _]]; lia.
Qed.

Lemma round_half_even_Z (q : Q) (z : Z) : (q == inject_Z z)%Q -> Float32.round_half_even q = z.
Proof.
  intros E. assert (inject_Z z <= q <= inject_Z z)%Q as H by (rewrite E; lra).
  apply round_half_even_bounds in H. lia.
Qed.

Lemma round_half_even_comp (q q' : Q) :
  (q == q')%Q -> Float32.round_half_even q = Float32.round_half_even q'.
Proof.
  intros E.
  assert (q <= q')%Q as H1 by (rewrite E; lra).
  assert (q' <= q)%Q as H2 by (rewrite E; lra).
  apply round_half_even_mono in H1, H2. lia.
Qed.

Lemma round_half_even_err (q : Q) :
  (q - (1 # 2) <= inject_Z (Float32.round_half_even q) <= q + (1 # 2))%Q.
Proof.
  destruct (round_half_even_cases q) as [[Hf1 Hf2] Hr]. cbv zeta in *.
  destruct Hr as [[-> H]|[-> H]].
  - lra.
  - rewrite inject_Z_plus. change (inject_Z 1) with 1%Q. lra.
Qed.

Lemma round_pos_value (q : Q) :
  Float32.round_pos q
  = if Qle_bool (Float32.pow2 128) (Float32.value q) then Float32.Inf false
    else Float32.Fin (Qred (Float32.value q)).
Proof. reflexivity. Qed.

Lemma signif_bounds (q : Q) :
  (0 < q)%Q ->
  0 <= Float32.signif q <= 2 ^ 24 /\
  (-126 <= Float32.ilog2 q -> 2 ^ 23 <= Float32.signif q) /\
  (Float32.ilog2 q < -126 -> Float32.signif q <= 2 ^ 23).
Proof.
  intros Hq. destruct (ilog2_spec q Hq) as [G1 G2].
  unfold Float32.signif, Float32.expo. set (e := Float32.ilog2 q) in *.
  destruct (Z.max_spec e (-126)) as [[Hlt ->]|[Hge ->]].
  - (* subnormal *)
    assert (inject_Z 0 <= q / Float32.pow2 (-126 - 23) <= inject_Z (2 ^ 23))%Q as Hb.
    { split.
      - apply Qdiv_pow2_nonneg. by apply Qlt_le_weak.
      - rewrite <- pow2_Z by lia.
        assert (Float32.pow2 23 == Float32.pow2 (-126) / Float32.pow2 (-126 - 23))%Q as ->
          by reflexivity.
        apply Qdiv_pow2_le. apply Qlt_le_weak. eapply Qlt_le_trans; [apply G2|].
        apply pow2_le. lia. }
    pose proof (round_half_even_bounds _ _ _ Hb). lia.
  - assert (inject_Z (2 ^ 23) <= q / Float32.pow2 (e - 23) <= inject_Z (2 ^ 24))%Q as Hb.
    { split.
      - rewrite <- pow2_Z by lia.
        assert (Float32.pow2 23 == Float32.pow2 e / Float32.pow2 (e - 23))%Q as ->.
        { rewrite <- pow2_sub. by replace (e - (e - 23)) with 23 by lia. }
        by apply Qdiv_pow2_le.
      - rewrite <- pow2_Z by lia.
        assert (Float32.pow2 24 == Float32.pow2 (e + 1) / Float32.pow2 (e - 23))%Q as ->.
        { rewrite <- pow2_sub. by replace (e + 1 - (e - 23)) with 24 by lia. }
        apply Qdiv_pow2_le. by apply Qlt_le_weak. }
    pose proof (round_half_even_bounds _ _ _ Hb). lia.
Qed.

Lemma value_nonneg (q : Q) : (0 < q)%Q -> (0 <= Float32.value q)%Q.
Proof.
  intros Hq. destruct (signif_bounds q Hq) as [[H _] _].
  unfold Float32.value. apply Qmult_le_0_compat.
  - change 0%Q with (inject_Z 0). by rewrite <- Zle_Qle.
  - apply Qlt_le_weak, pow2_pos.
Qed.

Lemma value_upper (q : Q) :
  (0 < q)%Q -> (Float32.value q <= Float32.pow2 (Z.max (Float32.ilog2 q + 1) (-126)))%Q.
Proof.
  intros Hq. destruct (signif_bounds q Hq) as (_ & _ & Hs).
  destruct (ilog2_spec q Hq) as [G1 G2].
  unfold Float32.value. unfold Float32.signif, Float32.expo in *. set (e := Float32.ilog2 q) in *.
  destruct (Z.max_spec e (-126)) as [[Hlt E]|[Hge E]]; rewrite E in *.
  - specialize (Hs Hlt). rewrite Z.max_r by lia.
    assert (Float32.pow2 (-126) == inject_Z (2 ^ 23) * Float32.pow2 (-126 - 23))%Q as ->
      by reflexivity.
    apply Qmult_le_compat_r; [|apply Qlt_le_weak, pow2_pos].
    by rewrite <- Zle_Qle.
  - rewrite Z.max_l by lia.
    assert (inject_Z 0 <= q / Float32.pow2 (e - 23) <= inject_Z (2 ^ 24))%Q as Hb.
    { split.
      - apply Qdiv_pow2_nonneg. by apply Qlt_le_weak.
      - rewrite <- pow2_Z by lia.
        assert (Float32.pow2 24 == Float32.pow2 (e + 1) / Float32.pow2 (e - 23))%Q as ->.
        { rewrite <- pow2_sub. by replace (e + 1 - (e - 23)) with 24 by lia. }
        apply Qdiv_pow2_le. by apply Qlt_le_weak. }
    pose proof (round_half_even_bounds _ _ _ Hb) as [_ Hu].
    replace (e + 1) with (24 + (e - 23)) by lia. rewrite pow2_add.
    apply Qmult_le_compat_r; [|apply Qlt_le_weak, pow2_pos].
    rewrite (pow2_Z 24) by lia. by rewrite <- Zle_Qle.
Qed.

Lemma value_lower (q : Q) :
  (0 < q)%Q -> -126 <= Float32.ilog2 q -> (Float32.pow2 (Float32.ilog2 q) <= Float32.value q)%Q.
Proof.
  intros Hq He. destruct (signif_bounds q Hq) as (_ & Hs & _). specialize (Hs He).
  unfold Float32.value. unfold Float32.signif, Float32.expo in *. set (e := Float32.ilog2 q) in *.
  rewrite Z.max_l in * by lia.
  replace e with (23 + (e - 23)) at 1 by lia. rewrite pow2_add.
  apply Qmult_le_compat_r; [|apply Qlt_le_weak, pow2_pos].
  rewrite pow2_Z by lia. by rewrite <- Zle_Qle.
Qed.

Lemma value_mono (q q' : Q) : (0 < q)%Q -> (q <= q')%Q -> (Float32.value q <= Float32.value q')%Q.
Proof.
  intros Hq Hle.
  assert (0 < q')%Q as Hq' by (eapply Qlt_le_trans; done).
  pose proof (ilog2_mono q q' Hq Hle) as He.
  destruct (decide (Float32.expo q = Float32.expo q')) as [E|E].
  - unfold Float32.value, Float32.signif. rewrite <- E.
    apply Qmult_le_compat_r; [|apply Qlt_le_weak, pow2_pos].
    rewrite <- Zle_Qle. apply round_half_even_mono. by apply Qdiv_pow2_le.
  - unfold Float32.expo in E.
    assert (Float32.ilog2 q < Float32.ilog2 q' /\ -126 < Float32.ilog2 q') as [H1 H2] by lia.
    eapply Qle_trans; [apply (value_upper q Hq)|].
    eapply Qle_trans; [|apply (value_lower q' Hq'); lia].
    apply pow2_le. lia.
Qed.

Lemma value_comp (q q' : Q) : (0 < q)%Q -> (q == q')%Q -> (Float32.value q == Float32.value q')%Q.
Proof.
  intros Hq E. unfold Float32.value, Float32.signif, Float32.expo.
  rewrite <- (ilog2_comp q q' Hq E).
  set (p := Float32.pow2 _).
  assert (q / p == q' / p)%Q as E' by (rewrite E; reflexivity).
  rewrite (round_half_even_comp _ _ E'). reflexivity.
Qed.

End Rounding.

Section RoundFacts.

Lemma round_zero (q : Q) : (q == 0)%Q -> Float32.round q = Float32.Fin 0.
Proof. intros E. unfold Float32.round. by rewrite (proj1 (Qeq_alt q 0) E). Qed.

Lemma round_positive (q : Q) : (0 < q)%Q -> Float32.round q = Float32.round_pos q.
Proof. intros H. unfold Float32.round. by rewrite (proj1 (Qgt_alt q 0) H). Qed.

Lemma round_pos_le (q q' : Q) :
  (0 < q)%Q -> (q <= q')%Q ->
  Float32.le (Float32.round_pos q) (Float32.round_pos q').
Proof.
  intros Hq Hle. pose proof (value_mono q q' Hq Hle) as Hv.
  rewrite !round_pos_value.
  destruct (Qle_bool (Float32.pow2 128) (Float32.value q)) eqn:E1;
    destruct (Qle_bool (Float32.pow2 128) (Float32.value q')) eqn:E2; simpl; try done.
  - by right.
  - apply Qle_bool_iff in E1.
    assert (Float32.pow2 128 <= Float32.value q')%Q as C by (eapply Qle_trans; done).
    apply Qle_bool_iff in C. congruence.
  - by rewrite !Qred_correct.
Qed.

Lemma round_pos_nonneg (q : Q) :
  (0 < q)%Q -> Float32.le (Float32.Fin 0) (Float32.round_pos q).
Proof.
  intros Hq. rewrite round_pos_value.
  destruct (Qle_bool (Float32.pow2 128) (Float32.value q)); simpl; [done|].
  rewrite Qred_correct. by apply value_nonneg.
Qed.

Lemma round_pos_comp (q q' : Q) :
  (0 < q)%Q -> (q == q')%Q -> Float32.round_pos q = Float32.round_pos q'.
Proof.
  intros Hq E. pose proof (value_comp q q' Hq E) as Hv. rewrite !round_pos_value.
  rewrite (Qred_complete _ _ Hv).
  destruct (Qle_bool (Float32.pow2 128) (Float32.value q)) eqn:E1;
    destruct (Qle_bool (Float32.pow2 128) (Float32.value q')) eqn:E2; try done.
  - apply Qle_bool_iff in E1. rewrite Hv in E1. apply Qle_bool_iff in E1. congruence.
  - apply Qle_bool_iff in E2. rewrite <- Hv in E2. apply Qle_bool_iff in E2. congruence.
Qed.

(** Rounding only depends on the number, not on the fraction that
    stands for it. *)
Lemma round_comp (q q' : Q) : (q == q')%Q -> Float32.round q = Float32.round q'.
Proof.
  intros E. unfold Float32.round.
  assert ((q ?= 0) = (q' ?= 0))%Q as -> by (by rewrite E).
  destruct (q' ?= 0)%Q eqn:C; [done| |].
  - f_equal. apply round_pos_comp; [|by rewrite E].
    apply Qlt_alt in C. lra.
  - apply round_pos_comp; [|done]. apply Qgt_alt in C. lra.
Qed.

(** Rounding is monotone. *)
Lemma round_mono (q q' : Q) :
  (0 <= q)%Q -> (q <= q')%Q -> Float32.le (Float32.round q) (Float32.round q').
Proof.
  intros Hq Hle. destruct (Qle_lt_or_eq _ _ Hq) as [Hpos|Hz].
  - rewrite (round_positive q Hpos).
    rewrite (round_positive q') by (eapply Qlt_le_trans; done).
    by apply round_pos_le.
  - rewrite (round_zero q) by (by symmetry).
    destruct (Qle_lt_or_eq 0 q') as [Hpos'|Hz'].
    + lra.
    + rewrite (round_positive q' Hpos'). by apply round_pos_nonneg.
    + rewrite (round_zero q') by (by symmetry). simpl. lra.
Qed.

(** A number [n * 2^k] with a significand of at most 24 bits and an
    exponent in the range of the format is a value of the format. *)
Lemma value_exact (q : Q) (n k : Z) :
  0 < n < 2 ^ 24 -> -149 <= k -> (q == inject_Z n * Float32.pow2 k)%Q ->
  (Float32.value q == q)%Q.
Proof.
  intros Hn Hk E.
  assert (0 < q)%Q as Hq.
  { rewrite E. apply Qmult_lt_0_compat; [|apply pow2_pos].
    change 0%Q with (inject_Z 0). rewrite <- Zlt_Qlt. lia. }
  destruct (ilog2_spec q Hq) as [G1 G2].
  assert (Float32.expo q <= k) as HE.
  { unfold Float32.expo.
    destruct (Z.max_spec (Float32.ilog2 q) (-126)) as [[Hlt ->]|[Hge ->]]; [lia|].
    assert (Float32.ilog2 q < 24 + k); [|lia].
    apply pow2_lt_inv. eapply Qle_lt_trans; [apply G1|]. rewrite E, pow2_add.
    apply Qmult_lt_compat_r; [apply pow2_pos|].
    rewrite pow2_Z by lia. rewrite <- Zlt_Qlt. lia. }
  unfold Float32.value, Float32.signif. set (e := Float32.expo q) in *.
  assert (q / Float32.pow2 e == inject_Z (n * 2 ^ (k - e)))%Q as Hx.
  { rewrite E, inject_Z_mult, <- pow2_Z by lia. rewrite pow2_sub.
    pose proof (pow2_pos e). field. intros C. rewrite C in H. by apply Qlt_irrefl in H. }
  rewrite (round_half_even_Z _ _ Hx), <- Hx. apply Qdiv_pow2.
Qed.

Lemma round_exact (q : Q) (n k : Z) :
  0 <= n <= 2 ^ 24 -> -149 <= k -> (q == inject_Z n * Float32.pow2 k)%Q ->
  (q < Float32.pow2 128)%Q ->
  Float32.round q = Float32.Fin (Qred q).
Proof.
  intros Hn Hk E Hlt.
  destruct (decide (n = 0)) as [->|Hn0].
  { assert (q == 0)%Q as Hz by (rewrite E; ring).
    rewrite (round_zero q Hz). f_equal. symmetry. apply (Qred_complete q 0 Hz). }
  assert (0 < q)%Q as Hq.
  { rewrite E. apply Qmult_lt_0_compat; [|apply pow2_pos].
    change 0%Q with (inject_Z 0). rewrite <- Zlt_Qlt. lia. }
  assert (Float32.value q == q)%Q as Hv.
  { destruct (decide (n = 2 ^ 24)) as [->|Hn1].
    - apply (value_exact q 1 (24 + k)); [lia|lia|].
      rewrite E, pow2_add, (pow2_Z 24) by lia. ring.
    - apply (value_exact q n k); [lia|done|done]. }
  rewrite (round_positive q Hq), round_pos_value.
  destruct (Qle_bool (Float32.pow2 128) (Float32.value q)) eqn:C.
  - apply Qle_bool_iff in C. rewrite Hv in C. lra.
  - f_equal. by apply Qred_complete.
Qed.

(** A value of the format is rounded to itself. *)
Lemma round_idem (q v : Q) :
  (0 <= q)%Q -> Float32.round q = Float32.Fin v -> Float32.round v = Float32.Fin v.
Proof.
  intros Hq Hr. destruct (Qle_lt_or_eq _ _ Hq) as [Hpos|Hz].
  - rewrite (round_positive q Hpos), round_pos_value in Hr.
    destruct (Qle_bool (Float32.pow2 128) (Float32.value q)) eqn:C; [done|].
    injection Hr as <-.
    destruct (signif_bounds q Hpos) as [Hs _].
    rewrite (round_exact _ (Float32.signif q) (Float32.expo q)).
    + f_equal. apply Qred_complete, Qred_correct.
    + done.
    + unfold Float32.expo. lia.
    + apply Qred_correct.
    + rewrite Qred_correct.
      apply Qnot_le_lt. intros C'. apply Qle_bool_iff in C'. congruence.
  - rewrite (round_zero q) in Hr by (by symmetry). injection Hr as <-.
    by apply round_zero.
Qed.

Lemma round_nonneg (q v : Q) :
  (0 <= q)%Q -> Float32.round q = Float32.Fin v -> (0 <= v)%Q.
Proof.
  intros Hq Hr. pose proof (round_mono 0 q (Qle_refl 0) Hq) as M.
  rewrite (round_zero 0), Hr in M by done. done.
Qed.

(** Rounding keeps a number between two values of the format. *)
Lemma round_between (q lo hi : Q) :
  (0 <= lo)%Q -> Float32.round lo = Float32.Fin lo ->
  (0 <= hi)%Q -> Float32.round hi = Float32.Fin hi ->
  (lo <= q <= hi)%Q ->
  exists v, Float32.round q = Float32.Fin v /\ (lo <= v <= hi)%Q.
Proof.
  intros Hlo Rlo Hhi Rhi [H1 H2].
  pose proof (round_mono lo q Hlo H1) as M1.
  pose proof (round_mono q hi ltac:(lra) H2) as M2.
  rewrite Rlo in M1. rewrite Rhi in M2.
  destruct (Float32.round q) as [v|s|]; simpl in *; [|congruence|done].
  exists v. split; [done|]. lra.
Qed.

(** The error of rounding a number of the normal range is at most
    [2^-24] of it. *)
Lemma value_error (q : Q) :
  (Float32.pow2 (-126) <= q)%Q ->
  (q - q * Float32.pow2 (-24) <= Float32.value q <= q + q * Float32.pow2 (-24))%Q.
Proof.
  intros Hn.
  assert (0 < q)%Q as Hq by (eapply Qlt_le_trans; [apply (pow2_pos (-126))|done]).
  destruct (ilog2_spec q Hq) as [G1 G2].
  assert (-126 <= Float32.ilog2 q) as He.
  { assert (-126 < Float32.ilog2 q + 1); [|lia]. apply pow2_lt_inv.
    eapply Qle_lt_trans; done. }
  unfold Float32.value, Float32.signif, Float32.expo. rewrite Z.max_l by lia.
  set (e := Float32.ilog2 q) in *. set (x := (q / Float32.pow2 (e - 23))%Q).
  pose proof (round_half_even_err x) as [E1 E2].
  pose proof (Qdiv_pow2 q (e - 23)) as Hx. fold x in Hx.
  pose proof (pow2_pos (e - 23)) as Hp.
  assert (Float32.pow2 (e - 23) * (1 # 2) <= q * Float32.pow2 (-24))%Q as Hulp.
  { assert (Float32.pow2 (e - 23) * (1 # 2)
            == Float32.pow2 e * Float32.pow2 (-24))%Q as ->.
    { replace (e - 23) with (e + (-23)) by lia. rewrite pow2_add.
      change (Float32.pow2 (-23)) with (1 # 8388608)%Q.
      change (Float32.pow2 (-24)) with (1 # 16777216)%Q.
      ring. }
    apply Qmult_le_compat_r; [done|]. apply Qlt_le_weak, pow2_pos. }
  set (m := inject_Z (Float32.round_half_even x)) in *.
  set (p := Float32.pow2 (e - 23)) in *.
  split; nra.
Qed.

Lemma round_error (q : Q) :
  (Float32.pow2 (-126) <= q)%Q -> (q < Float32.pow2 127)%Q ->
  exists v, Float32.round q = Float32.Fin v /\
            (q - q * Float32.pow2 (-24) <= v <= q + q * Float32.pow2 (-24))%Q.
Proof.
  intros Hn Hlt.
  assert (0 < q)%Q as Hq by (eapply Qlt_le_trans; [apply (pow2_pos (-126))|done]).
  pose proof (value_error q Hn) as Herr.
  exists (Qred (Float32.value q)). split; [|by rewrite Qred_correct].
  rewrite (round_positive q Hq), round_pos_value.
  destruct (Qle_bool (Float32.pow2 128) (Float32.value q)) eqn:C; [|done].
  apply Qle_bool_iff in C.
  change (Float32.pow2 128) with (2 * Float32.pow2 127)%Q in C.
  change (Float32.pow2 (-24)) with (1 # 16777216)%Q in Herr. lra.
Qed.

(** On these numbers [round] and the operations agree with the IEEE 754
    specification of the standard library: a quotient and a product, the
    Python number [0.3], a number that underflows to 0, a tie between two
    subnormal numbers, and the two sides of the overflow threshold. *)
Lemma round_agrees_with_SpecFloat :
  let spec_div := SpecFloat.SFdiv 24 128 in
  let spec_mul := SpecFloat.SFmul 24 128 in
  let spec_round := fun m e => SpecFloat.binary_normalize 24 128 m e false in
  Float32.of_spec (spec_div (Float32.spec_of_Z 7) (Float32.spec_of_Z 46))
  = Float32.div (Float32.of_Z 7) (Float32.of_Z 46) /\
  Float32.of_spec
    (spec_mul (spec_div (Float32.spec_of_Z 7) (Float32.spec_of_Z 46))
       (Float32.spec_of_Z 23))
  = Float32.mul (Float32.div (Float32.of_Z 7) (Float32.of_Z 46)) (Float32.of_Z 23) /\
  Float32.of_spec (spec_div (Float32.spec_of_Z 0) (Float32.spec_of_Z 0))
  = Float32.div (Float32.of_Z 0) (Float32.of_Z 0) /\
  Float32.of_spec (spec_div (Float32.spec_of_Z 2) (Float32.spec_of_Z 0))
  = Float32.div (Float32.of_Z 2) (Float32.of_Z 0) /\
  Float32.of_spec (spec_round 5404319552844595 (-54))
  = Float32.round (5404319552844595 # 18014398509481984) /\
  Float32.of_spec (spec_round 1 (-200)) = Float32.round (Float32.pow2 (-200)) /\
  Float32.of_spec (spec_round 3 (-150)) = Float32.round (3 * Float32.pow2 (-150)) /\
  Float32.of_spec (spec_round (2 ^ 25 - 3) 103)
  = Float32.round (inject_Z (2 ^ 25 - 3) * Float32.pow2 103) /\
  Float32.of_spec (spec_round (2 ^ 25 - 1) 103)
  = Float32.round (inject_Z (2 ^ 25 - 1) * Float32.pow2 103).
Proof. cbv zeta. repeat split; vm_compute; reflexivity. Qed.

End RoundFacts.

(** ** The skeleton, row by row *)

Section SkeletonFacts.
Import Torch.
Variable d : Dictionary.

Lemma row_length (M len : Z) : length (Skeleton.row d M len) = Z.to_nat M.
Proof. unfold Skeleton.row. by rewrite length_fmap, length_seq. Qed.

Lemma row_lookup (M len : Z) (c : nat) :
  (c < Z.to_nat M)%nat ->
  Skeleton.row d M len !! c = Some (Skeleton.row_at d len c).
Proof.
  intros Hc. unfold Skeleton.row.
  rewrite list_lookup_fmap, lookup_seq_lt by done. done.
Qed.

Lemma mapM_fmap_all_Some {A B C} (f : B -> option C) (g : A -> B) (h : A -> C)
    (l : list A) :
  Forall (fun x => f (g x) = Some (h x)) l -> mapM f (g <$> l) = Some (h <$> l).
Proof.
  intros H. apply mapM_Some. apply Forall2_fmap.
  by apply Forall_Forall2_diag.
Qed.

(** One row of the pipeline of [Skeleton.fill]. *)
Lemma fill_one_row (M len : Z) :
  2 <= len <= M -> M < 2 ^ 63 ->
  scatter1
    (<[0%nat := bos d]>
       (masked_fill (replicate (Z.to_nat M) (pad d))
          ((fun i => i <? len) <$> (Z.of_nat <$> seq 0 (Z.to_nat M))) (unk d)))
    (wrap64 (len - 1)) (eos d)
  = Some (Skeleton.row d M len).
Proof.
  intros Hlen HM.
  rewrite wrap64_id by (unfold in_int64; lia).
  unfold scatter1, masked_fill.
  rewrite length_insert, length_zip_with, length_replicate, !length_fmap, length_seq.
  rewrite bool_decide_eq_true_2 by lia.
  f_equal. apply list_eq. intros c.
  destruct (decide (c < Z.to_nat M)%nat) as [Hc|Hc].
  - rewrite row_lookup by done. unfold Skeleton.row_at.
    case_bool_decide as H1.
    + replace c with (Z.to_nat (len - 1)) by lia.
      apply list_lookup_insert_eq.
      rewrite length_insert, length_zip_with, length_replicate, !length_fmap, length_seq.
      lia.
    + rewrite list_lookup_insert_ne by lia.
      case_bool_decide as H2.
      * subst c. apply list_lookup_insert_eq.
        rewrite length_zip_with, length_replicate, !length_fmap, length_seq. lia.
      * rewrite list_lookup_insert_ne by lia.
        rewrite lookup_zip_with, lookup_replicate_2 by done. simpl.
        rewrite !list_lookup_fmap, lookup_seq_lt by done. simpl.
        case_bool_decide; [rewrite (proj2 (Z.ltb_lt _ _)) by lia
                          |rewrite (proj2 (Z.ltb_ge _ _)) by lia]; done.
  - rewrite !lookup_ge_None_2; [done| |].
    + rewrite row_length. lia.
    + rewrite !length_insert, length_zip_with, length_replicate, !length_fmap, length_seq.
      lia.
Qed.

Lemma fill_rows (length_tgt : list Z) (M : Z) :
  tensor_max length_tgt = Some M ->
  Forall (fun len => 2 <= len <= M) length_tgt ->
  M < 2 ^ 63 ->
  Skeleton.fill d length_tgt = Some (Skeleton.row d M <$> length_tgt).
Proof.
  intros Hmax Hall HM. unfold Skeleton.fill. rewrite Hmax. csimpl.
  assert (2 <= M) as HM2.
  { destruct length_tgt as [|x l]; [done|]. inversion Hall; subst. lia. }
  unfold new_arange. rewrite bool_decide_eq_true_2 by lia. csimpl.
  rewrite zip_with_fmap_same.
  rewrite (mapM_fmap_all_Some _ _
             (fun len => <[0%nat := bos d]>
                (masked_fill (replicate (Z.to_nat M) (pad d))
                   ((fun i => i <? len) <$> (Z.of_nat <$> seq 0 (Z.to_nat M)))
                   (unk d)))); last first.
  { apply Forall_forall. intros len _. unfold setitem_col0, masked_fill.
    destruct (Z.to_nat M) as [|n] eqn:E; [lia|]. reflexivity. }
  csimpl. rewrite zip_with_fmap_same.
  apply mapM_fmap_all_Some.
  eapply Forall_impl; [exact Hall|]. intros len Hlen. simpl.
  by apply fill_one_row.
Qed.

End SkeletonFacts.

(** ** [initialize_output_tokens_by_src_tokens] *)

Section Initialize.
Import Torch.
Variable d : Dictionary.

Lemma sum1_ne_nonpad (t : list (list Z)) :
  sum1 (ne t (pad d)) = nonpad_count d <$> t.
Proof. unfold sum1, ne. by rewrite <- list_fmap_compose. Qed.

Lemma nonpad_count_bounds (row : list Z) :
  0 <= nonpad_count d row <= Z.of_nat (length row).
Proof.
  unfold nonpad_count.
  pose proof (sum_row_bounds ((fun x => negb (x =? pad d)) <$> row)) as H.
  by rewrite length_fmap in H.
Qed.

Lemma foldr_max_floor (l : list Z) (m : Z) : m <= foldr Z.max m l.
Proof. induction l as [|x l IH]; simpl; lia. Qed.

Lemma foldl_max_clamped (l : list Z) (a : Z) :
  2 <= a ->
  foldl Z.max a (clamp_min 2 <$> l) = Z.max a (foldr Z.max 2 l).
Proof.
  revert a. induction l as [|x l IH]; intros a Ha; csimpl; [lia|].
  rewrite IH by (unfold clamp_min; lia).
  pose proof (foldr_max_floor l 2). unfold clamp_min. lia.
Qed.

Lemma tensor_max_clamped (l : list Z) :
  l <> [] -> tensor_max (clamp_min 2 <$> l) = Some (foldr Z.max 2 l).
Proof.
  destruct l as [|x l]; [done|]. intros _. csimpl. f_equal.
  rewrite foldl_max_clamped by (unfold clamp_min; lia).
  pose proof (foldr_max_floor l 2). unfold clamp_min. lia.
Qed.

Lemma foldr_max_upper (l : list Z) (m : Z) :
  Forall (fun x => x <= foldr Z.max m l) l.
Proof.
  induction l as [|x l IH]; simpl; constructor; [lia|].
  eapply Forall_impl; [exact IH|]. simpl. intros; lia.
Qed.

Lemma special_distinct_ne :
  special_distinct d ->
  pad d <> bos d /\ pad d <> eos d /\ pad d <> unk d /\
  bos d <> eos d /\ bos d <> unk d /\ eos d <> unk d.
Proof.
  unfold special_distinct. intros H.
  inversion_clear H as [|? ? Hp H1]. inversion_clear H1 as [|? ? Hb H2].
  inversion_clear H2 as [|? ? He _].
  repeat split; intros E;
    [apply Hp|apply Hp|apply Hp|apply Hb|apply Hb|apply He];
    rewrite E; repeat constructor.
Qed.

(** The shape of a skeleton row of length [len] in a tensor of width
    [T], when the four special symbols differ. *)
Lemma row_columns (T len : Z) (r : list Z) :
  special_distinct d -> 2 <= len <= T ->
  r = Skeleton.row d T len ->
  length r = Z.to_nat T /\
  r !! 0%nat = Some (bos d) /\
  r !! Z.to_nat (len - 1) = Some (eos d) /\
  (forall c : nat, r !! c = Some (eos d) -> Z.of_nat c = len - 1) /\
  (forall c : nat, 0 < Z.of_nat c < len - 1 -> r !! c = Some (unk d)) /\
  (forall c : nat, len <= Z.of_nat c < T -> r !! c = Some (pad d)) /\
  (forall c : nat, Z.of_nat c < len -> r !! c <> Some (pad d)).
Proof.
  intros Hd Hlen ->.
  destruct (special_distinct_ne Hd) as (Hpb & Hpe & Hpu & Hbe & Hbu & Heu).
  split; [apply row_length|].
  repeat split.
  - rewrite row_lookup by lia. unfold Skeleton.row_at.
    rewrite bool_decide_eq_false_2 by lia. by rewrite bool_decide_eq_true_2.
  - rewrite row_lookup by lia. unfold Skeleton.row_at.
    by rewrite bool_decide_eq_true_2 by lia.
  - intros c Hc.
    assert (c < Z.to_nat T)%nat as Hlt.
    { apply lookup_lt_Some in Hc. by rewrite row_length in Hc. }
    rewrite row_lookup in Hc by done. unfold Skeleton.row_at in Hc.
    repeat case_bool_decide; try done; congruence.
  - intros c Hc. rewrite row_lookup by lia. unfold Skeleton.row_at.
    rewrite bool_decide_eq_false_2 by lia.
    rewrite bool_decide_eq_false_2 by lia.
    by rewrite bool_decide_eq_true_2 by lia.
  - intros c Hc. rewrite row_lookup by lia. unfold Skeleton.row_at.
    rewrite bool_decide_eq_false_2 by lia.
    rewrite bool_decide_eq_false_2 by lia.
    by rewrite bool_decide_eq_false_2 by lia.
  - intros c Hc. rewrite row_lookup by lia. unfold Skeleton.row_at.
    repeat case_bool_decide; try lia; congruence.
Qed.

(** C5.  Skeleton initialization from the source tokens.  Without
    copying, the result is a [B x T] tensor whose width [T] is the largest
    [count_nonpad(src_b) * scale], at least 2; row [b] has [bos] in column
    0, [eos] in column [target_len b - 1] and nowhere else, [unk] in the
    columns between, [pad] from column [target_len b] on and in no column
    before it, where [target_len b] is [count_nonpad(src_b) * scale]
    clamped below at 2.  With copying and a scale of at most 1 the source
    tokens come back unchanged.  The batch is not empty, the four special
    symbols differ and the products fit 64 bits. *)
Theorem initialize_by_src_tokens_skeleton
    (args : CtcSd.Args) (src_tokens : list (list Z)) :
  let k := CtcSd.src_upsample_scale args in
  let target_len := fun row => Z.max (nonpad_count d row * k) 2 in
  (CtcSd.copy_src_token args = false ->
   special_distinct d ->
   src_tokens <> [] ->
   in_int64 k ->
   Forall (fun row => in_int64 (nonpad_count d row * k)) src_tokens ->
   exists out T,
     CtcSd.initialize_output_tokens_by_src_tokens args d src_tokens = Some out /\
     T = foldr Z.max 2 ((fun row => nonpad_count d row * k) <$> src_tokens) /\
     length out = length src_tokens /\
     forall (b : nat) (row r : list Z),
       src_tokens !! b = Some row -> out !! b = Some r ->
       length r = Z.to_nat T /\
       r !! 0%nat = Some (bos d) /\
       r !! Z.to_nat (target_len row - 1) = Some (eos d) /\
       (forall c : nat, r !! c = Some (eos d) -> Z.of_nat c = target_len row - 1) /\
       (forall c : nat, 0 < Z.of_nat c < target_len row - 1 -> r !! c = Some (unk d)) /\
       (forall c : nat, target_len row <= Z.of_nat c < T -> r !! c = Some (pad d)) /\
       (forall c : nat, Z.of_nat c < target_len row -> r !! c <> Some (pad d)))
  /\
  (CtcSd.copy_src_token args = true -> k <= 1 ->
   CtcSd.initialize_output_tokens_by_src_tokens args d src_tokens = Some src_tokens).
Proof.
  intros k target_len. split.
  - intros Hcopy Hd Hne Hk Hprod.
    set (prods := (fun row => nonpad_count d row * k) <$> src_tokens).
    set (T := foldr Z.max 2 prods).
    assert (CtcSd.initialize_output_tokens_by_src_tokens args d src_tokens
            = Some (Skeleton.row d T <$> (clamp_min 2 <$> prods))) as Hrun.
    { unfold CtcSd.initialize_output_tokens_by_src_tokens.
      rewrite Hcopy. simpl. rewrite sum1_ne_nonpad.
      assert (CtcSd.mul_scalar (nonpad_count d <$> src_tokens)
                (CtcSd.src_upsample_scale args) = Some prods) as ->.
      { unfold CtcSd.mul_scalar. rewrite bool_decide_eq_true_2 by done.
        f_equal. unfold prods. rewrite <- list_fmap_compose.
        apply Forall_fmap_ext_1. eapply Forall_impl; [exact Hprod|].
        intros row Hrow. simpl. by apply wrap64_id. }
      destruct (2 <? CtcSd.src_upsample_scale args); csimpl;
        (apply fill_rows;
         [apply tensor_max_clamped; unfold prods; by destruct src_tokens
         |apply Forall_fmap, Forall_forall; intros x Hx; simpl;
          pose proof (foldr_max_upper prods 2) as Hup;
          rewrite Forall_forall in Hup; specialize (Hup x Hx);
          pose proof (foldr_max_floor prods 2); unfold clamp_min, T; lia
         |]).
      all: assert (Forall (fun x => x < 2 ^ 63) prods) as Hlt
        by (unfold prods; apply Forall_fmap; eapply Forall_impl; [exact Hprod|];
            intros row Hrow; unfold in_int64 in Hrow; simpl; fold k; lia).
      all: unfold T; clear -Hlt; induction Hlt; simpl; lia. }
    exists (Skeleton.row d T <$> (clamp_min 2 <$> prods)), T.
    split; [exact Hrun|]. split; [done|]. split.
    { unfold prods. by rewrite !length_fmap. }
    intros b row r Hrow Hr.
    rewrite !list_lookup_fmap in Hr. unfold prods in Hr.
    rewrite list_lookup_fmap, Hrow in Hr. simpl in Hr.
    inversion Hr as [Hr']. clear Hr.
    apply row_columns; [done| |done].
    unfold clamp_min, target_len. split; [lia|].
    pose proof (foldr_max_upper prods 2) as Hup.
    rewrite Forall_forall in Hup.
    assert (nonpad_count d row * k ∈ prods) as Hin.
    { unfold prods. apply list_elem_of_fmap. exists row. split; [done|].
      by eapply list_elem_of_lookup_2. }
    specialize (Hup _ Hin). pose proof (foldr_max_floor prods 2).
    unfold T. lia.
  - intros Hcopy Hle.
    unfold CtcSd.initialize_output_tokens_by_src_tokens. rewrite Hcopy. simpl.
    fold k. by rewrite (proj2 (Z.leb_le _ _)) by lia.
Qed.

End Initialize.

Lemma initialize_by_src_tokens_skeleton_witness :
  exists out,
    CtcSd.initialize_output_tokens_by_src_tokens
      Examples.ctc_args Examples.dict Examples.src_batch = Some out /\
    length out = 2%nat.
Proof.
  destruct (initialize_by_src_tokens_skeleton Examples.dict Examples.ctc_args
              Examples.src_batch) as [H _].
  destruct (H eq_refl) as (out & T & Hrun & _ & Hlen & _).
  - apply (bool_decide_unpack _). vm_compute. exact I.
  - discriminate.
  - unfold Torch.in_int64. simpl. lia.
  - repeat constructor; vm_compute; congruence.
  - exists out. split; [exact Hrun|exact Hlen].
Defined.

(** ** [regenerate_length_beam] *)

Section LengthBeam.
Import Torch.
Variable d : Dictionary.

Lemma lookup_concat_fixed {A} (ls : list (list A)) (n b j : nat) :
  Forall (fun l => length l = n) ls -> (j < n)%nat ->
  concat ls !! (b * n + j)%nat = ls !! b ≫= (fun l => l !! j).
Proof.
  intros Hall Hj. revert b.
  induction Hall as [|l ls Hl _ IH]; intros b; [by destruct b|].
  destruct b as [|b]; simpl.
  - apply lookup_app_l. lia.
  - rewrite lookup_app_r by lia.
    replace (n + b * n + j - length l)%nat with (b * n + j)%nat by lia.
    apply IH.
Qed.

Lemma length_concat_fixed {A} (ls : list (list A)) (n : nat) :
  Forall (fun l => length l = n) ls -> length (concat ls) = (length ls * n)%nat.
Proof.
  induction 1 as [|l ls Hl _ IH]; simpl; [done|].
  rewrite length_app. lia.
Qed.

(** The lengths of the hypotheses, in closed form. *)
Lemma length_beam_closed (output_tokens : list (list Z)) (beam_size : Z) :
  0 < beam_size ->
  Forall (fun row => Z.of_nat (length row) + beam_size < 2 ^ 63) output_tokens ->
  CtcSd.length_beam d output_tokens beam_size
  = Some (concat
            ((fun row =>
                (fun j : nat =>
                   Z.max (nonpad_count d row + (Z.of_nat j - beam_size `div` 2)) 2)
                  <$> seq 0 (Z.to_nat beam_size))
               <$> output_tokens)).
Proof.
  intros Hb Hfit. unfold CtcSd.length_beam, new_arange.
  rewrite bool_decide_eq_true_2 by lia. csimpl. f_equal.
  rewrite sum1_ne_nonpad.
  induction Hfit as [|row rows Hrow _ IH]; [done|].
  csimpl. rewrite fmap_app. f_equal; [|exact IH].
  rewrite <- !list_fmap_compose. apply Forall_fmap_ext_1, Forall_forall.
  intros j Hj. apply elem_of_seq in Hj. simpl.
  pose proof (nonpad_count_bounds d row) as Hc.
  assert (0 <= beam_size `div` 2 <= beam_size) by (split; Z.div_mod_to_equations; lia).
  rewrite (wrap64_id (nonpad_count d row + Z.of_nat j))
    by (unfold in_int64; lia).
  rewrite wrap64_id by (unfold in_int64; lia).
  unfold clamp_min. f_equal. lia.
Qed.

(** C8 (amended).  [regenerate_length_beam] turns every example into
    [beam_size] hypotheses; hypothesis [j] of an example of non-pad length
    [l] has length [l + (j - beam_size // 2)] clamped below at 2, so the
    offsets run from [-(beam_size // 2)] to [beam_size - 1 - beam_size // 2]
    (for an odd beam that is [+(beam_size // 2)]), and its skeleton row
    carries [bos], [eos] at the last column of that length and [pad] from
    there on.  With a beam of 3 around length 6 the lengths are 5, 6, 7. *)
Theorem regenerate_length_beam_lengths
    (output_tokens : list (list Z)) (beam_size : Z) :
  special_distinct d ->
  output_tokens <> [] ->
  0 < beam_size ->
  Forall (fun row => Z.of_nat (length row) + beam_size < 2 ^ 63) output_tokens ->
  exists lens toks scores,
    CtcSd.length_beam d output_tokens beam_size = Some lens /\
    CtcSd.regenerate_length_beam d output_tokens beam_size = Some (toks, scores) /\
    length lens = (length output_tokens * Z.to_nat beam_size)%nat /\
    length toks = length lens /\
    (forall (b j : nat) (row : list Z),
        output_tokens !! b = Some row -> (j < Z.to_nat beam_size)%nat ->
        let offset := Z.of_nat j - beam_size `div` 2 in
        let len := Z.max (nonpad_count d row + offset) 2 in
        - (beam_size `div` 2) <= offset <= beam_size - 1 - beam_size `div` 2 /\
        lens !! (b * Z.to_nat beam_size + j)%nat = Some len /\
        exists r,
          toks !! (b * Z.to_nat beam_size + j)%nat = Some r /\
          r !! 0%nat = Some (bos d) /\
          r !! Z.to_nat (len - 1) = Some (eos d) /\
          (forall c : nat, (c < length r)%nat -> len <= Z.of_nat c ->
                           r !! c = Some (pad d)) /\
          (forall c : nat, Z.of_nat c < len -> r !! c <> Some (pad d))) /\
    (beam_size = 3 ->
     forall (b : nat) (row : list Z),
       output_tokens !! b = Some row -> nonpad_count d row = 6 ->
       lens !! (b * 3)%nat = Some 5 /\
       lens !! (b * 3 + 1)%nat = Some 6 /\
       lens !! (b * 3 + 2)%nat = Some 7).
Proof.
  intros Hd Hne Hb Hfit.
  pose proof (length_beam_closed output_tokens beam_size Hb Hfit) as Hlens.
  set (inner := fun row : list Z =>
                  (fun j : nat =>
                     Z.max (nonpad_count d row + (Z.of_nat j - beam_size `div` 2)) 2)
                    <$> seq 0 (Z.to_nat beam_size)) in Hlens.
  set (lens := concat (inner <$> output_tokens)) in Hlens.
  assert (Forall (fun l => length l = Z.to_nat beam_size) (inner <$> output_tokens))
    as Hinner.
  { apply Forall_fmap, Forall_forall. intros row _. unfold inner. simpl.
    by rewrite length_fmap, length_seq. }
  assert (length lens = (length output_tokens * Z.to_nat beam_size)%nat) as Hlen.
  { unfold lens. rewrite (length_concat_fixed _ _ Hinner). by rewrite length_fmap. }
  assert (forall (b j : nat) (row : list Z),
             output_tokens !! b = Some row -> (j < Z.to_nat beam_size)%nat ->
             lens !! (b * Z.to_nat beam_size + j)%nat
             = Some (Z.max (nonpad_count d row + (Z.of_nat j - beam_size `div` 2)) 2))
    as Hlook.
  { intros b j row Hrow Hj. unfold lens.
    rewrite (lookup_concat_fixed _ _ _ _ Hinner Hj).
    rewrite list_lookup_fmap, Hrow. simpl. unfold inner.
    by rewrite list_lookup_fmap, lookup_seq_lt. }
  assert (0 <= beam_size `div` 2 <= beam_size) as Hhalf
    by (split; Z.div_mod_to_equations; lia).
  assert (Forall (fun x => 2 <= x < 2 ^ 63) lens) as Hrange.
  { unfold lens. apply Forall_concat, Forall_fmap.
    eapply Forall_impl; [exact Hfit|]. intros row Hrow. simpl. unfold inner.
    apply Forall_fmap, Forall_forall. intros j Hj. apply elem_of_seq in Hj. simpl.
    pose proof (nonpad_count_bounds d row). cbv beta in Hrow. lia. }
  assert (lens <> []) as Hlens_ne.
  { intros E. rewrite E in Hlen. simpl in Hlen.
    destruct output_tokens; [done|]. simpl in Hlen. lia. }
  destruct (tensor_max_Some lens Hlens_ne) as (M & HM & HMin & HMup).
  rewrite Forall_forall in Hrange.
  pose proof (Hrange M HMin) as HMr.
  assert (Skeleton.fill d lens = Some (Skeleton.row d M <$> lens)) as Hfill.
  { apply fill_rows; [done| |lia].
    apply Forall_forall. intros x Hx. rewrite Forall_forall in HMup.
    specialize (Hrange x Hx). specialize (HMup x Hx). lia. }
  exists lens, (Skeleton.row d M <$> lens), (new_zeros (Skeleton.row d M <$> lens)).
  split; [exact Hlens|]. split.
  { unfold CtcSd.regenerate_length_beam. rewrite Hlens. csimpl.
    rewrite Hfill. done. }
  split; [exact Hlen|]. split; [by rewrite length_fmap|]. split.
  - intros b j row Hrow Hj offset len.
    split; [unfold offset; lia|]. split; [by apply Hlook|].
    exists (Skeleton.row d M len). split.
    { rewrite list_lookup_fmap, (Hlook b j row Hrow Hj). done. }
    assert (len ∈ lens) as Hin
      by (eapply list_elem_of_lookup_2; by apply (Hlook b j row)).
    rewrite Forall_forall in HMup.
    destruct (row_columns d M len (Skeleton.row d M len) Hd) as
      (Hw & H0 & He & _ & _ & Hpad & Hnopad);
      [specialize (Hrange _ Hin); specialize (HMup _ Hin); lia|done|].
    split; [exact H0|]. split; [exact He|]. split; [|exact Hnopad].
    intros c Hc Hge. apply Hpad. rewrite Hw in Hc. lia.
  - intros -> b row Hrow Hcount.
    pose proof (Hlook b 0%nat row Hrow ltac:(simpl; lia)) as H0.
    pose proof (Hlook b 1%nat row Hrow ltac:(simpl; lia)) as H1.
    pose proof (Hlook b 2%nat row Hrow ltac:(simpl; lia)) as H2.
    rewrite Hcount in H0, H1, H2.
    change (Z.to_nat 3) with 3%nat in H0, H1, H2.
    rewrite Nat.add_0_r in H0. done.
Qed.

End LengthBeam.

Lemma regenerate_length_beam_lengths_witness :
  exists lens,
    CtcSd.length_beam Examples.dict [[0; 3; 3; 3; 3; 2; 1]] 3 = Some lens /\
    lens !! 0%nat = Some 5 /\ lens !! 1%nat = Some 6 /\ lens !! 2%nat = Some 7.
Proof.
  destruct (regenerate_length_beam_lengths Examples.dict [[0; 3; 3; 3; 3; 2; 1]] 3)
    as (lens & toks & scores & Hlens & _ & _ & _ & _ & H3).
  - apply (bool_decide_unpack _). vm_compute. exact I.
  - discriminate.
  - lia.
  - repeat constructor.
  - exists lens. split; [exact Hlens|].
    apply (H3 eq_refl 0%nat [0; 3; 3; 3; 3; 2; 1]); reflexivity.
Defined.

(** C8, as stated: the offsets [-(beam_size // 2) ... +(beam_size // 2 - 1)]
    give only the lengths 5 and 6 for a beam of 3 around length 6, while the
    program produces 5, 6 and 7. *)
Lemma length_beam_spec_offsets_counterexample :
  CtcSd.length_beam Examples.dict [[0; 3; 3; 3; 3; 2; 1]] 3 = Some [5; 6; 7] /\
  CtcSd.spec_length_beam Examples.dict [[0; 3; 3; 3; 3; 2; 1]] 3 = [5; 6] /\
  CtcSd.length_beam Examples.dict [[0; 3; 3; 3; 3; 2; 1]] 3
  <> Some (CtcSd.spec_length_beam Examples.dict [[0; 3; 3; 3; 3; 2; 1]] 3).
Proof. repeat split; vm_compute; congruence. Qed.

(** ** Broadcasting tensors of one shape *)

Section Broadcast.
Import Torch.

Lemma expand_id {A} (l : list A) (n : nat) : length l = n -> expand l n = l.
Proof.
  intros H. unfold expand. destruct l as [|a [|b l]]; try done.
  simpl in H. by subst.
Qed.

Lemma broadcast1_same {A B} (x : list A) (y : list B) :
  length x = length y -> broadcast1 x y = Some (x, y).
Proof.
  intros H. unfold broadcast1, bdim.
  rewrite (decide_True (P := length x = length y)) by done. csimpl.
  by rewrite !expand_id.
Qed.

Lemma fmap_expand_id {A} (T : nat) (t : list (list A)) :
  Forall (fun r : list A => length r = T) t -> (fun r : list A => expand r T) <$> t = t.
Proof.
  induction 1 as [|r t Hr _ IH]; [done|]. csimpl. by rewrite IH, expand_id.
Qed.

Lemma has_shape_num_cols {A} (B T : nat) (r : list A) (t : list (list A)) :
  has_shape B T (r :: t) -> num_cols (r :: t) = T.
Proof. intros [_ H]. by inversion H. Qed.

Lemma broadcast2_same {A B} (n T : nat) (x : list (list A)) (y : list (list B)) :
  has_shape n T x -> has_shape n T y -> broadcast2 x y = Some (x, y).
Proof.
  intros Hx Hy. pose proof Hx as [Lx Fx]. pose proof Hy as [Ly Fy].
  unfold broadcast2, bdim.
  rewrite (decide_True (P := length x = length y)) by congruence. csimpl.
  destruct x as [|r x], y as [|r' y]; try (simpl in *; congruence).
  rewrite (has_shape_num_cols _ _ _ _ Hx), (has_shape_num_cols _ _ _ _ Hy).
  rewrite (decide_True (P := T = T)) by done. cbn [mbind option_bind].
  rewrite !fmap_expand_id by done. rewrite !expand_id; [done|..].
  - rewrite Ly. by rewrite <- Lx.
  - done.
Qed.

Lemma has_shape_lookup {A} (B T : nat) (t : list (list A)) (b : nat) (r : list A) :
  has_shape B T t -> t !! b = Some r -> length r = T.
Proof. intros [_ H] Hb. by apply (Forall_lookup_1 _ _ _ _ H Hb). Qed.

Lemma has_shape_zip_with {A B C} (f : A -> B -> C) (n T : nat)
    (x : list (list A)) (y : list (list B)) :
  has_shape n T x -> has_shape n T y -> has_shape n T (zip_with (zip_with f) x y).
Proof.
  intros [Lx Fx] [Ly Fy]. split.
  - rewrite length_zip_with. lia.
  - apply Forall_lookup. intros i r Hi.
    apply lookup_zip_with_Some in Hi as (a & b & -> & Ha & Hb).
    rewrite length_zip_with.
    rewrite (Forall_lookup_1 _ _ _ _ Fx Ha), (Forall_lookup_1 _ _ _ _ Fy Hb). lia.
Qed.

Lemma has_shape_fmap {A B} (f : A -> B) (n T : nat) (x : list (list A)) :
  has_shape n T x -> has_shape n T ((fun r : list A => f <$> r) <$> x).
Proof.
  intros [Lx Fx]. split; [by rewrite length_fmap|].
  apply Forall_fmap. eapply Forall_impl; [exact Fx|]. intros r Hr. simpl.
  by rewrite length_fmap.
Qed.

Lemma has_shape_masked_fill2 {A} (n T : nat) (x : list (list A))
    (m : list (list bool)) (v : A) :
  has_shape n T x -> has_shape n T m -> has_shape n T (masked_fill2 x m v).
Proof.
  intros [Lx Fx] [Lm Fm]. split.
  - unfold masked_fill2. rewrite length_zip_with. lia.
  - apply Forall_lookup. intros i r Hi. unfold masked_fill2 in Hi.
    apply lookup_zip_with_Some in Hi as (a & b & -> & Ha & Hb).
    unfold masked_fill. rewrite length_zip_with.
    rewrite (Forall_lookup_1 _ _ _ _ Fx Ha), (Forall_lookup_1 _ _ _ _ Fm Hb). lia.
Qed.

Lemma has_shape_keep_word_mask (n T : nat) (rand : list (list Q))
    (kp : list Float32.t) :
  has_shape n T rand -> length kp = n ->
  has_shape n T (GlatAnneal.keep_word_mask rand kp).
Proof.
  intros [Lr Fr] Lk. split.
  - unfold GlatAnneal.keep_word_mask. rewrite length_zip_with. lia.
  - apply Forall_lookup. intros i r Hi. unfold GlatAnneal.keep_word_mask in Hi.
    apply lookup_zip_with_Some in Hi as (a & b & -> & Ha & Hb).
    rewrite length_fmap. apply (Forall_lookup_1 _ _ _ _ Fr Ha).
Qed.

End Broadcast.

(** ** [float32] numbers of counts *)

Section Float32Counts.

Lemma round_upto (q hi : Q) :
  (0 <= hi)%Q -> Float32.round hi = Float32.Fin hi -> (0 <= q <= hi)%Q ->
  exists v, Float32.round q = Float32.Fin v /\ (0 <= v <= hi)%Q.
Proof.
  intros Hhi Rhi Hq. apply (round_between q 0 hi); try done.
Qed.

Lemma round_from (q lo v : Q) :
  (0 <= lo)%Q -> Float32.round lo = Float32.Fin lo -> (lo <= q)%Q ->
  Float32.round q = Float32.Fin v -> (lo <= v)%Q.
Proof.
  intros Hlo Rlo Hq Rq.
  pose proof (round_mono lo q Hlo Hq) as M. by rewrite Rlo, Rq in M.
Qed.

Lemma Qred_inject_Z (n : Z) : Qred (inject_Z n) = inject_Z n.
Proof.
  unfold Qred, inject_Z.
  pose proof (Z.ggcd_gcd n 1) as Hg.
  pose proof (Z.ggcd_correct_divisors n 1) as Hd.
  destruct (Z.ggcd n 1) as [g [a b]]. simpl in *.
  rewrite Z.gcd_1_r in Hg. subst g. destruct Hd as [Ha Hb].
  assert (a = n) as -> by lia. assert (b = 1) as -> by lia. reflexivity.
Qed.

(** An integer count is a [float32] number, the same number below
    [2^24]. *)
Lemma of_Z_count (n : Z) :
  0 <= n < 2 ^ 63 ->
  exists a, Float32.of_Z n = Float32.Fin a /\ (0 <= a)%Q /\
            (n = 0 -> a = 0%Q) /\ (1 <= n -> (1 <= a)%Q) /\
            (n < 2 ^ 24 -> a = inject_Z n).
Proof.
  intros Hn. unfold Float32.of_Z.
  destruct (decide (n = 0)) as [->|Hn0].
  { exists 0%Q. split; [reflexivity|]. split; [lra|]. split; [done|].
    split; [lia|]. intros _. reflexivity. }
  assert (1 <= inject_Z n <= inject_Z (2 ^ 63))%Q as Hq.
  { change 1%Q with (inject_Z 1). rewrite <- !Zle_Qle. lia. }
  destruct (round_between (inject_Z n) 1 (inject_Z (2 ^ 63)))
    as (a & Ra & Ha); [lra|reflexivity|discriminate|reflexivity|done|].
  exists a. split; [done|]. split; [lra|]. split; [done|]. split; [intros _; lra|].
  intros Hlt.
  rewrite (round_exact (inject_Z n) n 0) in Ra; [|lia|lia| |].
  - injection Ra as <-. apply Qred_inject_Z.
  - change (Float32.pow2 0) with 1%Q. ring.
  - eapply Qle_lt_trans; [apply (proj2 Hq)|]. reflexivity.
Qed.

End Float32Counts.

(** ** Glancing: the mask and the tokens *)

Section Glancing.
Import Torch.
Variable d : Dictionary.

Lemma at2_Some {A} (t : list (list A)) (b c : nat) (x : A) :
  at2 t b c = Some x <-> exists r, t !! b = Some r /\ r !! c = Some x.
Proof.
  unfold at2. destruct (t !! b) as [r|]; simpl.
  - split; [intros H; by exists r|intros (r' & [= <-] & H); done].
  - split; [done|intros (r' & [=] & _)].
Qed.

Lemma at2_masked_fill2 {A} (t : list (list A)) (mask : list (list bool)) (v x : A)
    (m : bool) (b c : nat) :
  at2 t b c = Some x -> at2 mask b c = Some m ->
  at2 (masked_fill2 t mask v) b c = Some (if m then v else x).
Proof.
  rewrite !at2_Some. intros (r & Hr & Hx) (mr & Hmr & Hm).
  exists (masked_fill r mr v). split.
  - unfold masked_fill2. by rewrite lookup_zip_with, Hr, Hmr.
  - unfold masked_fill. by rewrite lookup_zip_with, Hx, Hm.
Qed.

Lemma at2_invert (mask : list (list bool)) (m : bool) (b c : nat) :
  at2 mask b c = Some m -> at2 (invert mask) b c = Some (negb m).
Proof.
  rewrite !at2_Some. intros (mr & Hmr & Hm). exists (negb <$> mr). split.
  - unfold invert. by rewrite list_lookup_fmap, Hmr.
  - by rewrite list_lookup_fmap, Hm.
Qed.

Lemma at2_add2 (x y : list (list Z)) (a b' : Z) (b c : nat) :
  at2 x b c = Some a -> at2 y b c = Some b' -> at2 (add2 x y) b c = Some (a + b').
Proof.
  rewrite !at2_Some. intros (r & Hr & Ha) (r' & Hr' & Hb).
  exists (zip_with Z.add r r'). split.
  - unfold add2. by rewrite lookup_zip_with, Hr, Hr'.
  - by rewrite lookup_zip_with, Ha, Hb.
Qed.

Lemma at2_keep_word_mask (rand : list (list Q)) (kp : list Float32.t)
    (u : Q) (k : Float32.t) (b c : nat) :
  at2 rand b c = Some u -> kp !! b = Some k ->
  at2 (GlatAnneal.keep_word_mask rand kp) b c
  = Some (Float32.ltb (Float32.Fin u) k).
Proof.
  rewrite !at2_Some. intros (r & Hr & Hu) Hk.
  exists ((fun u => Float32.ltb (Float32.Fin u) k) <$> r). split.
  - unfold GlatAnneal.keep_word_mask. by rewrite lookup_zip_with, Hr, Hk.
  - by rewrite list_lookup_fmap, Hu.
Qed.

(** The tokens of the glancing block at one position, by the mask. *)
Lemma glat_tokens_at (prev_output_tokens tgt_tokens : list (list Z))
    (mask : list (list bool)) (b c : nat) (p g : Z) (m : bool) :
  at2 prev_output_tokens b c = Some p ->
  at2 tgt_tokens b c = Some g ->
  at2 mask b c = Some m ->
  at2 (GlatAnneal.glat_prev_output_tokens prev_output_tokens tgt_tokens mask) b c
  = Some (if m then g else p) /\
  at2 (GlatAnneal.glat_tgt_tokens d tgt_tokens mask) b c
  = Some (if m then pad d else g).
Proof.
  intros Hp Hg Hm. split.
  - unfold GlatAnneal.glat_prev_output_tokens.
    rewrite (at2_add2 _ _ (if m then 0 else p) (if negb m then 0 else g)).
    + f_equal. destruct m; simpl; lia.
    + by apply at2_masked_fill2.
    + apply at2_masked_fill2; [done|]. by apply at2_invert.
  - unfold GlatAnneal.glat_tgt_tokens. by apply at2_masked_fill2.
Qed.

End Glancing.

(** ** Glancing: the keep probability *)

Section KeepProb.
Import Torch.
Variable d : Dictionary.

Lemma sl_row_nonpad_count (trow : list Z) : GlatAnneal.sl_row d trow = nonpad_count d trow.
Proof. unfold GlatAnneal.sl_row, nonpad_count. by rewrite <- list_fmap_compose. Qed.

Lemma sn_row_bounds (prow trow : list Z) :
  0 <= GlatAnneal.sn_row d prow trow <= GlatAnneal.sl_row d trow.
Proof.
  unfold GlatAnneal.sn_row, GlatAnneal.sl_row. revert prow.
  induction trow as [|g trow IH]; intros [|p prow]; csimpl; try lia.
  - pose proof (sum_row_bounds (negb <$> ((fun x => x =? pad d) <$> trow))).
    destruct (negb (g =? pad d)); simpl; lia.
  - specialize (IH prow).
    destruct (p =? g), (negb (g =? pad d)); simpl; lia.
Qed.

Lemma sn_row_full (prow trow : list Z) :
  length prow = length trow ->
  GlatAnneal.sn_row d prow trow = GlatAnneal.sl_row d trow <->
  (forall (c : nat) (g : Z), trow !! c = Some g -> g <> pad d -> prow !! c = Some g).
Proof.
  unfold GlatAnneal.sn_row, GlatAnneal.sl_row. revert prow.
  induction trow as [|g trow IH]; intros [|p prow] Hlen; try done.
  simpl in Hlen. injection Hlen as Hlen. specialize (IH prow Hlen).
  pose proof (sn_row_bounds prow trow) as Hb. unfold GlatAnneal.sn_row, GlatAnneal.sl_row in Hb.
  csimpl.
  destruct (Z.eqb_spec g (pad d)) as [Hg|Hg]; simpl.
  - rewrite andb_false_r. simpl. rewrite IH. split.
    + intros H [|c] g' Hc Hne; simpl in *; [congruence|by apply H].
    + intros H c g' Hc Hne. by apply (H (S c)).
  - rewrite andb_true_r.
    destruct (Z.eqb_spec p g) as [->|Hpg]; simpl.
    + split.
      * intros H. assert (Heq : sum_row (zip_with andb (zip_with Z.eqb prow trow)
                                   (negb <$> ((fun x => x =? pad d) <$> trow)))
                           = sum_row (negb <$> ((fun x => x =? pad d) <$> trow)))
           by lia.
         pose proof (proj1 IH Heq) as Hall.
         intros [|c] g' Hc Hne; simpl in *; [congruence|].
         by apply Hall.
      * intros H. f_equal. apply (proj2 IH). intros c g' Hc Hne. by apply (H (S c)).
    + split; [lia|]. intros H. specialize (H 0%nat g eq_refl Hg).
      simpl in H. congruence.
Qed.

Lemma same_num_lookup (pred tgt : list (list Z)) (b : nat) (prow trow : list Z) :
  pred !! b = Some prow -> tgt !! b = Some trow ->
  GlatAnneal.same_num pred tgt (invert (eq tgt (pad d))) !! b
  = Some (GlatAnneal.sn_row d prow trow).
Proof.
  intros Hp Ht. unfold GlatAnneal.same_num, sum1, invert, eq.
  rewrite list_lookup_fmap, !lookup_zip_with, Hp, Ht. simpl.
  by rewrite !list_lookup_fmap, Ht.
Qed.

Lemma seq_lens_lookup (tgt : list (list Z)) (b : nat) (trow : list Z) :
  tgt !! b = Some trow ->
  sum1 (invert (eq tgt (pad d))) !! b = Some (GlatAnneal.sl_row d trow).
Proof.
  intros Ht. unfold sum1, invert, eq. by rewrite !list_lookup_fmap, Ht.
Qed.

Lemma ratio_bounds (a b : Q) :
  (0 <= a <= b)%Q -> (0 < b)%Q -> (0 <= a / b <= 1)%Q.
Proof.
  intros Ha Hb. split.
  - apply Qle_shift_div_l; [done|]. lra.
  - apply Qle_shift_div_r; [done|]. lra.
Qed.

(** The keep probability of one example, from its two counts. *)
Lemma keep_prob_entry (context_p : Q) (sl sn : Z) :
  (0 <= context_p <= 1)%Q -> 0 <= sn <= sl -> 0 < sl < 2 ^ 63 ->
  exists c k : Q,
    Float32.round context_p = Float32.Fin c /\ (0 <= c <= 1)%Q /\
    Float32.mul (Float32.div (Float32.of_Z (sl - sn)) (Float32.of_Z sl))
                (Float32.round context_p) = Float32.Fin k /\
    (0 <= k <= c)%Q /\
    (sn = sl -> (k == 0)%Q) /\
    (sl < 2 ^ 24 -> (Float32.pow2 (-125) <= c)%Q -> (k == 0)%Q -> sn = sl).
Proof.
  intros Hc Hsn Hsl.
  destruct (round_upto context_p 1) as (c & Rc & Hc1);
    [discriminate|reflexivity|done|].
  destruct (of_Z_count (sl - sn)) as (a & Ra & Ha0 & Haz & Ha1 & Hax); [lia|].
  destruct (of_Z_count sl) as (b & Rb & Hb0 & _ & Hb1 & Hbx); [lia|].
  specialize (Hb1 ltac:(lia)).
  assert (a <= b)%Q as Hab.
  { pose proof (round_mono (inject_Z (sl - sn)) (inject_Z sl)) as M.
    unfold Float32.of_Z in Ra, Rb. rewrite Ra, Rb in M. apply M.
    - change 0%Q with (inject_Z 0). rewrite <- Zle_Qle. lia.
    - rewrite <- Zle_Qle. lia. }
  assert ((b ?= 0)%Q = Gt) as Hbpos by (apply Qgt_alt; lra).
  pose proof (ratio_bounds a b (conj Ha0 Hab) ltac:(lra)) as Hr.
  destruct (round_upto (a / b) 1) as (r & Rr & Hr1);
    [discriminate|reflexivity|done|].
  pose proof (round_idem context_p c (proj1 Hc) Rc) as Rc'.
  destruct (round_upto (r * c) c) as (k & Rk & Hk); [lra|done| |].
  { split; [apply Qmult_le_0_compat; lra|].
    rewrite <- (Qmult_1_l c) at 2. apply Qmult_le_compat_r; lra. }
  exists c, k. split; [done|]. split; [done|]. split.
  { rewrite Ra, Rb, Rc. unfold Float32.div. rewrite Hbpos, Rr. exact Rk. }
  split; [lra|]. split.
  - intros ->. rewrite Z.sub_diag in Haz. specialize (Haz eq_refl). subst a.
    assert (0 / b == 0)%Q as Hz by (unfold Qdiv; ring).
    rewrite (round_zero _ Hz) in Rr. injection Rr as <-.
    assert (0 * c == 0)%Q as Hz' by ring.
    rewrite (round_zero _ Hz') in Rk. injection Rk as <-. reflexivity.
  - intros Hsmall Hcbig Hk0.
    destruct (decide (sn = sl)) as [|Hne]; [done|exfalso].
    specialize (Ha1 ltac:(lia)). specialize (Hbx Hsmall).
    assert (b <= inject_Z (2 ^ 24))%Q as Hb24 by (rewrite Hbx, <- Zle_Qle; lia).
    assert (Float32.pow2 (-24) <= a / b)%Q as Hlow.
    { apply Qle_shift_div_l; [lra|].
      change (Float32.pow2 (-24)) with (1 # 16777216)%Q.
      change (inject_Z (2 ^ 24)) with 16777216%Q in Hb24. lra. }
    pose proof (round_from (a / b) (Float32.pow2 (-24)) r
                  ltac:(discriminate) eq_refl Hlow Rr) as Hr24.
    assert (Float32.pow2 (-149) <= r * c)%Q as Hlow'.
    { change (Float32.pow2 (-149)) with (Float32.pow2 (-24) * Float32.pow2 (-125))%Q.
      pose proof (pow2_pos (-24)). pose proof (pow2_pos (-125)).
      apply Qle_trans with (r * Float32.pow2 (-125))%Q.
      - apply Qmult_le_compat_r; [done|lra].
      - apply Qmult_le_l; lra. }
    pose proof (round_from (r * c) (Float32.pow2 (-149)) k
                  ltac:(discriminate) eq_refl Hlow' Rk) as Hk149.
    pose proof (pow2_pos (-149)). lra.
Qed.

(** C6 (amended).  For an example with at least one non-pad target
    position and [context_p] in [0, 1], the keep probability is the
    [float32] number [(seq_len - same_num) / seq_len * c], where [c] is
    [context_p] rounded to [float32] and the quotient and the product are
    rounded too.  It lies in [0, c], and it is 0 whenever the noisy
    prediction matches the target at every non-pad position
    ([same_num = seq_len]); it is 0 only then when the example has fewer
    than [2^24] positions and [c] is at least [2^-125]. *)
Theorem keep_prob_range
    (pred_tokens tgt_tokens : list (list Z)) (context_p : Q) (b : nat)
    (prow trow : list Z) :
  (0 <= context_p <= 1)%Q ->
  pred_tokens !! b = Some prow ->
  tgt_tokens !! b = Some trow ->
  length prow = length trow ->
  0 < nonpad_count d trow < 2 ^ 63 ->
  let nonpad_positions := invert (eq tgt_tokens (pad d)) in
  let same := GlatAnneal.same_num pred_tokens tgt_tokens nonpad_positions in
  let seq_lens := sum1 nonpad_positions in
  exists (seq_len sn : Z) (c k : Q),
    seq_lens !! b = Some seq_len /\
    seq_len = nonpad_count d trow /\
    same !! b = Some sn /\
    0 <= sn <= seq_len /\
    Float32.round context_p = Float32.Fin c /\
    (0 <= c <= 1)%Q /\
    GlatAnneal.keep_prob context_p seq_lens same !! b = Some (Float32.Fin k) /\
    Float32.mul (Float32.div (Float32.of_Z (seq_len - sn)) (Float32.of_Z seq_len))
                (Float32.Fin c) = Float32.Fin k /\
    (0 <= k <= c)%Q /\
    (sn = seq_len <->
     forall (c : nat) (g : Z),
       trow !! c = Some g -> g <> pad d -> prow !! c = Some g) /\
    (sn = seq_len -> (k == 0)%Q) /\
    (seq_len < 2 ^ 24 -> (Float32.pow2 (-125) <= c)%Q -> (k == 0)%Q -> sn = seq_len).
Proof.
  intros Hc Hp Ht Hlen Hpos nonpad_positions same seq_lens.
  pose proof (sn_row_bounds prow trow) as Hb.
  rewrite <- sl_row_nonpad_count in Hpos.
  destruct (keep_prob_entry context_p (GlatAnneal.sl_row d trow)
              (GlatAnneal.sn_row d prow trow) Hc Hb Hpos)
    as (c & k & Rc & Hc1 & Hk & Hrange & Hzero & Honly).
  exists (GlatAnneal.sl_row d trow), (GlatAnneal.sn_row d prow trow), c, k.
  split; [by apply seq_lens_lookup|]. split; [apply sl_row_nonpad_count|].
  split; [by apply same_num_lookup|]. split; [exact Hb|].
  split; [exact Rc|]. split; [exact Hc1|]. split.
  { unfold GlatAnneal.keep_prob. rewrite lookup_zip_with.
    unfold seq_lens, same, nonpad_positions.
    rewrite (seq_lens_lookup _ _ _ Ht), (same_num_lookup _ _ _ _ _ Hp Ht). simpl.
    by rewrite Hk. }
  split; [by rewrite <- Rc|]. split; [exact Hrange|].
  split; [by apply sn_row_full|]. split; [exact Hzero|exact Honly].
Qed.

End KeepProb.

Lemma keep_prob_range_witness :
  exists c k : Q,
    Float32.round (1 # 2) = Float32.Fin c /\
    GlatAnneal.keep_prob (1 # 2)
      (Torch.sum1 (Torch.invert (Torch.eq Examples.tgt_tokens 1)))
      (GlatAnneal.same_num [[0; 12; 12; 2]] Examples.tgt_tokens
         (Torch.invert (Torch.eq Examples.tgt_tokens 1))) !! 0%nat
    = Some (Float32.Fin k) /\
    (0 <= k <= c)%Q.
Proof.
  destruct (keep_prob_range Examples.dict [[0; 12; 12; 2]] Examples.tgt_tokens
              (1 # 2)%Q 0 [0; 12; 12; 2] [0; 12; 11; 2])
    as (sl & sn & c & k & _ & _ & _ & _ & Hc & _ & Hk & _ & Hrange & _).
  - split; discriminate.
  - reflexivity.
  - reflexivity.
  - reflexivity.
  - vm_compute. split; reflexivity.
  - exists c, k. split; [exact Hc|]. split; [exact Hk|exact Hrange].
Defined.

(** C6, as stated.  The keep probability is not 0 exactly when all
    non-pad positions agree: in the example 3 of 4 positions agree and it
    is 0 with [context_p = 0], and also with the positive
    [context_p = 2^-200], which is 0 as a [float32] number.  It does not
    lie in [0, context_p] either: with the Python number [0.3] for
    [context_p] (the fraction below) and no position right it is the
    [float32] number next to 0.3, which is larger; and with 1 of 3
    positions right it is larger than [2/3 * context_p]. *)
Lemma keep_prob_counterexample :
  let nonpad_positions := Torch.invert (Torch.eq Examples.tgt_tokens 1) in
  let same := GlatAnneal.same_num [[0; 12; 12; 2]] Examples.tgt_tokens nonpad_positions in
  let seq_lens := Torch.sum1 nonpad_positions in
  let p03 := (5404319552844595 # 18014398509481984)%Q in
  GlatAnneal.argmax Examples.toy_net Examples.prev_tokens = [[0; 12; 12; 2]] /\
  same = [3] /\ seq_lens = [4] /\
  GlatAnneal.keep_prob 0 seq_lens same = [Float32.Fin 0] /\
  (0 < Float32.pow2 (-200))%Q /\
  GlatAnneal.keep_prob (Float32.pow2 (-200)) seq_lens same = [Float32.Fin 0] /\
  GlatAnneal.keep_prob p03 [4] [0] = [Float32.Fin (5033165 # 16777216)] /\
  (p03 < 5033165 # 16777216)%Q /\
  GlatAnneal.keep_prob p03 [3] [1] = [Float32.Fin (6710887 # 33554432)] /\
  ((2 # 3) * p03 < 6710887 # 33554432)%Q /\
  exists r,
    GlatAnneal.forward Examples.toy_net Examples.glat_args Examples.dict true
      Examples.prev_tokens (Some Examples.tgt_tokens) (Some Examples.glat_zero)
      None Examples.draws = Ok r /\
    GlatAnneal.decoder_input r = Examples.prev_tokens /\
    GlatAnneal.ret_tgt r = Examples.tgt_tokens.
Proof.
  cbv zeta. repeat (split; [vm_compute; reflexivity|]).
  eexists. split; [vm_compute; reflexivity|]. split; reflexivity.
Qed.

(** ** [forward] of the glancing variant in training mode *)

Section ForwardTraining.
Variable net : GlatAnneal.Network.
Variable args : GlatAnneal.Args.
Variable d : Dictionary.

(** C10 (amended).  In training mode, with a target given:
    - when [glat] is [None], empty, or has neither the key ["context_p"]
      nor the key ["schedule"], the call raises [UnboundLocalError] (a
      [NameError]) for [all_layer_weight];
    - when [glat] lacks ["context_p"] but has ["schedule"], the call
      raises [NotImplementedError] before it reaches the decoder;
    - so a call that returns was given a [glat] with ["context_p"]. *)
Theorem forward_training_needs_context_p
    (prev_output_tokens : list (list Z)) (tgt_tokens : list (list Z))
    (glat : option (gmap string Q)) (train_ratio : option Q)
    (rand : list (list Q)) :
  let run := GlatAnneal.forward net args d true prev_output_tokens
               (Some tgt_tokens) glat train_ratio rand in
  (glat = None \/
   (exists g, glat = Some g /\
              g !! "context_p"%string = None /\ g !! "schedule"%string = None) ->
   run = Raise (UnboundLocalError "all_layer_weight") /\
   is_NameError (UnboundLocalError "all_layer_weight") = true) /\
  (forall g, glat = Some g ->
             g !! "context_p"%string = None -> is_Some (g !! "schedule"%string) ->
             run = Raise NotImplementedError) /\
  (forall r, run = Ok r ->
             exists g, glat = Some g /\ is_Some (g !! "context_p"%string)).
Proof.
  intros run. unfold run, GlatAnneal.forward. csimpl.
  split; [|split].
  - intros [->|(g & -> & Hc & Hs)]; (split; [|done]).
    + reflexivity.
    + rewrite Hc, Hs. by case_bool_decide.
  - intros g -> Hc [v Hs].
    rewrite bool_decide_eq_false_2.
    + by rewrite Hc, Hs.
    + intros ->. by rewrite lookup_empty in Hs.
  - intros r Hrun. destruct glat as [g|]; [|done].
    exists g. split; [done|].
    destruct (g !! "context_p"%string) as [c|] eqn:Hc; [by eexists|].
    exfalso. case_bool_decide; [done|].
    by destruct (g !! "schedule"%string).
Qed.

End ForwardTraining.

(** C10, as stated: a [glat] that lacks ["context_p"] but carries
    ["schedule"] makes the training call raise [NotImplementedError], which
    is not a [NameError]. *)
Lemma forward_schedule_counterexample :
  Examples.glat_schedule !! "context_p"%string = None /\
  GlatAnneal.forward Examples.toy_net Examples.glat_args Examples.dict true
    Examples.prev_tokens (Some Examples.tgt_tokens) (Some Examples.glat_schedule)
    None Examples.draws = Raise NotImplementedError /\
  is_NameError NotImplementedError = false.
Proof. repeat split; vm_compute; reflexivity. Qed.

(** ** The decoder core: [extract_features] *)

Section ExtractFeatures.
Variable net : GlatAnneal.Network.
Variable args : GlatAnneal.Args.
Variable early_exit : option Z.
Variable feed_forward_weights : option (list (list GlatAnneal.weight)).
Variable decoder_padding_mask : list (list bool).

Lemma py_index_lt {A} (l : list A) (i : nat) :
  (i < length l)%nat -> exists a, l !! i = Some a /\ py_index l (Z.of_nat i) = Ok a.
Proof.
  intros Hi. destruct (lookup_lt_is_Some_2 l i Hi) as [a Ha].
  exists a. split; [done|]. unfold py_index. cbv zeta.
  destruct (Z.ltb_spec (Z.of_nat i) 0); [lia|].
  destruct (Z.ltb_spec (Z.of_nat i) 0); [lia|].
  by rewrite Nat2Z.id, Ha.
Qed.

Lemma layers_run_stop (e : Z) (i n : nat) :
  e <= Z.of_nat i -> GlatAnneal.layers_run (Some e) i n = 0%nat.
Proof. intros H. unfold GlatAnneal.layers_run. lia. Qed.

Lemma layers_run_step (i n : nat) :
  match early_exit with Some e => Z.of_nat i < e | None => True end ->
  GlatAnneal.layers_run early_exit i (S n)
  = S (GlatAnneal.layers_run early_exit (S i) n).
Proof. unfold GlatAnneal.layers_run. destruct early_exit; lia. Qed.

(** The loop, from layer [i] on: it returns, what it appends, and what
    every layer is handed. *)
Lemma run_layers_spec
    (ls : list (GlatAnneal.Hidden net -> list (list bool) -> GlatAnneal.Hidden net))
    (i : nat) (st : GlatAnneal.Features net) :
  let r := GlatAnneal.layers_run early_exit i (length ls) in
  match feed_forward_weights with
  | None => True
  | Some w => (i + r <= length w)%nat
  end ->
  exists st' xs nxs,
    GlatAnneal.run_layers net args early_exit feed_forward_weights
      decoder_padding_mask i ls st = Ok st' /\
    length xs = r /\ length nxs = r /\
    GlatAnneal.inner_states st' = GlatAnneal.inner_states st ++ xs /\
    GlatAnneal.layer_inputs st' = GlatAnneal.layer_inputs st ++ nxs /\
    GlatAnneal.x_out st' = default (GlatAnneal.x_out st) (last xs) /\
    GlatAnneal.all_layer_output_logits st'
    = GlatAnneal.all_layer_output_logits st
      ++ (GlatAnneal.output_layer net
            <$> (if (0 <? i)%nat then take r (GlatAnneal.x_out st :: xs)
                 else drop 1 (take r (GlatAnneal.x_out st :: xs)))) /\
    forall (j : nat) (x : GlatAnneal.Hidden net),
      (j < r)%nat -> (GlatAnneal.x_out st :: xs) !! j = Some x ->
      exists new_x layer,
        nxs !! j = Some new_x /\ ls !! j = Some layer /\
        xs !! j = Some (layer new_x decoder_padding_mask) /\
        GlatAnneal.is_blend net args feed_forward_weights (i + j) x new_x.
Proof.
  revert i st. induction ls as [|layer ls IH]; intros i st r Hw.
  - exists st, [], []. simpl.
    assert (r = 0%nat) as -> by (unfold r, GlatAnneal.layers_run; destruct early_exit; simpl; lia).
    rewrite ?app_nil_r.
    repeat split; try done; try (intros; lia);
      destruct (0 <? i)%nat; simpl; by rewrite app_nil_r.
  - simpl.
    destruct (match early_exit with Some e => e <=? Z.of_nat i | None => false end)
      eqn:Hstop.
    + exists st, [], [].
      assert (r = 0%nat) as ->.
      { unfold r. destruct early_exit as [e|]; [|done].
        apply layers_run_stop. lia. }
      rewrite ?app_nil_r.
      repeat split; try done; try (intros; lia);
        destruct (0 <? i)%nat; simpl; by rewrite app_nil_r.
    + assert (r = S (GlatAnneal.layers_run early_exit (S i) (length ls))) as Hr.
      { unfold r. simpl. apply layers_run_step.
        destruct early_exit as [e|]; [lia|done]. }
      set (r' := GlatAnneal.layers_run early_exit (S i) (length ls)) in *.
      set (x := GlatAnneal.x_out st).
      set (y_hat := GlatAnneal.y_hat_of net args (GlatAnneal.output_layer net x)).
      assert (exists new_x,
                 match feed_forward_weights with
                 | None => Ok (GlatAnneal.blend_even net x y_hat)
                 | Some w =>
                     p ← py_index w (Z.of_nat i);
                     Ok (GlatAnneal.blend_weighted net p x y_hat)
                 end = Ok new_x /\
                 GlatAnneal.is_blend net args feed_forward_weights i x new_x)
        as (new_x & Hnew & Hblend).
      { unfold GlatAnneal.is_blend. fold y_hat.
        destruct feed_forward_weights as [w|]; [|by eexists].
        destruct (py_index_lt w i ltac:(lia)) as (p & Hp & ->).
        eexists. split; [reflexivity|]. by exists p. }
      rewrite Hnew. csimpl.
      set (x' := layer new_x decoder_padding_mask).
      set (st1 := {| GlatAnneal.x_out := x' |}).
      destruct (IH (S i) st1)
        as (st' & xs & nxs & Hrun & Hxs & Hnxs & Hin & Hli & Hx & Hall & Hevery).
      { fold r'. destruct feed_forward_weights; [lia|done]. }
      fold r' in Hxs, Hnxs, Hall, Hevery.
      exists st', (x' :: xs), (new_x :: nxs).
      split; [exact Hrun|]. rewrite Hr.
      split; [simpl; lia|]. split; [simpl; lia|].
      split; [rewrite Hin; simpl; by rewrite <- app_assoc|].
      split; [rewrite Hli; simpl; by rewrite <- app_assoc|].
      split.
      { rewrite Hx. destruct xs as [|x1 xs1]; [done|].
        rewrite last_cons_cons.
        destruct (last (x1 :: xs1)) eqn:E; [done|].
        by apply last_None in E. }
      split.
      { rewrite Hall. simpl.
        destruct i as [|i]; simpl.
        * by rewrite drop_0.
        * by rewrite <- app_assoc. }
      intros [|j] x1 Hj Hx1.
      * simpl in Hx1. injection Hx1 as <-. exists new_x, layer.
        rewrite Nat.add_0_r. by repeat split.
      * simpl in Hx1.
        destruct (Hevery j x1 ltac:(lia) Hx1) as (nx & ly & H1 & H2 & H3 & H4).
        exists nx, ly. replace (i + S j)%nat with (S i + j)%nat by lia.
        by repeat split.
Qed.

End ExtractFeatures.

Section DecoderCore.
Variable net : GlatAnneal.Network.
Variable args : GlatAnneal.Args.
Variable d : Dictionary.

Lemma snoc_last {A} (xs : list A) (x0 : A) (r : nat) :
  length xs = S r -> drop 1 (take (S r) (x0 :: xs)) ++ [default x0 (last xs)] = xs.
Proof.
  intros Hlen. simpl. rewrite drop_0.
  destruct (exists_last (l := xs)) as (ys & z & ->); [by destruct xs|].
  rewrite length_app in Hlen. simpl in Hlen.
  rewrite last_snoc. simpl.
  rewrite take_app_le by lia. rewrite take_ge by lia. done.
Qed.

(** Without [embedding_copy] the embedding is the one of the tokens. *)
Lemma embed_plain (prev_output_tokens : list (list Z)) :
  GlatAnneal.embed net d prev_output_tokens false
  = Ok (GlatAnneal.forward_embedding net prev_output_tokens None).
Proof. reflexivity. Qed.

(** A failing embedding is the failure of [extract_features]. *)
Lemma extract_features_embed_raise (prev_output_tokens : list (list Z))
    (early_exit : option Z) (embedding_copy : bool)
    (feed_forward_weights : option (list (list GlatAnneal.weight))) (e : exn) :
  GlatAnneal.embed net d prev_output_tokens embedding_copy = Raise e ->
  GlatAnneal.extract_features net args d prev_output_tokens early_exit
    embedding_copy feed_forward_weights = Raise e.
Proof. intros H. unfold GlatAnneal.extract_features. by rewrite H. Qed.

(** What [extract_features] returns when it runs at least one layer: one
    hidden state and one layer input per executed layer, and one logits
    entry per executed layer, computed from the output of that layer. *)
Lemma extract_features_spec (prev_output_tokens : list (list Z))
    (early_exit : option Z) (embedding_copy : bool)
    (feed_forward_weights : option (list (list GlatAnneal.weight)))
    (x0 : GlatAnneal.Hidden net) :
  let r := GlatAnneal.layers_run early_exit 0 (length (GlatAnneal.layers net)) in
  GlatAnneal.embed net d prev_output_tokens embedding_copy = Ok x0 ->
  (1 <= r)%nat ->
  match feed_forward_weights with
  | None => True
  | Some w => (r <= length w)%nat
  end ->
  exists f xs,
    GlatAnneal.extract_features net args d prev_output_tokens early_exit
      embedding_copy feed_forward_weights = Ok f /\
    length xs = r /\
    length (GlatAnneal.layer_inputs f) = r /\
    GlatAnneal.inner_states f = x0 :: xs /\
    GlatAnneal.all_layer_output_logits f = GlatAnneal.output_layer net <$> xs.
Proof.
  intros r Hemb Hr Hw. unfold GlatAnneal.extract_features. rewrite Hemb. csimpl.
  set (st0 := {| GlatAnneal.x_out := x0 |}).
  destruct (run_layers_spec net args early_exit feed_forward_weights
              (Torch.eq prev_output_tokens (pad d)) (GlatAnneal.layers net) 0 st0)
    as (st' & xs & nxs & Hrun & Hxs & Hnxs & Hin & Hli & Hx & Hall & _).
  { fold r. by destruct feed_forward_weights. }
  fold r in Hxs, Hnxs, Hall.
  rewrite Hrun. csimpl. eexists. exists xs.
  split; [reflexivity|]. simpl.
  split; [exact Hxs|]. split; [by rewrite Hli|]. split; [by rewrite Hin|].
  rewrite Hall, Hx. simpl.
  destruct r as [|r']; [lia|].
  rewrite <- (snoc_last xs x0 r' Hxs) at 3.
  by rewrite fmap_app.
Qed.

(** C4 (amended).  When the embedding of the input succeeds and
    [feed_forward_weights] is [None] or holds at least [e] weights, then
    for an early exit [e] between 1 and the number of decoder layers the
    decoder core runs [e] layers and returns a list of exactly [e] logits
    entries, one per executed layer and computed from the output of that
    layer: the number of layers run, not that number plus one.  Layer
    0's input gives no entry; the output of the last executed layer gives
    the trailing one. *)
Theorem extract_features_logits_count (prev_output_tokens : list (list Z))
    (e : Z) (embedding_copy : bool)
    (feed_forward_weights : option (list (list GlatAnneal.weight)))
    (x0 : GlatAnneal.Hidden net) :
  GlatAnneal.embed net d prev_output_tokens embedding_copy = Ok x0 ->
  1 <= e <= Z.of_nat (length (GlatAnneal.layers net)) ->
  match feed_forward_weights with
  | None => True
  | Some w => e <= Z.of_nat (length w)
  end ->
  exists f,
    GlatAnneal.extract_features net args d prev_output_tokens (Some e)
      embedding_copy feed_forward_weights = Ok f /\
    length (GlatAnneal.layer_inputs f) = Z.to_nat e /\
    length (GlatAnneal.inner_states f) = S (Z.to_nat e) /\
    length (GlatAnneal.all_layer_output_logits f) = Z.to_nat e /\
    GlatAnneal.all_layer_output_logits f
    = GlatAnneal.output_layer net <$> drop 1 (GlatAnneal.inner_states f).
Proof.
  intros Hemb He Hw.
  assert (GlatAnneal.layers_run (Some e) 0 (length (GlatAnneal.layers net))
          = Z.to_nat e) as Hr by (unfold GlatAnneal.layers_run; lia).
  destruct (extract_features_spec prev_output_tokens (Some e) embedding_copy
              feed_forward_weights x0 Hemb) as (f & xs & Hrun & Hxs & Hli & Hin & Hall).
  { rewrite Hr. lia. }
  { rewrite Hr. destruct feed_forward_weights; [lia|done]. }
  rewrite Hr in Hxs, Hli.
  exists f. split; [exact Hrun|]. split; [exact Hli|].
  split; [rewrite Hin; simpl; by rewrite Hxs|].
  split; [by rewrite Hall, length_fmap|].
  rewrite Hall, Hin. simpl. by rewrite drop_0.
Qed.

(** C2 (amended).  When the embedding of the input succeeds with a state
    [x0] and [feed_forward_weights] is [None] or holds a weight for every
    layer that runs, the blend is applied at every layer that runs, layer 0
    included: layer [i] is handed the blend of the state [x] before it with
    the feedback [y_hat] of [x] ([(x + y_hat) / sqrt(2)] without weights,
    the weighted blend with the weights of index [i] otherwise), never [x]
    itself, and the state after it is the output of the layer on that
    blend.  The state before layer 0 is [x0].  Only the recording of the
    logits is restricted to the layers [i > 0]. *)
Theorem every_layer_input_is_blended (prev_output_tokens : list (list Z))
    (early_exit : option Z) (embedding_copy : bool)
    (feed_forward_weights : option (list (list GlatAnneal.weight)))
    (x0 : GlatAnneal.Hidden net) :
  let r := GlatAnneal.layers_run early_exit 0 (length (GlatAnneal.layers net)) in
  GlatAnneal.embed net d prev_output_tokens embedding_copy = Ok x0 ->
  match feed_forward_weights with
  | None => True
  | Some w => (r <= length w)%nat
  end ->
  exists f,
    GlatAnneal.extract_features net args d prev_output_tokens early_exit
      embedding_copy feed_forward_weights = Ok f /\
    length (GlatAnneal.layer_inputs f) = r /\
    length (GlatAnneal.inner_states f) = S r /\
    GlatAnneal.inner_states f !! 0%nat = Some x0 /\
    forall i : nat,
      (i < r)%nat ->
      exists x new_x layer,
        GlatAnneal.inner_states f !! i = Some x /\
        GlatAnneal.layer_inputs f !! i = Some new_x /\
        GlatAnneal.layers net !! i = Some layer /\
        GlatAnneal.inner_states f !! S i
        = Some (layer new_x (Torch.eq prev_output_tokens (pad d))) /\
        GlatAnneal.is_blend net args feed_forward_weights i x new_x.
Proof.
  intros r Hemb Hw. unfold GlatAnneal.extract_features. rewrite Hemb. csimpl.
  set (st0 := {| GlatAnneal.x_out := x0 |}).
  destruct (run_layers_spec net args early_exit feed_forward_weights
              (Torch.eq prev_output_tokens (pad d)) (GlatAnneal.layers net) 0 st0)
    as (st' & xs & nxs & Hrun & Hxs & Hnxs & Hin & Hli & Hx & Hall & Hevery).
  { fold r. by destruct feed_forward_weights. }
  fold r in Hxs, Hnxs, Hall, Hevery.
  rewrite Hrun. csimpl. eexists. split; [reflexivity|]. simpl.
  rewrite Hin, Hli. simpl.
  split; [done|]. split; [by rewrite Hxs|]. split; [done|].
  intros i Hi.
  destruct (lookup_lt_is_Some_2 (x0 :: xs) i) as [x Hxi]; [simpl; lia|].
  destruct (Hevery i x Hi Hxi) as (new_x & layer & H1 & H2 & H3 & H4).
  exists x, new_x, layer. by repeat split.
Qed.

End DecoderCore.

Lemma extract_features_logits_count_witness :
  exists f,
    GlatAnneal.extract_features Examples.toy_net Examples.glat_args Examples.dict
      Examples.prev_tokens (Some 2) false None = Ok f /\
    length (GlatAnneal.all_layer_output_logits f) = 2%nat.
Proof.
  destruct (extract_features_logits_count Examples.toy_net Examples.glat_args
              Examples.dict Examples.prev_tokens 2 false None Examples.prev_tokens)
    as (f & Hrun & _ & _ & Hlen & _).
  - reflexivity.
  - simpl. lia.
  - exact I.
  - exists f. split; [exact Hrun|exact Hlen].
Defined.

(** C4, as stated: with two decoder layers and an early exit of 2 the core
    runs two layers and returns two logits entries, not three; with an early
    exit of 1 it runs one layer and returns one entry, not two. *)
Lemma logits_count_counterexample :
  exists f2 f1,
    GlatAnneal.extract_features Examples.toy_net Examples.glat_args Examples.dict
      Examples.prev_tokens (Some 2) false None = Ok f2 /\
    length (GlatAnneal.layer_inputs f2) = 2%nat /\
    length (GlatAnneal.all_layer_output_logits f2) = 2%nat /\
    length (GlatAnneal.all_layer_output_logits f2)
    <> (length (GlatAnneal.layer_inputs f2) + 1)%nat /\
    GlatAnneal.extract_features Examples.toy_net Examples.glat_args Examples.dict
      Examples.prev_tokens (Some 1) false None = Ok f1 /\
    length (GlatAnneal.layer_inputs f1) = 1%nat /\
    length (GlatAnneal.all_layer_output_logits f1) = 1%nat.
Proof.
  eexists. eexists. split; [vm_compute; reflexivity|].
  repeat split; try (vm_compute; reflexivity).
  vm_compute. lia.
Qed.

Lemma every_layer_input_is_blended_witness :
  exists f,
    GlatAnneal.extract_features Examples.real_net Examples.glat_args Examples.dict
      Examples.prev_tokens None false None = Ok f /\
    GlatAnneal.layer_inputs f !! 0%nat = Some ((1 + 1) / sqrt 2)%R /\
    exists x1 : R,
      GlatAnneal.inner_states f !! 1%nat = Some x1 /\
      GlatAnneal.layer_inputs f !! 1%nat = Some ((x1 + x1) / sqrt 2)%R.
Proof.
  destruct (every_layer_input_is_blended Examples.real_net Examples.glat_args
              Examples.dict Examples.prev_tokens None false None 1%R)
    as (f & Hrun & _ & _ & Hx0 & Hevery).
  - reflexivity.
  - exact I.
  - exists f. split; [exact Hrun|].
    destruct (Hevery 0%nat) as (x & new_x & layer & Hx & Hnx & _ & _ & Hb);
      [vm_compute; lia|].
    destruct (Hevery 1%nat) as (x1 & new_x1 & layer1 & Hx1 & Hnx1 & _ & _ & Hb1);
      [vm_compute; lia|].
    split.
    + etrans; [exact Hnx|]. f_equal. etrans; [exact Hb|].
      assert (x = 1%R) as -> by congruence. reflexivity.
    + exists x1. split; [exact Hx1|]. etrans; [exact Hnx1|]. f_equal. exact Hb1.
Defined.

(** C2, as stated: on the network over real numbers with embedded input
    [x = 1] and feedback [y_hat = 1], the hidden state handed to layer 0 is
    [(1 + 1) / sqrt 2], which is not [x]. *)
Lemma layer0_blend_counterexample :
  exists f,
    GlatAnneal.extract_features Examples.real_net Examples.glat_args Examples.dict
      Examples.prev_tokens None false None = Ok f /\
    GlatAnneal.inner_states f !! 0%nat = Some 1%R /\
    GlatAnneal.layer_inputs f !! 0%nat = Some ((1 + 1) / sqrt 2)%R /\
    GlatAnneal.layer_inputs f !! 0%nat <> GlatAnneal.inner_states f !! 0%nat.
Proof.
  eexists. split; [reflexivity|]. simpl.
  split; [reflexivity|]. split; [reflexivity|].
  intros H. injection H as H. cbv [GlatAnneal.y_hat_of] in H. simpl in H.
  assert (0 < sqrt 2)%R as Hpos by (apply sqrt_lt_R0; lra).
  assert (sqrt 2 * sqrt 2 = 2)%R as Hsq by (apply sqrt_sqrt; lra).
  apply (f_equal (fun x => (x * sqrt 2)%R)) in H.
  field_simplify in H; nra.
Qed.

(** ** The loss of [nat_ctc_sd.py] in cross-layer sampling mode *)

Section CrossLayer.
Variable net : CtcSd.Network.
Variable args : CtcSd.Args.
Variable d : Dictionary.
Variable output_logits_list : list (list (list (CtcSd.Vec net))).
Variable prev_output_tokens tgt_tokens : list (list Z).
Variable randint : nat -> list nat.

(** The loss and the log of sample [s], when its gather succeeds and its
    loss is one finite number. *)
Variable c : nat -> Q.
Variable w : nat -> list Z.
Hypothesis sample_ok :
  forall (s : nat) (acc : list (option Q) * list Z),
    (s < Z.to_nat (CtcSd.num_cross_layer_sample args))%nat ->
    CtcSd.sample_step net args d output_logits_list prev_output_tokens
      tgt_tokens true (randint s) acc
    = Ok (CtcSd.add_loss acc.1 [Some (c s)], acc.2 ++ w s).

Lemma sample_loop (n i : nat) (a : Q) (lg : list Z) :
  (i + n <= Z.to_nat (CtcSd.num_cross_layer_sample args))%nat ->
  foldl (fun (acc : result (list (option Q) * list Z)) (sample_id : nat) =>
           match acc with
           | Ok x => CtcSd.sample_step net args d output_logits_list
                       prev_output_tokens tgt_tokens true (randint sample_id) x
           | Raise e => Raise e
           end)
        (Ok ([Some a], lg)) (seq i n)
  = Ok ([Some (foldl Qplus a (c <$> seq i n))], lg ++ concat (w <$> seq i n)).
Proof.
  revert i a lg. induction n as [|n IH]; intros i a lg Hn; simpl.
  - by rewrite app_nil_r.
  - rewrite sample_ok by lia. simpl. rewrite IH by lia.
    by rewrite <- app_assoc.
Qed.

(** Whatever the number of samples, the sum of the sampled losses is
    divided by the number of decoder layers. *)
Lemma cross_layer_loss_divides_by_layers :
  output_logits_list <> [] ->
  exists lg,
    CtcSd.forward_cross_layer net args d output_logits_list prev_output_tokens
      tgt_tokens true randint
    = Ok ([Some (foldl Qplus 0
                   (c <$> seq 0 (Z.to_nat (CtcSd.num_cross_layer_sample args)))
                 / inject_Z (Z.of_nat (length output_logits_list)))%Q], lg).
Proof.
  intros Hne. unfold CtcSd.forward_cross_layer.
  rewrite bool_decide_eq_false_2 by (by destruct output_logits_list).
  rewrite sample_loop by lia. simpl. eexists. f_equal. f_equal.
  unfold CtcSd.div_entry.
  rewrite (proj2 (Z.eqb_neq _ _)) by (destruct output_logits_list; simpl in *; [done|lia]).
  done.
Qed.

End CrossLayer.

(** C3: the program at a failing input.  With two decoder layers and one
    sample whose mixed-layer CTC loss is 8, the average of the sampled
    losses is 8, and the returned [ctc_loss] is 8 / 2 = 4: the sum is divided
    by the number of decoder layers, not by the number of samples. *)
Theorem cross_layer_loss_failing_input :
  exists prev g sample_loss q,
    CtcSd.initialize_output_tokens_by_src_tokens Examples.sample_args Examples.dict
      [[5; 6]] = Some prev /\
    length (CtcSd.decoder Examples.toy_ctc_net prev 0) = 2%nat /\
    CtcSd.num_cross_layer_sample Examples.sample_args = 1 /\
    CtcSd.gather (CtcSd.decoder Examples.toy_ctc_net prev 0) (Examples.layer_draw 0)
      1 4 = Some g /\
    (CtcSd.sequence_ctc_loss_with_logits Examples.toy_ctc_net g
       (Torch.ne prev 1) [[0; 11; 2]] (Torch.ne [[0; 11; 2]] 1) 4 0 true).1
    = [Some sample_loss] /\
    (sample_loss == 8)%Q /\
    (CtcSd.spec_sample_average [sample_loss] == 8)%Q /\
    CtcSd.forward Examples.toy_ctc_net Examples.sample_args Examples.dict
      [[5; 6]] [[0; 11; 2]] true Examples.layer_draw = Ok ([Some q], []) /\
    (q == 4)%Q /\
    ~ (q == CtcSd.spec_sample_average [sample_loss])%Q.
Proof.
  eexists. eexists. eexists. eexists.
  split; [vm_compute; reflexivity|].
  split; [reflexivity|]. split; [reflexivity|].
  split; [vm_compute; reflexivity|].
  split; [vm_compute; reflexivity|].
  split; [reflexivity|]. split; [reflexivity|].
  split; [vm_compute; reflexivity|].
  split; [reflexivity|]. discriminate.
Qed.

(** ** [forward_decoder] and the tensors of the state it is given *)

Section MaskedScatter.
Import Torch.
Context {A : Type}.

Lemma scatter_row_unmasked (self : list A) (mask : list bool) (source : list A)
    (c : nat) :
  mask !! c = Some false -> (scatter_row self mask source).1 !! c = self !! c.
Proof.
  revert mask source c.
  induction self as [|x self IH]; intros [|m mask] source c Hc; try done.
  simpl. destruct m.
  - destruct source as [|s source]; [done|]. simpl.
    destruct c as [|c]; [done|]. by apply IH.
  - simpl. destruct c as [|c]; [done|]. by apply IH.
Qed.

Lemma masked_scatter_unmasked (t : list (list A)) (mask : list (list bool))
    (source : list A) (b c : nat) :
  at2 mask b c = Some false -> at2 (masked_scatter t mask source) b c = at2 t b c.
Proof.
  revert mask source b.
  induction t as [|row t IH]; intros [|mrow mask] source b Hm; try done.
  simpl. destruct b as [|b].
  - unfold at2 in *. simpl in *. by apply scatter_row_unmasked.
  - unfold at2 in *. simpl in *. by apply IH.
Qed.

(** Scattering what was selected under the same mask: a masked position
    takes the entry of the source tensor at that position. *)
Lemma scatter_select_row (self src : list A) (mask : list bool) (rest : list A) :
  length self = length mask -> length src = length mask ->
  (scatter_row self mask (select_row src mask ++ rest)).2 = rest /\
  forall c : nat, mask !! c = Some true ->
    (scatter_row self mask (select_row src mask ++ rest)).1 !! c = src !! c.
Proof.
  revert src mask.
  induction self as [|x self IH]; intros [|s src] [|m mask] Hs Hsrc; try done.
  simpl in Hs, Hsrc. injection Hs as Hs. injection Hsrc as Hsrc.
  destruct (IH src mask Hs Hsrc) as [IH2 IH1].
  unfold select_row in *. csimpl. destruct m; simpl.
  - split; [exact IH2|]. intros [|c] Hc; [done|]. by apply IH1.
  - split; [exact IH2|]. intros [|c] Hc; [done|]. by apply IH1.
Qed.

Lemma masked_scatter_select (t src : list (list A)) (mask : list (list bool))
    (rest : list A) (b c : nat) :
  same_shape t mask -> same_shape src mask ->
  at2 mask b c = Some true ->
  at2 (masked_scatter t mask (masked_select src mask ++ rest)) b c = at2 src b c.
Proof.
  intros Ht. revert src rest b.
  induction Ht as [|row mrow t mask Hrow _ IH]; intros src rest b Hsrc Hm.
  { by destruct b. }
  inversion Hsrc as [|srow ? src' ? Hsrow Hsrc']; subst.
  unfold masked_select. simpl. rewrite <- app_assoc.
  destruct (scatter_select_row row srow mrow
              (concat (zip_with select_row src' mask) ++ rest) Hrow Hsrow)
    as [H2 H1].
  destruct b as [|b].
  - unfold at2 in *. simpl in *. by apply H1.
  - rewrite H2. unfold at2 in *. simpl in *. by apply IH.
Qed.

End MaskedScatter.

Section Refinement.
Import Torch.
Variable d : Dictionary.

Lemma at2_ne (toks : list (list Z)) (b c : nat) (t : Z) :
  at2 toks b c = Some t -> at2 (ne toks (pad d)) b c = Some (negb (t =? pad d)).
Proof.
  rewrite !at2_Some. intros (r & Hr & Ht).
  exists ((fun x => negb (x =? pad d)) <$> r). split.
  - unfold ne. by rewrite list_lookup_fmap, Hr.
  - by rewrite list_lookup_fmap, Ht.
Qed.

Lemma same_shape_ne {A} (x : list (list A)) (toks : list (list Z)) :
  same_shape x toks -> same_shape x (ne toks (pad d)).
Proof.
  unfold same_shape, ne. intros H. apply Forall2_fmap_r.
  eapply Forall2_impl; [exact H|]. intros r r' Hlen. simpl.
  by rewrite length_fmap.
Qed.

(** The two lines [t.masked_scatter_(output_masks, src[output_masks])]:
    a pad position of the tokens keeps the entry of [t], and, when the
    shapes agree, a non-pad position takes the entry of [src]. *)
Lemma masked_refine {A} (self src : list (list A)) (toks : list (list Z)) :
  let mask := ne toks (pad d) in
  let new := masked_scatter self mask (masked_select src mask) in
  (forall b c : nat, at2 toks b c = Some (pad d) -> at2 new b c = at2 self b c) /\
  (same_shape self toks -> same_shape src toks ->
   forall (b c : nat) (t : Z),
     at2 toks b c = Some t -> t <> pad d -> at2 new b c = at2 src b c).
Proof.
  intros mask new. split.
  - intros b c Ht. apply masked_scatter_unmasked.
    unfold mask. rewrite (at2_ne _ _ _ _ Ht). by rewrite Z.eqb_refl.
  - intros Hself Hsrc b c t Ht Hne. unfold new.
    rewrite <- (app_nil_r (masked_select src mask)).
    apply masked_scatter_select; [by apply same_shape_ne..|].
    unfold mask. rewrite (at2_ne _ _ _ _ Ht).
    by rewrite (proj2 (Z.eqb_neq _ _)) by done.
Qed.

Lemma history_append_clone_ok (h : gmap loc obj) (history : option loc)
    (tokens : loc) (t : list (list Z)) :
  h !! tokens = Some (TokensT t) ->
  match history with
  | None => True
  | Some hl => exists es, h !! hl = Some (HistoryL es)
  end ->
  exists h',
    history_append_clone h history tokens = Ok h' /\
    forall l : loc, is_Some (h !! l) -> Some l <> history -> h' !! l = h !! l.
Proof.
  intros Ht Hh. unfold history_append_clone.
  destruct history as [hl|]; [|by exists h].
  destruct Hh as [es Hes]. unfold read_tokens, read_history.
  rewrite Ht, Hes. csimpl. eexists. split; [reflexivity|].
  intros l Hl Hne. rewrite lookup_insert_ne by congruence.
  rewrite lookup_insert_ne; [done|].
  intros <-. apply elem_of_dom in Hl. by apply is_fresh in Hl.
Qed.

End Refinement.

Section ForwardDecoder.
Import Torch.
Variable d : Dictionary.

(** The heap after the two [masked_scatter_] and the update of the
    history, shared by the glancing variant and the plain-CTC path. *)
Lemma in_place_heap (decoder_out : DecoderOut) (h : gmap loc obj)
    (toks new_toks : list (list Z)) (scores new_scores : list (list Q)) :
  valid_state decoder_out h toks scores ->
  <[output_tokens decoder_out := TokensT new_toks]> h !! output_scores decoder_out
  = Some (ScoresT scores) /\
  exists h',
    history_append_clone
      (<[output_scores decoder_out := ScoresT new_scores]>
         (<[output_tokens decoder_out := TokensT new_toks]> h))
      (history decoder_out) (output_tokens decoder_out) = Ok h' /\
    h' !! output_tokens decoder_out = Some (TokensT new_toks) /\
    h' !! output_scores decoder_out = Some (ScoresT new_scores).
Proof.
  intros (Ht & Hs & Hh).
  assert (output_tokens decoder_out <> output_scores decoder_out) as Hts
    by (intros E; rewrite E in Ht; congruence).
  split; [by rewrite lookup_insert_ne|].
  set (h2 := <[output_scores decoder_out := ScoresT new_scores]>
               (<[output_tokens decoder_out := TokensT new_toks]> h)).
  assert (h2 !! output_tokens decoder_out = Some (TokensT new_toks)) as Ht2.
  { unfold h2. rewrite lookup_insert_ne by done. apply lookup_insert_eq. }
  assert (h2 !! output_scores decoder_out = Some (ScoresT new_scores)) as Hs2
    by apply lookup_insert_eq.
  destruct (history_append_clone_ok h2 (history decoder_out)
              (output_tokens decoder_out) new_toks Ht2) as (h' & Hrun & Hframe).
  { destruct (history decoder_out) as [hl|]; [|done].
    destruct Hh as [es Hes]. exists es. unfold h2.
    rewrite !lookup_insert_ne; [done|intros E..]; rewrite <- E in Hes; congruence. }
  exists h'. split; [exact Hrun|].
  assert (forall l o, h2 !! l = Some o -> (forall es, o <> HistoryL es) ->
                      h' !! l = Some o) as Hkeep.
  { intros l o Hl Ho. rewrite Hframe.
    - exact Hl.
    - by exists o.
    - intros E. destruct (history decoder_out) as [hl|]; [|done].
      injection E as ->. destruct Hh as [es Hes].
      unfold h2 in Hl. rewrite !lookup_insert in Hl.
      repeat case_decide; simplify_eq; by eapply Ho. }
  split; eapply Hkeep; done.
Qed.

Lemma glat_forward_decoder_in_place (net : GlatAnneal.Network)
    (args : GlatAnneal.Args) (decoder_out : DecoderOut) (h : gmap loc obj)
    (toks : list (list Z)) (scores : list (list Q))
    (l : list (GlatAnneal.Logits net)) (logits : GlatAnneal.Logits net) :
  valid_state decoder_out h toks scores ->
  GlatAnneal.decoder net args d true toks (step decoder_out) None = Ok l ->
  py_index l (GlatAnneal.inference_decoder_layer args) = Ok logits ->
  let mask := ne toks (pad d) in
  let st := GlatAnneal.max_last net logits in
  exists out h',
    GlatAnneal.forward_decoder net args d decoder_out h = Ok (out, h') /\
    output_tokens out = output_tokens decoder_out /\
    output_scores out = output_scores decoder_out /\
    h' !! output_tokens decoder_out
    = Some (TokensT (masked_scatter toks mask (masked_select st.2 mask))) /\
    h' !! output_scores decoder_out
    = Some (ScoresT (masked_scatter scores mask (masked_select st.1 mask))).
Proof.
  intros Hv Hdec Hidx mask st.
  pose proof Hv as (Ht & _ & _).
  destruct (in_place_heap decoder_out h toks
              (masked_scatter toks mask (masked_select st.2 mask)) scores
              (masked_scatter scores mask (masked_select st.1 mask)) Hv)
    as (Hs1 & h' & Hrun & Ht' & Hs').
  eexists. exists h'. split.
  { unfold GlatAnneal.forward_decoder, read_tokens, read_scores.
    rewrite Ht. csimpl. rewrite Hdec. csimpl. rewrite Hidx. csimpl.
    fold mask. fold st. rewrite Hs1. csimpl. rewrite Hrun. csimpl.
    reflexivity. }
  done.
Qed.

Lemma ctc_forward_decoder_plain_in_place (net : CtcSd.Network)
    (args : CtcSd.Args) (decoder_out : DecoderOut) (h : gmap loc obj)
    (toks : list (list Z)) (scores : list (list Q))
    (logits : list (list (CtcSd.Vec net))) :
  CtcSd.plain_ctc args = true ->
  valid_state decoder_out h toks scores ->
  py_index (CtcSd.decoder net toks (step decoder_out))
    (CtcSd.inference_decoder_layer args) = Ok logits ->
  let mask := ne toks (pad d) in
  let st := CtcSd.max_last net logits in
  exists out h',
    CtcSd.forward_decoder net args d decoder_out h = Ok (out, h') /\
    output_tokens out = output_tokens decoder_out /\
    output_scores out = output_scores decoder_out /\
    h' !! output_tokens decoder_out
    = Some (TokensT (masked_scatter toks mask (masked_select st.2 mask))) /\
    h' !! output_scores decoder_out
    = Some (ScoresT (masked_scatter scores mask (masked_select st.1 mask))).
Proof.
  intros Hplain Hv Hidx mask st.
  pose proof Hv as (Ht & _ & _).
  destruct (in_place_heap decoder_out h toks
              (masked_scatter toks mask (masked_select st.2 mask)) scores
              (masked_scatter scores mask (masked_select st.1 mask)) Hv)
    as (Hs1 & h' & Hrun & Ht' & Hs').
  eexists. exists h'. split.
  { unfold CtcSd.forward_decoder, read_tokens, read_scores.
    rewrite Ht. csimpl. rewrite Hidx. csimpl. rewrite Hplain.
    fold mask. unfold st, CtcSd.max_last in Hs1, Hrun.
    cbn [fst snd] in Hs1, Hrun.
    rewrite Hs1. csimpl. rewrite Hrun. csimpl.
    reflexivity. }
  done.
Qed.

Lemma ctc_forward_decoder_beam_fresh (net : CtcSd.Network)
    (args : CtcSd.Args) (decoder_out : DecoderOut) (h : gmap loc obj)
    (toks : list (list Z)) (scores : list (list Q))
    (logits : list (list (CtcSd.Vec net)))
    (top : list (list Z)) (lens : list Z) :
  CtcSd.plain_ctc args = false ->
  valid_state decoder_out h toks scores ->
  py_index (CtcSd.decoder net toks (step decoder_out))
    (CtcSd.inference_decoder_layer args) = Ok logits ->
  let br := CtcSd.ctc_decode net logits (sum1 (ne toks (pad d))) in
  mapM (fun beams : list (list Z) => py_index beams 0) br.1 = Ok top ->
  mapM (fun ls : list Z => py_index ls 0) br.2 = Ok lens ->
  exists out h',
    CtcSd.forward_decoder net args d decoder_out h = Ok (out, h') /\
    h' !! output_tokens decoder_out = Some (TokensT toks) /\
    h' !! output_scores decoder_out = Some (ScoresT scores) /\
    h !! output_tokens out = None /\
    h !! output_scores out = None /\
    h' !! output_tokens out
    = Some (TokensT (zip_with (CtcSd.pad_beyond d) top lens)).
Proof.
  intros Hplain (Ht & Hs & Hh) Hidx br Htop Hlens.
  destruct (history_append_clone_ok h (history decoder_out)
              (output_tokens decoder_out) toks Ht Hh) as (h1 & Hrun & Hframe).
  assert (forall l o, h !! l = Some o -> (forall es, o <> HistoryL es) ->
                      h1 !! l = Some o) as Hkeep.
  { intros l o Hl Ho. rewrite Hframe.
    - exact Hl.
    - by exists o.
    - intros E. destruct (history decoder_out) as [hl|]; [|done].
      injection E as ->. destruct Hh as [es Hes]. simplify_eq. by eapply Ho. }
  assert (forall l, h1 !! l = None -> h !! l = None) as Hnone.
  { intros l Hl. destruct (h !! l) as [o|] eqn:E; [|done].
    destruct (decide (Some l = history decoder_out)) as [Heq|Hne].
    - unfold history_append_clone in Hrun. rewrite <- Heq in Hrun.
      unfold read_tokens, read_history in Hrun. rewrite Ht, E in Hrun.
      csimpl in Hrun. destruct o; try done. csimpl in Hrun.
      injection Hrun as <-. by rewrite lookup_insert_eq in Hl.
    - rewrite Hframe in Hl; [congruence|by eexists|done]. }
  assert (exists out h',
             CtcSd.forward_decoder net args d decoder_out h = Ok (out, h') /\
             out = {| output_tokens := fresh (dom h1);
                      output_scores :=
                        fresh (dom (<[fresh (dom h1) :=
                                        TokensT (zip_with (CtcSd.pad_beyond d) top lens)]> h1));
                      attn := None; step := step decoder_out;
                      max_step := max_step decoder_out;
                      history := history decoder_out |} /\
             exists sc,
               h' = <[output_scores out := ScoresT sc]>
                      (<[output_tokens out :=
                           TokensT (zip_with (CtcSd.pad_beyond d) top lens)]> h1))
    as (out & h' & Hfd & -> & sc & ->).
  { eexists. eexists. split.
    - unfold CtcSd.forward_decoder, read_tokens.
      rewrite Ht. cbn [mbind result_bind]. rewrite Hidx.
      cbn [mbind result_bind]. rewrite Hplain. cbv zeta.
      fold br. rewrite Htop. cbn [mbind result_bind]. rewrite Hlens.
      cbn [mbind result_bind]. rewrite Hrun. cbn [mbind result_bind].
      reflexivity.
    - split; [reflexivity|]. eexists. reflexivity. }
  cbn [output_tokens output_scores] in *.
  set (new_toks := zip_with (CtcSd.pad_beyond d) top lens) in *.
  set (a := fresh (dom h1)) in *.
  set (ha := <[a := TokensT new_toks]> h1) in *.
  set (b := fresh (dom ha)) in *.
  assert (h1 !! a = None) as Ha by (apply not_elem_of_dom, is_fresh).
  assert (ha !! b = None) as Hb by (apply not_elem_of_dom, is_fresh).
  assert (a <> b) as Hab.
  { intros E. rewrite <- E in Hb. unfold ha in Hb. by rewrite lookup_insert_eq in Hb. }
  assert (h1 !! b = None) as Hb1.
  { unfold ha in Hb. by rewrite lookup_insert_ne in Hb. }
  eexists. eexists. split; [exact Hfd|]. cbn [output_tokens output_scores].
  assert (h1 !! output_tokens decoder_out = Some (TokensT toks)) as Ht1
    by (by eapply Hkeep).
  assert (h1 !! output_scores decoder_out = Some (ScoresT scores)) as Hs1
    by (by eapply Hkeep).
  split.
  { rewrite lookup_insert_ne by (intros E; congruence). unfold ha.
    rewrite lookup_insert_ne by (intros E; congruence). exact Ht1. }
  split.
  { rewrite lookup_insert_ne by (intros E; congruence). unfold ha.
    rewrite lookup_insert_ne by (intros E; congruence). exact Hs1. }
  split; [by apply Hnone|]. split; [by apply Hnone|].
  rewrite lookup_insert_ne by done. unfold ha. apply lookup_insert_eq.
Qed.

Lemma same_shape_refl {A} (x : list (list A)) : same_shape x x.
Proof. unfold same_shape. by apply Forall_Forall2_diag, Forall_forall. Qed.

(** C9 (amended).  [forward_decoder] works on the tensors of the state it
    is given.  In the glancing variant and on the plain-CTC path the
    returned state holds the same two tensor objects as the given one, and
    these are overwritten in place: after the call the given state's
    [output_tokens] and [output_scores] hold the result of the two
    [masked_scatter_], which keeps the pad positions and, for a decoder
    output of the same shape, puts the decoder's token at every non-pad
    position.  Only on the CTC beam-search path are the given state's two
    tensors left as they were, the returned state holding two new
    tensors. *)
Theorem forward_decoder_state_tensors (decoder_out : DecoderOut)
    (h : gmap loc obj) (toks : list (list Z)) (scores : list (list Q)) :
  valid_state decoder_out h toks scores ->
  let mask := ne toks (pad d) in
  (forall (net : GlatAnneal.Network) (args : GlatAnneal.Args)
          (l : list (GlatAnneal.Logits net)) (logits : GlatAnneal.Logits net),
      GlatAnneal.decoder net args d true toks (step decoder_out) None = Ok l ->
      py_index l (GlatAnneal.inference_decoder_layer args) = Ok logits ->
      let st := GlatAnneal.max_last net logits in
      let new_toks := masked_scatter toks mask (masked_select st.2 mask) in
      let new_scores := masked_scatter scores mask (masked_select st.1 mask) in
      exists out h',
        GlatAnneal.forward_decoder net args d decoder_out h = Ok (out, h') /\
        output_tokens out = output_tokens decoder_out /\
        output_scores out = output_scores decoder_out /\
        h' !! output_tokens decoder_out = Some (TokensT new_toks) /\
        h' !! output_scores decoder_out = Some (ScoresT new_scores) /\
        (forall b c : nat, at2 toks b c = Some (pad d) ->
                           at2 new_toks b c = Some (pad d) /\
                           at2 new_scores b c = at2 scores b c) /\
        (same_shape st.2 toks ->
         forall (b c : nat) (t : Z),
           at2 toks b c = Some t -> t <> pad d ->
           at2 new_toks b c = at2 st.2 b c)) /\
  (forall (net : CtcSd.Network) (args : CtcSd.Args)
          (logits : list (list (CtcSd.Vec net))),
      CtcSd.plain_ctc args = true ->
      py_index (CtcSd.decoder net toks (step decoder_out))
        (CtcSd.inference_decoder_layer args) = Ok logits ->
      let st := CtcSd.max_last net logits in
      let new_toks := masked_scatter toks mask (masked_select st.2 mask) in
      let new_scores := masked_scatter scores mask (masked_select st.1 mask) in
      exists out h',
        CtcSd.forward_decoder net args d decoder_out h = Ok (out, h') /\
        output_tokens out = output_tokens decoder_out /\
        output_scores out = output_scores decoder_out /\
        h' !! output_tokens decoder_out = Some (TokensT new_toks) /\
        h' !! output_scores decoder_out = Some (ScoresT new_scores)) /\
  (forall (net : CtcSd.Network) (args : CtcSd.Args)
          (logits : list (list (CtcSd.Vec net)))
          (top : list (list Z)) (lens : list Z),
      CtcSd.plain_ctc args = false ->
      py_index (CtcSd.decoder net toks (step decoder_out))
        (CtcSd.inference_decoder_layer args) = Ok logits ->
      let br := CtcSd.ctc_decode net logits (sum1 mask) in
      mapM (fun beams : list (list Z) => py_index beams 0) br.1 = Ok top ->
      mapM (fun ls : list Z => py_index ls 0) br.2 = Ok lens ->
      exists out h',
        CtcSd.forward_decoder net args d decoder_out h = Ok (out, h') /\
        h' !! output_tokens decoder_out = Some (TokensT toks) /\
        h' !! output_scores decoder_out = Some (ScoresT scores) /\
        h !! output_tokens out = None /\
        h !! output_scores out = None /\
        h' !! output_tokens out
        = Some (TokensT (zip_with (CtcSd.pad_beyond d) top lens))).
Proof.
  intros Hv mask. split; [|split].
  - intros net args l logits Hdec Hidx st new_toks new_scores.
    destruct (glat_forward_decoder_in_place net args decoder_out h toks scores
                l logits Hv Hdec Hidx)
      as (out & h' & Hrun & Hot & Hos & Ht & Hs).
    exists out, h'. repeat (split; [done|]).
    destruct (masked_refine d toks st.2 toks) as [Hpad Hfill].
    destruct (masked_refine d scores st.1 toks) as [Hpad' _].
    split.
    + intros b c Hb. split; [|by apply Hpad'].
      unfold new_toks, mask. by rewrite Hpad.
    + intros Hshape b c t Hb Hne.
      by apply (Hfill (same_shape_refl toks) Hshape b c t).
  - intros net args logits Hplain Hidx st new_toks new_scores.
    by apply ctc_forward_decoder_plain_in_place.
  - intros net args logits top lens Hplain Hidx br Htop Hlens.
    by eapply ctc_forward_decoder_beam_fresh.
Qed.

End ForwardDecoder.

Lemma forward_decoder_state_tensors_witness :
  exists out h',
    GlatAnneal.forward_decoder Examples.toy_net Examples.glat_args Examples.dict
      Examples.state0 Examples.heap0 = Ok (out, h') /\
    output_tokens out = 1%positive /\
    h' !! 1%positive = Some (TokensT [[0; 12; 2; 1]]).
Proof.
  destruct (forward_decoder_state_tensors Examples.dict Examples.state0
              Examples.heap0 [[0; 3; 2; 1]] [[0; 0; 0; 0]]%Q) as [Hglat _].
  - repeat split.
  - destruct (Hglat Examples.toy_net Examples.glat_args
                [[[0; 3; 2; 1]]; [[0; 3; 2; 1]]] [[0; 3; 2; 1]])
      as (out & h' & Hrun & Hout & _ & Ht & _).
    + reflexivity.
    + reflexivity.
    + exists out, h'. split; [exact Hrun|]. split; [exact Hout|exact Ht].
Defined.

(** C9, as stated: after [forward_decoder] of the glancing variant the
    state that was passed in no longer holds its original token tensor (the
    [unk] at position 1 has become the predicted token 12), and on the
    plain-CTC path both its tokens and its scores have changed; the returned
    state holds the very same tensor objects. *)
Lemma forward_decoder_mutates_counterexample :
  exists out h' out2 h2,
    Examples.heap0 !! output_tokens Examples.state0 = Some (TokensT [[0; 3; 2; 1]]) /\
    Examples.heap0 !! output_scores Examples.state0
    = Some (ScoresT [[0; 0; 0; 0]]%Q) /\
    GlatAnneal.forward_decoder Examples.toy_net Examples.glat_args Examples.dict
      Examples.state0 Examples.heap0 = Ok (out, h') /\
    output_tokens out = output_tokens Examples.state0 /\
    h' !! output_tokens Examples.state0 = Some (TokensT [[0; 12; 2; 1]]) /\
    h' !! output_tokens Examples.state0
    <> Examples.heap0 !! output_tokens Examples.state0 /\
    CtcSd.forward_decoder Examples.toy_ctc_net Examples.plain_args Examples.dict
      Examples.state0 Examples.heap0 = Ok (out2, h2) /\
    output_scores out2 = output_scores Examples.state0 /\
    h2 !! output_tokens Examples.state0 = Some (TokensT [[7; 7; 7; 1]]) /\
    h2 !! output_scores Examples.state0 = Some (ScoresT [[3; 3; 3; 0]]%Q) /\
    h2 !! output_scores Examples.state0
    <> Examples.heap0 !! output_scores Examples.state0.
Proof.
  eexists. eexists. eexists. eexists.
  split; [reflexivity|]. split; [reflexivity|].
  split; [vm_compute; reflexivity|]. split; [reflexivity|].
  split; [reflexivity|]. split; [vm_compute; congruence|].
  split; [vm_compute; reflexivity|]. split; [reflexivity|].
  split; [reflexivity|]. split; [reflexivity|]. vm_compute. congruence.
Qed.

Lemma forward_training_needs_context_p_witness :
  GlatAnneal.forward Examples.toy_net Examples.glat_args Examples.dict true
    Examples.prev_tokens (Some Examples.tgt_tokens) None None Examples.draws
  = Raise (UnboundLocalError "all_layer_weight").
Proof.
  destruct (forward_training_needs_context_p Examples.toy_net Examples.glat_args
              Examples.dict Examples.prev_tokens Examples.tgt_tokens None None
              Examples.draws) as [H _].
  destruct H as [H _]; [by left|exact H].
Defined.

(** ** The log and the loss of [sequence_ctc_loss_with_logits] *)

Section CtcLog.
Import Torch.

Lemma invalid_count (logit_lengths target_lengths : list Z) :
  length logit_lengths = length target_lengths ->
  let n := foldr Z.add 0
             (zip_with (fun a b => Z.b2z (a <? b)) logit_lengths target_lengths) in
  0 <= n /\
  (n = 0 <-> Forall2 (fun a b => b <= a) logit_lengths target_lengths).
Proof.
  revert target_lengths.
  induction logit_lengths as [|a l IH]; intros [|b t] Hlen; try done.
  simpl in Hlen. injection Hlen as Hlen.
  destruct (IH t Hlen) as [IH0 IH1]. cbn -[Z.add Z.ltb].
  destruct (Z.ltb_spec a b) as [Hab|Hab]; cbn -[Z.add Z.ltb].
  - split; [lia|]. split; [lia|].
    intros H. inversion H; subst. lia.
  - split; [lia|]. rewrite Z.add_0_l, IH1. split.
    + intros H. by constructor.
    + intros H. by inversion H.
Qed.

(** The call always returns a loss together with its log, and the log is
    empty exactly when no example has a logit length below its target
    length; otherwise it holds the number of such examples. *)
Lemma sequence_ctc_loss_log (net : CtcSd.Network)
    (logits : list (list (CtcSd.Vec net))) (logit_mask : list (list bool))
    (targets : list (list Z)) (target_mask : list (list bool))
    (blank : Z) (label_smoothing : Q) (reduce : bool) :
  length logit_mask = length target_mask ->
  let log := (CtcSd.sequence_ctc_loss_with_logits net logits logit_mask targets
                target_mask blank label_smoothing reduce).2 in
  (log = [] <->
   Forall2 (fun a b => b <= a) (sum1 logit_mask) (sum1 target_mask)) /\
  (log <> [] -> exists n, 0 < n /\ log = [n]).
Proof.
  intros Hlen log.
  destruct (invalid_count (sum1 logit_mask) (sum1 target_mask)) as [H0 H1].
  { unfold sum1. by rewrite !length_fmap. }
  unfold log, CtcSd.sequence_ctc_loss_with_logits. cbn [snd].
  set (n := foldr Z.add 0 _) in *.
  destruct (Z.ltb_spec 0 n) as [Hn|Hn].
  - split.
    + split; [done|]. intros H. apply H1 in H. lia.
    + intros _. by exists n.
  - split; [|done]. split; [|done]. intros _. apply H1. lia.
Qed.

End CtcLog.

Section CtcLoss.
Import Torch.



End CtcLoss.



(** ** Glancing in [forward]: the tokens, by the mask *)

Section GlancingShapes.
Import Torch.
Variable net : GlatAnneal.Network.
Variable args : GlatAnneal.Args.
Variable d : Dictionary.

Lemma length_same_num (pred tgt : list (list Z)) (m : list (list bool)) :
  length (GlatAnneal.same_num pred tgt m)
  = Nat.min (Nat.min (length pred) (length tgt)) (length m).
Proof.
  unfold GlatAnneal.same_num, sum1. by rewrite length_fmap, !length_zip_with.
Qed.

Lemma length_keep_prob (context_p : Q) (seq_lens same : list Z) :
  length (GlatAnneal.keep_prob context_p seq_lens same)
  = Nat.min (length seq_lens) (length same).
Proof. unfold GlatAnneal.keep_prob. by rewrite length_zip_with. Qed.


Lemma has_shape_eq (n T : nat) (t : list (list Z)) (v : Z) :
  has_shape n T t -> has_shape n T (eq t v).
Proof. apply has_shape_fmap. Qed.

Lemma has_shape_invert (n T : nat) (m : list (list bool)) :
  has_shape n T m -> has_shape n T (invert m).
Proof. apply has_shape_fmap. Qed.

(** The tensors of the glancing block on a batch of one shape. *)
Lemma glancing_tensors (n T : nat) (prev_output_tokens tgt_tokens : list (list Z))
    (tgt_mask : list (list bool)) (context_p : Q) (train_ratio : option Q)
    (rand : list (list Q)) (noisy : list (GlatAnneal.Logits net))
    (last : GlatAnneal.Logits net) :
  has_shape n T prev_output_tokens -> has_shape n T tgt_tokens ->
  has_shape n T rand ->
  GlatAnneal.decoder net args d false prev_output_tokens 0 None = Ok noisy ->
  py_index noisy (-1) = Ok last ->
  has_shape n T (GlatAnneal.argmax net last) ->
  let nonpad_positions := invert (eq tgt_tokens (pad d)) in
  let same := GlatAnneal.same_num (GlatAnneal.argmax net last) tgt_tokens
                nonpad_positions in
  let kp := GlatAnneal.keep_prob context_p (sum1 nonpad_positions) same in
  let mask := GlatAnneal.keep_word_mask rand kp in
  let prev' := GlatAnneal.glat_prev_output_tokens prev_output_tokens tgt_tokens mask in
  let tgt' := GlatAnneal.glat_tgt_tokens d tgt_tokens mask in
  length kp = n /\ has_shape n T mask /\ has_shape n T prev' /\ has_shape n T tgt' /\
  GlatAnneal.glancing net args d prev_output_tokens tgt_tokens tgt_mask context_p
    train_ratio rand
  = (all_layer_acc_list ←
       mapM (fun logits =>
               GlatAnneal.per_layer_acc (GlatAnneal.argmax net logits) tgt' tgt_mask)
            noisy;
     all_layer_weight ←
       (if GlatAnneal.fix_schedule args then
          match train_ratio with
          | None => Raise TypeError
          | Some r =>
              Ok ((fun _ => replicate (length (GlatAnneal.argmax net last))
                              (GlatAnneal.WSchedule r)) <$> noisy)
          end
        else if GlatAnneal.always_half args then
          Ok ((fun _ => replicate (length (GlatAnneal.argmax net last))
                          (GlatAnneal.WConst (1 # 2))) <$> noisy)
        else
          Ok ((fun acc : list Float32.t => GlatAnneal.WSqrtHalf <$> acc)
                <$> all_layer_acc_list));
     Ok {| GlatAnneal.l_prev_output_tokens := prev';
           GlatAnneal.l_tgt_tokens := tgt';
           GlatAnneal.l_glat_info :=
             Some {| GlatAnneal.glat_accu :=
                       Float32.div
                         (Float32.of_Z (foldr Z.add 0 same))
                         (Float32.of_Z (foldr Z.add 0 (sum1 nonpad_positions)));
                     GlatAnneal.glat_context_p := context_p;
                     GlatAnneal.glat_keep := GlatAnneal.tensor_mean net kp |};
           GlatAnneal.l_anneal_info :=
             Some (GlatAnneal.tensor_mean net <$> all_layer_acc_list);
           GlatAnneal.l_all_layer_weight := Some all_layer_weight |}).
Proof.
  intros Hp Ht Hr Hnoisy Hlast Hpred nonpad_positions same kp mask prev' tgt'.
  assert (has_shape n T nonpad_positions) as Hnp
    by (by apply has_shape_invert, has_shape_eq).
  assert (length same = n) as Hsame.
  { unfold same. rewrite length_same_num.
    destruct Hpred as [-> _], Ht as [-> _], Hnp as [-> _]. lia. }
  assert (length (sum1 nonpad_positions) = n) as Hsl.
  { unfold sum1. rewrite length_fmap. by destruct Hnp. }
  assert (length kp = n) as Hkp.
  { unfold kp. rewrite length_keep_prob, Hsl, Hsame. lia. }
  assert (has_shape n T mask) as Hmask by (by apply has_shape_keep_word_mask).
  assert (has_shape n T tgt') as Htgt' by (by apply has_shape_masked_fill2).
  assert (has_shape n T prev') as Hprev'.
  { unfold prev', GlatAnneal.glat_prev_output_tokens, add2.
    apply has_shape_zip_with; apply has_shape_masked_fill2; try done.
    by apply has_shape_invert. }
  split; [done|]. split; [done|]. split; [done|]. split; [done|].
  unfold GlatAnneal.glancing. rewrite Hnoisy. csimpl. rewrite Hlast. csimpl.
  unfold GlatAnneal.broadcast_2d, GlatAnneal.broadcast_1d.
  rewrite (broadcast2_same n T _ tgt_tokens Hpred Ht). csimpl.
  fold nonpad_positions. fold same.
  rewrite (broadcast1_same (sum1 nonpad_positions) same) by congruence. csimpl.
  fold kp.
  rewrite (broadcast1_same rand kp) by (destruct Hr as [-> _]; congruence). csimpl.
  fold mask.
  rewrite (broadcast2_same n T prev_output_tokens mask Hp Hmask). csimpl.
  rewrite (broadcast2_same n T tgt_tokens (invert mask) Ht
             (has_shape_invert n T mask Hmask)). csimpl.
  rewrite (broadcast2_same n T (masked_fill2 prev_output_tokens mask 0)
             (masked_fill2 tgt_tokens (invert mask) 0)
             (has_shape_masked_fill2 n T _ _ 0 Hp Hmask)
             (has_shape_masked_fill2 n T _ _ 0 Ht (has_shape_invert n T mask Hmask))).
  csimpl.
  rewrite (broadcast2_same n T tgt_tokens mask Ht Hmask). csimpl.
  reflexivity.
Qed.

End GlancingShapes.

Section GlancedTokens.
Import Torch.
Variable net : GlatAnneal.Network.
Variable args : GlatAnneal.Args.
Variable d : Dictionary.

(** C1 (amended).  [forward] with a glancing dictionary that has
    ["context_p"], on a skeleton, a target and draws of one shape, for a
    noisy pass whose prediction has that shape.  If the call returns, then
    at every position the mask is [True] exactly when the draw is below
    the keep probability of the example, and
    - where the mask is [True] the decoder input is the ground-truth
      target token and the returned target is [pad];
    - where it is [False] the decoder input is the token of
      [prev_output_tokens] and the returned target is the target token;
    - the returned mask is the one of the target before glancing: [True]
      wherever that target is not [pad], glanced or not.
    The prediction of the noisy pass is no decoder input anywhere. *)
Theorem glancing_tokens_by_mask (training : bool) (n T : nat)
    (prev_output_tokens tgt_tokens : list (list Z)) (g : gmap string Q)
    (context_p : Q) (train_ratio : option Q) (rand : list (list Q))
    (noisy : list (GlatAnneal.Logits net)) (last : GlatAnneal.Logits net)
    (r : GlatAnneal.RetVal net) :
  g !! "context_p"%string = Some context_p ->
  has_shape n T prev_output_tokens -> has_shape n T tgt_tokens ->
  has_shape n T rand ->
  GlatAnneal.decoder net args d false prev_output_tokens 0 None = Ok noisy ->
  py_index noisy (-1) = Ok last ->
  has_shape n T (GlatAnneal.argmax net last) ->
  GlatAnneal.forward net args d training prev_output_tokens (Some tgt_tokens)
    (Some g) train_ratio rand = Ok r ->
  let nonpad_positions := invert (eq tgt_tokens (pad d)) in
  let same := GlatAnneal.same_num (GlatAnneal.argmax net last) tgt_tokens
                nonpad_positions in
  let kp := GlatAnneal.keep_prob context_p (sum1 nonpad_positions) same in
  let mask := GlatAnneal.keep_word_mask rand kp in
  GlatAnneal.decoder_input r
  = GlatAnneal.glat_prev_output_tokens prev_output_tokens tgt_tokens mask /\
  GlatAnneal.ret_tgt r = GlatAnneal.glat_tgt_tokens d tgt_tokens mask /\
  GlatAnneal.ret_mask r = ne tgt_tokens (pad d) /\
  forall (b c : nat) (p t : Z) (u : Q),
    at2 prev_output_tokens b c = Some p ->
    at2 tgt_tokens b c = Some t ->
    at2 rand b c = Some u ->
    exists k,
      kp !! b = Some k /\
      let m := Float32.ltb (Float32.Fin u) k in
      at2 mask b c = Some m /\
      at2 (GlatAnneal.decoder_input r) b c = Some (if m then t else p) /\
      at2 (GlatAnneal.ret_tgt r) b c = Some (if m then pad d else t) /\
      at2 (GlatAnneal.ret_mask r) b c = Some (negb (t =? pad d)).
Proof.
  intros Hc Hp Ht Hr Hnoisy Hlast Hpred Hrun nonpad_positions same kp mask.
  assert (Hne : g <> ∅) by (intros ->; by rewrite lookup_empty in Hc).
  destruct (glancing_tensors net args d n T prev_output_tokens tgt_tokens
              (ne tgt_tokens (pad d)) context_p train_ratio rand noisy last
              Hp Ht Hr Hnoisy Hlast Hpred) as (Hkp & _ & _ & _ & Hgl).
  fold nonpad_positions same kp mask in Hkp, Hgl.
  assert (GlatAnneal.decoder_input r
          = GlatAnneal.glat_prev_output_tokens prev_output_tokens tgt_tokens mask /\
          GlatAnneal.ret_tgt r = GlatAnneal.glat_tgt_tokens d tgt_tokens mask /\
          GlatAnneal.ret_mask r = ne tgt_tokens (pad d)) as (Hin & Htgt & Hmask).
  { unfold GlatAnneal.forward in Hrun. cbn [mbind result_bind] in Hrun.
    rewrite (bool_decide_eq_false_2 _ Hne), Hc, Hgl in Hrun.
    destruct (mapM _ noisy) as [accs|]; [|done]. cbn [mbind result_bind] in Hrun.
    match type of Hrun with
    | context [if GlatAnneal.fix_schedule args then ?a else ?b] =>
        destruct (if GlatAnneal.fix_schedule args then a else b) as [w|]; [|done]
    end.
    cbn [mbind result_bind GlatAnneal.l_all_layer_weight
         GlatAnneal.l_prev_output_tokens GlatAnneal.l_tgt_tokens] in Hrun.
    destruct training.
    - cbn [mbind result_bind] in Hrun.
      destruct (GlatAnneal.decoder net args d false _ 0 (Some w)); [|done].
      csimpl in Hrun. simplify_eq. split; [reflexivity|]. split; reflexivity.
    - destruct (GlatAnneal.decoder net args d false
                  (GlatAnneal.glat_prev_output_tokens prev_output_tokens tgt_tokens mask)
                  0 None); [|done].
      csimpl in Hrun. simplify_eq. split; [reflexivity|]. split; reflexivity. }
  split; [exact Hin|]. split; [exact Htgt|]. split; [exact Hmask|].
  intros b c p t u Hpb Htb Hub.
  destruct (lookup_lt_is_Some_2 kp b) as [k Hk].
  { rewrite Hkp. apply at2_Some in Hpb as (row & Hrow & _).
    apply lookup_lt_Some in Hrow. by destruct Hp as [<- _]. }
  exists k. split; [exact Hk|]. cbv zeta.
  pose proof (at2_keep_word_mask rand kp u k b c Hub Hk) as Hm. fold mask in Hm.
  destruct (glat_tokens_at d prev_output_tokens tgt_tokens mask b c p t _ Hpb Htb Hm)
    as [H1 H2].
  split; [exact Hm|]. split; [by rewrite Hin|]. split; [by rewrite Htgt|].
  rewrite Hmask. by apply at2_ne.
Qed.

End GlancedTokens.

Lemma glancing_tokens_by_mask_witness :
  exists r,
    GlatAnneal.forward Examples.toy_net Examples.glat_args Examples.dict true
      Examples.prev_tokens (Some Examples.tgt_tokens) (Some Examples.glat_half)
      None Examples.draws = Ok r /\
    Torch.at2 (GlatAnneal.decoder_input r) 0 2 = Some 11 /\
    Torch.at2 (GlatAnneal.ret_tgt r) 0 2 = Some 1 /\
    Torch.at2 (GlatAnneal.ret_mask r) 0 2 = Some true.
Proof.
  eexists. split; [vm_compute; reflexivity|].
  edestruct (glancing_tokens_by_mask Examples.toy_net Examples.glat_args
               Examples.dict true 1 4 Examples.prev_tokens Examples.tgt_tokens
               Examples.glat_half (1 # 2)%Q None Examples.draws)
    as (_ & _ & _ & H).
  - reflexivity.
  - split; [reflexivity|]. repeat constructor.
  - split; [reflexivity|]. repeat constructor.
  - split; [reflexivity|]. repeat constructor.
  - vm_compute. reflexivity.
  - reflexivity.
  - split; [reflexivity|]. repeat constructor.
  - vm_compute. reflexivity.
  - destruct (H 0%nat 2%nat 3 11 (1 # 16)%Q eq_refl eq_refl eq_refl)
      as (k & Hk & _ & Hin & Htgt & Hmask).
    vm_compute in Hk. injection Hk as <-.
    split; [exact Hin|]. split; [exact Htgt|exact Hmask].
Defined.

(** C1, as stated: in the example the draw at position 2 is below the keep
    probability 1/8, and the decoder input there is the ground-truth token
    11, not the token 12 predicted by the noisy pass; the draw at position 1
    is not, and the input there is the [unk] of the skeleton, not the
    ground-truth token 12.  The target returned at position 2 is [pad], but
    the returned mask is [True] there as everywhere. *)
Lemma glancing_input_counterexample :
  exists r noisy,
    GlatAnneal.forward Examples.toy_net Examples.glat_args Examples.dict true
      Examples.prev_tokens (Some Examples.tgt_tokens) (Some Examples.glat_half)
      None Examples.draws = Ok r /\
    GlatAnneal.decoder Examples.toy_net Examples.glat_args Examples.dict false
      Examples.prev_tokens 0 None = Ok noisy /\
    let pred_tokens := GlatAnneal.argmax Examples.toy_net <$> last noisy in
    let mask := GlatAnneal.keep_word_mask Examples.draws [Float32.Fin (1 # 8)] in
    pred_tokens = Some [[0; 12; 12; 2]] /\
    GlatAnneal.keep_prob (1 # 2) [4] [3] = [Float32.Fin (1 # 8)] /\
    mask = [[true; false; true; false]] /\
    GlatAnneal.decoder_input r = [[0; 3; 11; 2]] /\
    GlatAnneal.ret_tgt r = [[1; 12; 1; 2]] /\
    GlatAnneal.ret_mask r = [[true; true; true; true]] /\
    Torch.at2 (GlatAnneal.decoder_input r) 0 2 <> Some 12 /\
    Torch.at2 (GlatAnneal.decoder_input r) 0 1 <> Torch.at2 Examples.tgt_tokens 0 1.
Proof.
  eexists. eexists. split; [vm_compute; reflexivity|].
  split; [vm_compute; reflexivity|].
  vm_compute. repeat split; congruence.
Qed.

(** * Further properties of the code

    The parts of the two files that the properties above leave out:
    length prediction, the initial decoder states, copy mode, the edges of
    the decoder core, the two modes of [forward], the history of the
    refinement, the registered architectures and the helpers. *)

(** ** Length prediction and the initial state of the glancing model *)

Section LengthPrediction.
Import Torch.
Variable d : Dictionary.


Lemma lookup_zip_with_Some' {A B C} (f : A -> B -> C) (l : list A) (k : list B)
    (i : nat) (x : A) (y : B) :
  l !! i = Some x -> k !! i = Some y -> zip_with f l k !! i = Some (f x y).
Proof. intros Hx Hy. rewrite lookup_zip_with, Hx. simpl. by rewrite Hy. Qed.


End LengthPrediction.


Section SkeletonCount.
Import Torch.
Variable d : Dictionary.

Lemma sum_row_app (a b : list bool) : sum_row (a ++ b) = sum_row a + sum_row b.
Proof. induction a as [|x a IH]; simpl; [done|]. rewrite IH. lia. Qed.

Lemma sum_row_prefix (len : Z) (n : nat) :
  sum_row ((fun c : nat => bool_decide (Z.of_nat c < len)) <$> seq 0 n)
  = Z.max 0 (Z.min (Z.of_nat n) len).
Proof.
  induction n as [|n IH]; [simpl; lia|].
  rewrite seq_S, fmap_app, sum_row_app, IH. simpl.
  case_bool_decide; simpl; lia.
Qed.

Lemma nonpad_count_row (M len : Z) :
  special_distinct d -> 2 <= len <= M ->
  nonpad_count d (Skeleton.row d M len) = len.
Proof.
  intros Hd Hlen. destruct (special_distinct_ne d Hd) as (Hpb & Hpe & Hpu & _).
  unfold nonpad_count, Skeleton.row. rewrite <- list_fmap_compose.
  erewrite (list_fmap_ext _ (fun c : nat => bool_decide (Z.of_nat c < len))).
  - rewrite sum_row_prefix. lia.
  - intros i c _. simpl. unfold Skeleton.row_at.
    repeat case_bool_decide; try lia;
      match goal with |- negb (?x =? ?y) = _ => destruct (Z.eqb_spec x y) end;
      simpl; congruence.
Qed.

Lemma foldr_max_lt (l : list Z) (m B : Z) :
  m < B -> Forall (fun x => x < B) l -> foldr Z.max m l < B.
Proof. intros Hm. induction 1; simpl; lia. Qed.

End SkeletonCount.

Section InitialState.
Import Torch.
Variable d : Dictionary.

Lemma alloc_two (h : gmap loc obj) (o1 o2 : obj) :
  let a := alloc h o1 in
  let b := alloc a.2 o2 in
  h !! a.1 = None /\ h !! b.1 = None /\ a.1 <> b.1 /\
  b.2 !! a.1 = Some o1 /\ b.2 !! b.1 = Some o2 /\
  forall l : loc, is_Some (h !! l) -> b.2 !! l = h !! l.
Proof.
  unfold alloc. cbn [fst snd].
  set (a := fresh (dom h)).
  set (ha := <[a := o1]> h).
  set (b := fresh (dom ha)).
  assert (h !! a = None) as Ha by (apply not_elem_of_dom, is_fresh).
  assert (ha !! b = None) as Hb by (apply not_elem_of_dom, is_fresh).
  assert (a <> b) as Hab.
  { intros E. rewrite <- E in Hb. unfold ha in Hb. by rewrite lookup_insert_eq in Hb. }
  assert (h !! b = None) as Hb1.
  { unfold ha in Hb. by rewrite lookup_insert_ne in Hb. }
  repeat split; auto.
  - rewrite lookup_insert_ne by done. apply lookup_insert_eq.
  - apply lookup_insert_eq.
  - intros l [o Hl].
    rewrite lookup_insert_ne by congruence. unfold ha.
    by rewrite lookup_insert_ne by congruence.
Qed.

(** X2.  [initialize_output_tokens] of the glancing model returns a new
    state: two tensors that did not exist before, every other object
    untouched, step 0 and no history.  Row [b] of the tokens is the
    skeleton for the predicted length clamped to at least 2 ([bos] first,
    [eos] at the last position of that length, padding after it), and the
    scores are zeros of the same shape. *)
Theorem glat_initialize_output_tokens_state (pred_length_offset : bool)
    (pred_lengs : list Z) (encoder_out : GlatAnneal.EncoderOut) (h : gmap loc obj) :
  special_distinct d ->
  pred_lengs <> [] ->
  Forall (fun p => 0 <= p <= 255) pred_lengs ->
  (pred_length_offset = true ->
   length (GlatAnneal.src_lengs encoder_out) = length pred_lengs /\
   Forall (fun s => 0 <= s < 2 ^ 62) (GlatAnneal.src_lengs encoder_out)) ->
  let lens := GlatAnneal.forward_length_prediction d pred_length_offset pred_lengs
                encoder_out None in
  exists decoder_out h' toks,
    GlatAnneal.initialize_output_tokens d pred_length_offset pred_lengs encoder_out h
    = Ok (decoder_out, h') /\
    valid_state decoder_out h' toks (new_zeros toks) /\
    h !! output_tokens decoder_out = None /\
    h !! output_scores decoder_out = None /\
    (forall l : loc, is_Some (h !! l) -> h' !! l = h !! l) /\
    step decoder_out = 0 /\ history decoder_out = None /\
    length toks = length pred_lengs /\
    forall (b : nat) (len : Z) (r : list Z),
      lens !! b = Some len -> toks !! b = Some r ->
      nonpad_count d r = Z.max len 2 /\
      r !! 0%nat = Some (bos d) /\
      r !! Z.to_nat (Z.max len 2 - 1) = Some (eos d) /\
      (forall c : nat, (c < length r)%nat -> Z.max len 2 <= Z.of_nat c ->
                       r !! c = Some (pad d)).
Proof.
  intros Hd Hne Hpred Hoff lens.
  assert (Hlen : length lens = length pred_lengs).
  { unfold lens, GlatAnneal.forward_length_prediction.
    destruct pred_length_offset; [|done].
    destruct (Hoff eq_refl) as [E _]. rewrite length_zip_with. lia. }
  assert (Hbnd : Forall (fun x => x < 2 ^ 63) lens).
  { unfold lens, GlatAnneal.forward_length_prediction.
    destruct pred_length_offset.
    - destruct (Hoff eq_refl) as [_ Hs].
      apply Forall_forall. intros x Hx.
      apply list_elem_of_lookup in Hx as [i Hi].
      apply lookup_zip_with_Some in Hi as (p & s & -> & Hp & Hs').
      eapply Forall_lookup_1 in Hp; [|exact Hpred].
      eapply Forall_lookup_1 in Hs'; [|exact Hs]. simpl in *. lia.
    - eapply Forall_impl; [exact Hpred|]. simpl. lia. }
  assert (Hlne : lens <> []).
  { intros E. rewrite E in Hlen. destruct pred_lengs; [done|]. simpl in Hlen. lia. }
  set (M := foldr Z.max 2 lens).
  assert (Hrng : forall len, len ∈ lens -> 2 <= clamp_min 2 len <= M).
  { intros len Hl. unfold clamp_min.
    pose proof (foldr_max_upper lens 2) as Hu. rewrite Forall_forall in Hu.
    specialize (Hu _ Hl). pose proof (foldr_max_floor lens 2) as Hf.
    fold M in Hu, Hf. lia. }
  assert (Hfill : Skeleton.fill d (clamp_min 2 <$> lens)
                  = Some (Skeleton.row d M <$> (clamp_min 2 <$> lens))).
  { apply fill_rows.
    - by apply tensor_max_clamped.
    - apply Forall_fmap, Forall_forall. intros x Hx. by apply Hrng.
    - apply foldr_max_lt; [lia|exact Hbnd]. }
  set (toks := Skeleton.row d M <$> (clamp_min 2 <$> lens)).
  pose proof (alloc_two h (TokensT toks) (ScoresT (new_zeros toks)))
    as (Ha & Hb & Hab & Hta & Htb & Hframe).
  eexists. eexists. exists toks. split.
  { unfold GlatAnneal.initialize_output_tokens. fold lens. rewrite Hfill. reflexivity. }
  cbn [output_tokens output_scores step history].
  split; [by repeat split|].
  do 6 (split; [auto|]).
  { unfold toks. by rewrite !length_fmap. }
  intros b len r Hlb Hr.
  unfold toks in Hr. rewrite <- list_fmap_compose, list_lookup_fmap, Hlb in Hr.
  simpl in Hr. injection Hr as <-.
  pose proof (Hrng len (list_elem_of_lookup_2 _ _ _ Hlb)) as Hc.
  destruct (row_columns d M (clamp_min 2 len) _ Hd Hc eq_refl)
    as (Hl & Hbos & Heos & _ & _ & Hpad & _).
  unfold clamp_min in *.
  split; [by apply nonpad_count_row|].
  split; [exact Hbos|]. split; [exact Heos|].
  intros c Hlt Hle. apply Hpad. rewrite Hl in Hlt. lia.
Qed.

End InitialState.

Lemma glat_initialize_output_tokens_state_witness :
  exists decoder_out h' toks,
    GlatAnneal.initialize_output_tokens Examples.dict false [3; 5] Examples.enc_out ∅
    = Ok (decoder_out, h') /\
    valid_state decoder_out h' toks (Torch.new_zeros toks) /\
    length toks = 2%nat.
Proof.
  destruct (glat_initialize_output_tokens_state Examples.dict false [3; 5]
              Examples.enc_out ∅)
    as (st & h' & toks & Hrun & Hvalid & _ & _ & _ & _ & _ & Hlen & _).
  - apply (bool_decide_unpack _). vm_compute. exact I.
  - discriminate.
  - repeat constructor; lia.
  - discriminate.
  - exists st, h', toks. split; [exact Hrun|]. split; [exact Hvalid|exact Hlen].
Defined.

Section Upsample.
Import Torch.
Variable d : Dictionary.

Lemma bind_replicate_length {A} (r : list A) (k : nat) :
  length (r ≫= (fun t => replicate k t)) = (length r * k)%nat.
Proof.
  induction r as [|x r IH]; [done|].
  rewrite bind_cons, length_app, length_replicate, IH. simpl. lia.
Qed.

Lemma bind_replicate_lookup {A} (r : list A) (k q j : nat) :
  (j < k)%nat -> (r ≫= (fun t => replicate k t)) !! (q * k + j)%nat = r !! q.
Proof.
  intros Hj. revert q. induction r as [|x r IH]; intros q.
  - by rewrite !lookup_nil.
  - rewrite bind_cons. destruct q as [|q].
    + rewrite lookup_app_l by (rewrite length_replicate; lia).
      simpl. apply lookup_replicate_2. lia.
    + rewrite lookup_app_r by (rewrite length_replicate; lia).
      rewrite length_replicate.
      replace (S q * k + j - k)%nat with (q * k + j)%nat by lia.
      apply IH.
Qed.

Lemma sum_row_replicate (b : bool) (k : nat) :
  sum_row (replicate k b) = Z.of_nat k * Z.b2z b.
Proof.
  induction k as [|k IH]; [simpl; lia|].
  unfold sum_row in *. cbn [replicate foldr]. rewrite IH.
  destruct b; cbn [Z.b2z]; lia.
Qed.

Lemma nonpad_count_bind_replicate (r : list Z) (k : nat) :
  nonpad_count d (r ≫= (fun t => replicate k t)) = Z.of_nat k * nonpad_count d r.
Proof.
  unfold nonpad_count. induction r as [|x r IH]; [simpl; lia|].
  rewrite bind_cons, fmap_app, sum_row_app, IH, fmap_replicate, sum_row_replicate.
  rewrite fmap_cons. unfold sum_row. cbn [foldr]. ring.
Qed.

(** X3.  In copy mode with an upsample scale [k] above 1 that fits 64
    bits and a batch of at least one example, the decoder input is the
    source with every token repeated [k] times: position [q * k + j] holds
    source token [q], rows are [k] times as wide, and the number of
    non-pad tokens, the logit length of the CTC loss, is [k] times the
    source length.  For a batch of no example the call fails (the
    [RuntimeError] of [reshape]). *)
Theorem copy_src_token_upsamples (args : CtcSd.Args) (src_tokens : list (list Z)) :
  CtcSd.copy_src_token args = true ->
  1 < CtcSd.src_upsample_scale args < 2 ^ 63 ->
  let k := Z.to_nat (CtcSd.src_upsample_scale args) in
  (src_tokens = [] ->
   CtcSd.initialize_output_tokens_by_src_tokens args d src_tokens = None) /\
  (src_tokens <> [] ->
   exists out,
     CtcSd.initialize_output_tokens_by_src_tokens args d src_tokens = Some out /\
     length out = length src_tokens /\
     forall (b : nat) (row : list Z),
       src_tokens !! b = Some row ->
       exists r,
         out !! b = Some r /\
         length r = (length row * k)%nat /\
         (forall q j : nat, (j < k)%nat -> r !! (q * k + j)%nat = row !! q) /\
         nonpad_count d r = CtcSd.src_upsample_scale args * nonpad_count d row).
Proof.
  intros Hcopy Hk k.
  unfold CtcSd.initialize_output_tokens_by_src_tokens. rewrite Hcopy. simpl.
  destruct (Z.leb_spec (CtcSd.src_upsample_scale args) 1) as [Hle|_]; [lia|].
  split; [by intros ->|]. intros Hne.
  unfold CtcSd._us. destruct src_tokens as [|row0 rest]; [done|].
  rewrite bool_decide_eq_true_2 by (unfold in_int64; lia).
  set (src_tokens := row0 :: rest).
  eexists. split; [reflexivity|]. split; [by rewrite length_fmap|].
  intros b row Hrow. rewrite list_lookup_fmap, Hrow. simpl.
  eexists. split; [reflexivity|]. fold k.
  split; [apply bind_replicate_length|].
  split; [intros q j Hj; by apply bind_replicate_lookup|].
  rewrite nonpad_count_bind_replicate. unfold k. lia.
Qed.

End Upsample.

Lemma copy_src_token_upsamples_witness :
  exists out r,
    CtcSd.initialize_output_tokens_by_src_tokens Examples.copy_args Examples.dict
      [[5; 6; 1]] = Some out /\
    out !! 0%nat = Some r /\
    nonpad_count Examples.dict r = 4.
Proof.
  destruct (copy_src_token_upsamples Examples.dict Examples.copy_args [[5; 6; 1]])
    as [_ H].
  - reflexivity.
  - vm_compute. split; reflexivity.
  - destruct H as (out & Hrun & _ & Hrows); [discriminate|].
    destruct (Hrows 0%nat [5; 6; 1] eq_refl) as (r & Hr & _ & _ & Hcount).
    exists out, r. split; [exact Hrun|]. split; [exact Hr|exact Hcount].
Defined.

Section CtcInitialState.
Import Torch.
Variable d : Dictionary.

(** The state that [initialize_output_tokens] builds. *)
Lemma ctc_initialize_state (args : CtcSd.Args) (src_tokens : loc)
    (h : gmap loc obj) (src initial : list (list Z)) :
  h !! src_tokens = Some (TokensT src) ->
  CtcSd.initialize_output_tokens_by_src_tokens args d src = Some initial ->
  exists decoder_out h',
    CtcSd.initialize_output_tokens args d src_tokens h = Ok (decoder_out, h') /\
    valid_state decoder_out h' initial (new_zeros initial) /\
    step decoder_out = 0 /\ history decoder_out = None /\
    h !! output_scores decoder_out = None /\
    (forall l : loc, is_Some (h !! l) -> h' !! l = h !! l) /\
    (if CtcSd.copy_src_token args && (CtcSd.src_upsample_scale args <=? 1)
     then output_tokens decoder_out = src_tokens /\ initial = src
     else h !! output_tokens decoder_out = None).
Proof.
  intros Hsrc Hinit.
  unfold CtcSd.initialize_output_tokens, read_tokens. rewrite Hsrc.
  cbn [mbind result_bind]. rewrite Hinit.
  destruct (CtcSd.copy_src_token args && (CtcSd.src_upsample_scale args <=? 1))
    eqn:Halias.
  - assert (initial = src) as ->.
    { apply andb_true_iff in Halias as [Hc Hk].
      unfold CtcSd.initialize_output_tokens_by_src_tokens in Hinit.
      rewrite Hc, Hk in Hinit. simpl in Hinit. congruence. }
    eexists. eexists. split; [reflexivity|].
    cbn [output_tokens output_scores step history fst snd].
    unfold alloc. cbn [fst snd].
    set (b := fresh (dom h)).
    assert (h !! b = None) as Hb by (apply not_elem_of_dom, is_fresh).
    assert (b <> src_tokens) as Hne by congruence.
    split.
    { split; [by rewrite lookup_insert_ne|]. split; [apply lookup_insert_eq|done]. }
    do 3 (split; [done|]). split; [|done].
    intros l [o Hl]. rewrite lookup_insert_ne; [done|congruence].
  - pose proof (alloc_two h (TokensT initial) (ScoresT (new_zeros initial)))
      as (Ha & Hb & Hab & Hta & Htb & Hframe).
    eexists. eexists. split; [reflexivity|].
    cbn [output_tokens output_scores step history].
    split; [by repeat split|]. by repeat split.
Qed.

(** A step of the plain CTC decoder on a state without history. *)
Lemma ctc_plain_step_no_history (net : CtcSd.Network) (args : CtcSd.Args)
    (decoder_out : DecoderOut) (h : gmap loc obj)
    (toks : list (list Z)) (scores : list (list Q))
    (logits : list (list (CtcSd.Vec net))) :
  CtcSd.plain_ctc args = true ->
  valid_state decoder_out h toks scores ->
  history decoder_out = None ->
  py_index (CtcSd.decoder net toks (step decoder_out))
    (CtcSd.inference_decoder_layer args) = Ok logits ->
  let mask := ne toks (pad d) in
  let st := CtcSd.max_last net logits in
  exists out,
    CtcSd.forward_decoder net args d decoder_out h
    = Ok (out,
          <[output_scores decoder_out :=
              ScoresT (masked_scatter scores mask (masked_select st.1 mask))]>
            (<[output_tokens decoder_out :=
                 TokensT (masked_scatter toks mask (masked_select st.2 mask))]> h)) /\
    output_tokens out = output_tokens decoder_out /\
    output_scores out = output_scores decoder_out.
Proof.
  intros Hplain (Ht & Hs & _) Hh Hidx mask st.
  assert (output_tokens decoder_out <> output_scores decoder_out) as Hne
    by congruence.
  eexists. split.
  - unfold CtcSd.forward_decoder, read_tokens. rewrite Ht.
    cbn [mbind result_bind]. rewrite Hidx. cbn [mbind result_bind].
    rewrite Hplain. cbv zeta. unfold read_scores.
    rewrite lookup_insert_ne by done. rewrite Hs. cbn [mbind result_bind].
    rewrite Hh. unfold history_append_clone. cbn [mbind result_bind].
    reflexivity.
  - by cbn [output_tokens output_scores].
Qed.

(** X4.  [initialize_output_tokens] of the CTC model followed by one step
    of the plain CTC decoder.  The initial state has zero scores of the
    shape of the tokens, step 0 and no history, and the step puts the
    predicted tokens at the non-pad positions.  In copy mode with a scale of
    at most 1 the state's token tensor is the caller's [src_tokens] object
    itself, so the step overwrites [src_tokens]; in every other mode
    [src_tokens] keeps its content.  No other existing object changes. *)
Theorem plain_decoding_after_initialize (net : CtcSd.Network) (args : CtcSd.Args)
    (src_tokens : loc) (h : gmap loc obj) (src initial : list (list Z))
    (logits : list (list (CtcSd.Vec net))) :
  CtcSd.plain_ctc args = true ->
  h !! src_tokens = Some (TokensT src) ->
  CtcSd.initialize_output_tokens_by_src_tokens args d src = Some initial ->
  py_index (CtcSd.decoder net initial 0) (CtcSd.inference_decoder_layer args)
  = Ok logits ->
  let mask := ne initial (pad d) in
  let st := CtcSd.max_last net logits in
  let refined := masked_scatter initial mask (masked_select st.2 mask) in
  exists decoder_out h1 out h2,
    CtcSd.initialize_output_tokens args d src_tokens h = Ok (decoder_out, h1) /\
    valid_state decoder_out h1 initial (new_zeros initial) /\
    step decoder_out = 0 /\ history decoder_out = None /\
    h !! output_scores decoder_out = None /\
    CtcSd.forward_decoder net args d decoder_out h1 = Ok (out, h2) /\
    h2 !! output_tokens out = Some (TokensT refined) /\
    (forall l : loc, is_Some (h !! l) -> l <> src_tokens -> h2 !! l = h !! l) /\
    if CtcSd.copy_src_token args && (CtcSd.src_upsample_scale args <=? 1)
    then initial = src /\ output_tokens out = src_tokens /\
         h2 !! src_tokens = Some (TokensT refined)
    else h2 !! src_tokens = Some (TokensT src).
Proof.
  intros Hplain Hsrc Hinit Hidx mask st refined.
  destruct (ctc_initialize_state args src_tokens h src initial Hsrc Hinit)
    as (st0 & h1 & Hrun & Hvalid & Hstep & Hhist & Hsc & Hframe & Hmode).
  rewrite <- Hstep in Hidx.
  destruct (ctc_plain_step_no_history net args st0 h1 initial (new_zeros initial)
              logits Hplain Hvalid Hhist Hidx) as (out & Hfd & Hot & Hos).
  pose proof Hvalid as (Ht & Hs & _).
  assert (output_tokens st0 <> output_scores st0) as Hne by congruence.
  exists st0, h1, out. eexists. split; [exact Hrun|].
  split; [exact Hvalid|]. split; [exact Hstep|]. split; [exact Hhist|].
  split; [exact Hsc|]. split; [exact Hfd|].
  split.
  { rewrite Hot, lookup_insert_ne by done. apply lookup_insert_eq. }
  assert (forall l, is_Some (h !! l) -> l <> output_scores st0) as Hl1.
  { intros l [o Hl] ->. congruence. }
  split.
  { intros l Hl Hls. rewrite lookup_insert_ne by (apply not_eq_sym; auto).
    rewrite lookup_insert_ne; [by apply Hframe|].
    destruct (CtcSd.copy_src_token args && (CtcSd.src_upsample_scale args <=? 1)).
    - destruct Hmode as [-> _]. congruence.
    - destruct Hl as [o Hl]. congruence. }
  destruct (CtcSd.copy_src_token args && (CtcSd.src_upsample_scale args <=? 1)).
  - destruct Hmode as [Hal ->]. split; [done|]. split; [congruence|].
    rewrite lookup_insert_ne by (rewrite <- Hal; auto).
    rewrite <- Hal. apply lookup_insert_eq.
  - rewrite lookup_insert_ne by (apply not_eq_sym, Hl1; eauto).
    rewrite lookup_insert_ne by congruence.
    rewrite Hframe by eauto. exact Hsrc.
Qed.

End CtcInitialState.

Lemma plain_decoding_after_initialize_witness :
  exists decoder_out h1 out h2,
    CtcSd.initialize_output_tokens Examples.copy_plain_args Examples.dict
      1%positive Examples.heap_src = Ok (decoder_out, h1) /\
    CtcSd.forward_decoder Examples.toy_ctc_net Examples.copy_plain_args Examples.dict
      decoder_out h1 = Ok (out, h2) /\
    h2 !! 1%positive = Some (TokensT [[7; 7; 1]]).
Proof.
  destruct (plain_decoding_after_initialize Examples.dict Examples.toy_ctc_net
              Examples.copy_plain_args 1%positive Examples.heap_src
              [[5; 6; 1]] [[5; 6; 1]] [[3; 3; 3]]%Q)
    as (st & h1 & out & h2 & Hinit & _ & _ & _ & _ & Hfd & _ & _ & Halias).
  - reflexivity.
  - reflexivity.
  - reflexivity.
  - reflexivity.
  - exists st, h1, out, h2. split; [exact Hinit|]. split; [exact Hfd|].
    destruct Halias as (_ & _ & Hsrc). exact Hsrc.
Defined.

Section DecoderEdges.
Variable net : GlatAnneal.Network.
Variable args : GlatAnneal.Args.
Variable d : Dictionary.

Lemma py_index_ge {A} (l : list A) (i : nat) :
  (length l <= i)%nat -> py_index l (Z.of_nat i) = Raise IndexError.
Proof.
  intros Hi. unfold py_index. cbv zeta.
  destruct (Z.ltb_spec (Z.of_nat i) 0); [lia|].
  destruct (Z.ltb_spec (Z.of_nat i) 0); [lia|].
  by rewrite Nat2Z.id, lookup_ge_None_2.
Qed.

(** The loop with too few weights: it stops with [IndexError] at the
    first layer that has no weight. *)
Lemma run_layers_short (early_exit : option Z) (w : list (list GlatAnneal.weight))
    (mask : list (list bool))
    (ls : list (GlatAnneal.Hidden net -> list (list bool) -> GlatAnneal.Hidden net))
    (i : nat) (st : GlatAnneal.Features net) :
  (i <= length w)%nat ->
  (length w < i + GlatAnneal.layers_run early_exit i (length ls))%nat ->
  GlatAnneal.run_layers net args early_exit (Some w) mask i ls st = Raise IndexError.
Proof.
  revert i st. induction ls as [|layer ls IH]; intros i st Hi Hw.
  - unfold GlatAnneal.layers_run in Hw. destruct early_exit; simpl in Hw; lia.
  - simpl. cbn [length] in Hw.
    destruct (match early_exit with Some e => e <=? Z.of_nat i | None => false end)
      eqn:Hstop.
    + destruct early_exit as [e|]; [|done].
      rewrite layers_run_stop in Hw by lia. lia.
    + rewrite layers_run_step in Hw by (destruct early_exit; [lia|done]).
      destruct (decide (i < length w)%nat) as [Hlt|Hge].
      * destruct (py_index_lt w i Hlt) as (p & _ & ->). csimpl.
        apply IH; lia.
      * rewrite py_index_ge by lia. reflexivity.
Qed.

(** [extract_features] with enough weights, for any early exit. *)
Lemma extract_features_count (prev_output_tokens : list (list Z))
    (early_exit : option Z) (embedding_copy : bool)
    (feed_forward_weights : option (list (list GlatAnneal.weight)))
    (x : GlatAnneal.Hidden net) :
  let r := GlatAnneal.layers_run early_exit 0 (length (GlatAnneal.layers net)) in
  GlatAnneal.embed net d prev_output_tokens embedding_copy = Ok x ->
  match feed_forward_weights with
  | None => True
  | Some w => (r <= length w)%nat
  end ->
  exists f,
    GlatAnneal.extract_features net args d prev_output_tokens early_exit
      embedding_copy feed_forward_weights = Ok f /\
    length (GlatAnneal.layer_inputs f) = r /\
    length (GlatAnneal.inner_states f) = S r /\
    length (GlatAnneal.all_layer_output_logits f) = Nat.max r 1 /\
    (r = 0%nat ->
     GlatAnneal.inner_states f = [x] /\
     GlatAnneal.all_layer_output_logits f = [GlatAnneal.output_layer net x]).
Proof.
  intros r Hemb Hw. unfold GlatAnneal.extract_features. rewrite Hemb. csimpl.
  set (st0 := {| GlatAnneal.x_out := x |}).
  destruct (run_layers_spec net args early_exit feed_forward_weights
              (Torch.eq prev_output_tokens (pad d)) (GlatAnneal.layers net) 0 st0)
    as (st' & xs & nxs & Hrun & Hxs & Hnxs & Hin & Hli & Hx & Hall & _).
  { fold r. by destruct feed_forward_weights. }
  fold r in Hxs, Hnxs, Hall.
  rewrite Hrun. csimpl. eexists. split; [reflexivity|]. simpl.
  split; [by rewrite Hli|]. split; [rewrite Hin; simpl; lia|].
  split.
  - rewrite Hall. simpl. rewrite length_app, length_fmap, length_drop.
    destruct r as [|r']; simpl; [lia|].
    rewrite length_take. simpl. lia.
  - intros Hr0. rewrite Hr0 in *. destruct xs; [|done].
    rewrite Hin, Hall, Hx. done.
Qed.

(** [extract_features] with too few weights. *)
Lemma extract_features_short (prev_output_tokens : list (list Z))
    (early_exit : option Z) (embedding_copy : bool)
    (w : list (list GlatAnneal.weight)) (x : GlatAnneal.Hidden net) :
  GlatAnneal.embed net d prev_output_tokens embedding_copy = Ok x ->
  (length w < GlatAnneal.layers_run early_exit 0 (length (GlatAnneal.layers net)))%nat ->
  GlatAnneal.extract_features net args d prev_output_tokens early_exit
    embedding_copy (Some w) = Raise IndexError.
Proof.
  intros Hemb Hlt. unfold GlatAnneal.extract_features. rewrite Hemb. csimpl.
  rewrite run_layers_short; [done|lia|lia].
Qed.

(** X5.  The decoder core for every early exit.  It runs no layer for an
    early exit of 0 or less, all layers for none or one beyond their number.
    The embedding comes first: without [embedding_copy] it succeeds, and
    when it fails, as the copy of the source embeddings can, the core fails
    with its exception.  When it succeeds, then with no weights, or at
    least one weight per layer that runs, the core returns a list of logits
    that is never empty: one entry per layer run, and the output head on
    the embedded input when no layer runs; with fewer weights than layers
    to run it raises [IndexError]. *)
Theorem extract_features_early_exit_edges (prev_output_tokens : list (list Z))
    (early_exit : option Z) (embedding_copy : bool)
    (feed_forward_weights : option (list (list GlatAnneal.weight))) :
  let n := length (GlatAnneal.layers net) in
  let r := GlatAnneal.layers_run early_exit 0 n in
  let run := GlatAnneal.extract_features net args d prev_output_tokens early_exit
               embedding_copy feed_forward_weights in
  (r = match early_exit with
       | None => n
       | Some e => if e <=? 0 then 0%nat else Nat.min n (Z.to_nat e)
       end) /\
  (embedding_copy = false ->
   GlatAnneal.embed net d prev_output_tokens embedding_copy
   = Ok (GlatAnneal.forward_embedding net prev_output_tokens None)) /\
  (forall e, GlatAnneal.embed net d prev_output_tokens embedding_copy = Raise e ->
             run = Raise e) /\
  (forall x, GlatAnneal.embed net d prev_output_tokens embedding_copy = Ok x ->
     (match feed_forward_weights with
      | None => True
      | Some w => (r <= length w)%nat
      end ->
      exists f,
        run = Ok f /\
        length (GlatAnneal.layer_inputs f) = r /\
        length (GlatAnneal.inner_states f) = S r /\
        length (GlatAnneal.all_layer_output_logits f) = Nat.max r 1 /\
        (r = 0%nat ->
         GlatAnneal.inner_states f = [x] /\
         GlatAnneal.all_layer_output_logits f = [GlatAnneal.output_layer net x])) /\
     (forall w, feed_forward_weights = Some w -> (length w < r)%nat ->
                run = Raise IndexError)).
Proof.
  intros n r run. split; [|split; [|split]].
  - unfold r, GlatAnneal.layers_run. destruct early_exit as [e|]; [|done].
    destruct (Z.leb_spec e 0); lia.
  - by intros ->.
  - intros e He. by apply extract_features_embed_raise.
  - intros x Hemb. split.
    + by apply extract_features_count.
    + intros w -> Hlt. by apply (extract_features_short _ _ _ _ x).
Qed.

End DecoderEdges.

Lemma extract_features_early_exit_edges_witness :
  (exists f,
     GlatAnneal.extract_features Examples.toy_net Examples.glat_args Examples.dict
       Examples.prev_tokens (Some 0) false None = Ok f /\
     GlatAnneal.all_layer_output_logits f = [Examples.prev_tokens]) /\
  GlatAnneal.extract_features Examples.toy_net Examples.glat_args Examples.dict
    [[0; 1; 1; 1]] None true None = Raise RuntimeError.
Proof.
  split.
  - destruct (extract_features_early_exit_edges Examples.toy_net Examples.glat_args
                Examples.dict Examples.prev_tokens (Some 0) false None)
      as (_ & _ & _ & H).
    destruct (H Examples.prev_tokens eq_refl) as [H1 _].
    destruct (H1 I) as (f & Hrun & _ & _ & _ & H0).
    exists f. split; [exact Hrun|]. destruct (H0 eq_refl) as [_ Hl]. exact Hl.
  - destruct (extract_features_early_exit_edges Examples.toy_net Examples.glat_args
                Examples.dict [[0; 1; 1; 1]] None true None)
      as (_ & _ & H & _).
    apply H. reflexivity.
Defined.

Section ForwardGlancing.
Import Torch.
Variable net : GlatAnneal.Network.
Variable args : GlatAnneal.Args.
Variable d : Dictionary.

Lemma py_index_range {A} (l : list A) (i : Z) :
  (- Z.of_nat (length l) <= i < Z.of_nat (length l) ->
   exists a, py_index l i = Ok a /\
             l !! Z.to_nat (if i <? 0 then Z.of_nat (length l) + i else i) = Some a) /\
  (~ (- Z.of_nat (length l) <= i < Z.of_nat (length l)) ->
   py_index l i = Raise IndexError).
Proof.
  unfold py_index. cbv zeta. split; intros Hi.
  - set (j := if i <? 0 then Z.of_nat (length l) + i else i).
    assert (0 <= j < Z.of_nat (length l)) as Hj
      by (unfold j; destruct (Z.ltb_spec i 0); lia).
    destruct (Z.ltb_spec j 0); [lia|].
    destruct (lookup_lt_is_Some_2 l (Z.to_nat j)) as [a Ha]; [lia|].
    exists a. by rewrite Ha.
  - set (j := if i <? 0 then Z.of_nat (length l) + i else i).
    destruct (Z.ltb_spec j 0); [done|].
    rewrite lookup_ge_None_2; [done|].
    unfold j in *. destruct (Z.ltb_spec i 0); lia.
Qed.

(** The decoder without an early exit: after the embedding it runs every
    layer. *)
Lemma decoder_all_layers (normalize : bool) (prev_output_tokens : list (list Z))
    (step : Z) (feed_forward_weights : option (list (list GlatAnneal.weight)))
    (x : GlatAnneal.Hidden net) :
  let n := length (GlatAnneal.layers net) in
  GlatAnneal.embed net d prev_output_tokens
    ((step =? 0) && GlatAnneal.src_embedding_copy args) = Ok x ->
  (match feed_forward_weights with
   | None => True
   | Some w => (n <= length w)%nat
   end ->
   exists l,
     GlatAnneal.decoder net args d normalize prev_output_tokens step
       feed_forward_weights = Ok l /\
     length l = Nat.max n 1) /\
  (forall w, feed_forward_weights = Some w -> (length w < n)%nat ->
             GlatAnneal.decoder net args d normalize prev_output_tokens step
               feed_forward_weights = Raise IndexError).
Proof.
  intros n Hemb.
  split.
  - intros Hw.
    destruct (extract_features_count net args d prev_output_tokens None
                ((step =? 0) && GlatAnneal.src_embedding_copy args)
                feed_forward_weights x Hemb Hw) as (f & Hrun & _ & _ & Hlen & _).
    cbn [GlatAnneal.layers_run] in Hlen. fold n in Hlen.
    unfold GlatAnneal.decoder. rewrite Hrun. csimpl.
    eexists. split; [reflexivity|]. by rewrite length_fmap.
  - intros w -> Hlt. unfold GlatAnneal.decoder.
    by rewrite (extract_features_short net args d _ _ _ _ x Hemb).
Qed.

Lemma decoder_embed_raise (normalize : bool) (prev_output_tokens : list (list Z))
    (step : Z) (feed_forward_weights : option (list (list GlatAnneal.weight)))
    (e : exn) :
  GlatAnneal.embed net d prev_output_tokens
    ((step =? 0) && GlatAnneal.src_embedding_copy args) = Raise e ->
  GlatAnneal.decoder net args d normalize prev_output_tokens step
    feed_forward_weights = Raise e.
Proof.
  intros H. unfold GlatAnneal.decoder.
  by rewrite (extract_features_embed_raise net args d _ _ _ _ e H).
Qed.



End ForwardGlancing.

Section ForwardReturns.
Import Torch.
Variable net : GlatAnneal.Network.
Variable args : GlatAnneal.Args.
Variable d : Dictionary.


(** X7.  Without glancing ([glat] is [None], empty, or has neither
    ["context_p"] nor ["schedule"]) a call of [forward] outside training
    does what the embedding of its input does: when that succeeds it
    returns with the decoder input and the targets unchanged, no
    statistics, no weights, and one output entry per layer; when it fails
    the call fails with its exception.  Without target tokens [forward]
    raises [AttributeError] in every mode. *)
Theorem forward_without_glancing (training : bool)
    (prev_output_tokens tgt_tokens : list (list Z))
    (glat : option (gmap string Q)) (train_ratio : option Q)
    (rand : list (list Q)) :
  let run := GlatAnneal.forward net args d false prev_output_tokens
               (Some tgt_tokens) glat train_ratio rand in
  let emb := GlatAnneal.embed net d prev_output_tokens
               (GlatAnneal.src_embedding_copy args) in
  GlatAnneal.forward net args d training prev_output_tokens None glat train_ratio rand
  = Raise AttributeError /\
  (glat = None \/
   (exists g, glat = Some g /\
              g !! "context_p"%string = None /\ g !! "schedule"%string = None) ->
   (forall e, emb = Raise e -> run = Raise e) /\
   (forall x, emb = Ok x ->
      exists r,
        run = Ok r /\
        GlatAnneal.decoder_input r = prev_output_tokens /\
        GlatAnneal.ret_tgt r = tgt_tokens /\
        GlatAnneal.ret_mask r = ne tgt_tokens (pad d) /\
        GlatAnneal.ret_glat_info r = None /\
        GlatAnneal.ret_anneal_info r = None /\
        GlatAnneal.decoder_weights r = None /\
        length (GlatAnneal.word_ins_out r)
        = Nat.max (length (GlatAnneal.layers net)) 1)).
Proof.
  intros run emb. split; [reflexivity|]. intros Hglat.
  assert (forall res,
            GlatAnneal.decoder net args d false prev_output_tokens 0 None = res ->
            run = (word_ins_out_list ← res;
                   Ok {| GlatAnneal.word_ins_out := word_ins_out_list;
                         GlatAnneal.ret_tgt := tgt_tokens;
                         GlatAnneal.ret_mask := ne tgt_tokens (pad d);
                         GlatAnneal.ret_glat_info := None;
                         GlatAnneal.ret_anneal_info := None;
                         GlatAnneal.decoder_input := prev_output_tokens;
                         GlatAnneal.decoder_weights := None |})) as Hrun.
  { intros res <-. unfold run, GlatAnneal.forward. csimpl.
    destruct Hglat as [->|(g & -> & Hc & Hs)].
    - reflexivity.
    - rewrite Hc, Hs. by case_bool_decide. }
  split.
  - intros e He. rewrite (Hrun _ eq_refl).
    by rewrite (decoder_embed_raise net args d false prev_output_tokens 0 None e He).
  - intros x Hx.
    destruct (decoder_all_layers net args d false prev_output_tokens 0 None x Hx)
      as [Hdec _].
    destruct (Hdec I) as (l & Hl & Hlen).
    eexists. split; [by rewrite (Hrun _ Hl)|].
    cbn [GlatAnneal.word_ins_out GlatAnneal.decoder_weights GlatAnneal.decoder_input
         GlatAnneal.ret_tgt GlatAnneal.ret_mask GlatAnneal.ret_glat_info
         GlatAnneal.ret_anneal_info].
    by repeat split.
Qed.

End ForwardReturns.


Lemma forward_without_glancing_witness :
  exists r,
    GlatAnneal.forward Examples.toy_net Examples.glat_args Examples.dict false
      Examples.prev_tokens (Some Examples.tgt_tokens) None None Examples.draws
    = Ok r /\
    GlatAnneal.decoder_input r = Examples.prev_tokens.
Proof.
  destruct (forward_without_glancing Examples.toy_net Examples.glat_args
              Examples.dict false Examples.prev_tokens Examples.tgt_tokens None None
              Examples.draws) as [_ H].
  destruct H as [_ H]; [by left|].
  destruct (H Examples.prev_tokens eq_refl) as (r & Hrun & Hin & _).
  exists r. split; [exact Hrun|exact Hin].
Defined.

Section InferenceLayer.
Import Torch.
Variable d : Dictionary.

(** X8.  [forward_decoder] of the glancing model first embeds the tokens
    of the state, at step 0 with [src_embedding_copy] by copying source
    embeddings; when the embedding fails, the step fails with its
    exception.  When it succeeds, the step reads entry
    [inference_decoder_layer] of the list of per-layer logits, which has one
    entry per decoder layer (one for a decoder without layers).  An index
    from minus that number up to that number minus 1 selects an entry, a
    negative one counting from the end, and the step returns with the
    tokens refined from that entry; any other index raises [IndexError]. *)
Theorem glat_inference_layer_bounds (net : GlatAnneal.Network)
    (args : GlatAnneal.Args) (decoder_out : DecoderOut) (h : gmap loc obj)
    (toks : list (list Z)) (scores : list (list Q)) :
  valid_state decoder_out h toks scores ->
  let L := Z.of_nat (Nat.max (length (GlatAnneal.layers net)) 1) in
  let i := GlatAnneal.inference_decoder_layer args in
  let j := Z.to_nat (if i <? 0 then L + i else i) in
  let emb := GlatAnneal.embed net d toks
               ((step decoder_out =? 0) && GlatAnneal.src_embedding_copy args) in
  (forall e, emb = Raise e ->
             GlatAnneal.forward_decoder net args d decoder_out h = Raise e) /\
  (forall x, emb = Ok x ->
     (- L <= i < L ->
      exists l logits out h',
        GlatAnneal.decoder net args d true toks (step decoder_out) None = Ok l /\
        Z.of_nat (length l) = L /\
        l !! j = Some logits /\
        GlatAnneal.forward_decoder net args d decoder_out h = Ok (out, h') /\
        h' !! output_tokens out
        = Some (TokensT (masked_scatter toks (ne toks (pad d))
                           (masked_select (GlatAnneal.max_last net logits).2
                              (ne toks (pad d)))))) /\
     (~ (- L <= i < L) ->
      GlatAnneal.forward_decoder net args d decoder_out h = Raise IndexError)).
Proof.
  intros Hvalid L i j emb. split.
  - intros e He. destruct Hvalid as (Ht & _).
    unfold GlatAnneal.forward_decoder, read_tokens. rewrite Ht.
    cbn [mbind result_bind].
    by rewrite (decoder_embed_raise net args d true toks (step decoder_out) None e He).
  - intros x Hx.
    destruct (decoder_all_layers net args d true toks (step decoder_out) None x Hx)
      as [Hdec _]. destruct (Hdec I) as (l & Hl & Hlen).
    assert (Z.of_nat (length l) = L) as HL by (unfold L; lia).
    destruct (py_index_range l i) as [Hin Hout]. rewrite HL in Hin, Hout.
    split.
    + intros Hi. destruct (Hin Hi) as (logits & Hidx & Hlook).
      destruct (glat_forward_decoder_in_place d net args decoder_out h toks scores
                  l logits Hvalid Hl Hidx) as (out & h' & Hfd & Hot & _ & Htok & _).
      exists l, logits, out, h'. split; [done|]. split; [done|].
      split; [exact Hlook|]. split; [done|]. by rewrite Hot.
    + intros Hi. destruct Hvalid as (Ht & _).
      unfold GlatAnneal.forward_decoder, read_tokens. rewrite Ht.
      cbn [mbind result_bind]. rewrite Hl. cbn [mbind result_bind].
      fold i. by rewrite (Hout Hi).
Qed.

End InferenceLayer.

Lemma glat_inference_layer_bounds_witness :
  exists out h',
    GlatAnneal.forward_decoder Examples.toy_net Examples.glat_args Examples.dict
      Examples.state0 Examples.heap0 = Ok (out, h').
Proof.
  destruct (glat_inference_layer_bounds Examples.dict Examples.toy_net
              Examples.glat_args Examples.state0 Examples.heap0
              [[0; 3; 2; 1]] [[0; 0; 0; 0]]%Q) as [_ H].
  - repeat split.
  - destruct (H [[0; 3; 2; 1]] eq_refl) as [H1 _].
    destruct H1 as (l & logits & out & h' & _ & _ & _ & Hrun & _).
    + simpl. lia.
    + exists out, h'. exact Hrun.
Defined.

Section History.
Import Torch.
Variable d : Dictionary.

Lemma history_append_clone_Some (h : gmap loc obj) (hl tokens : loc)
    (t : list (list Z)) (es : list loc) :
  h !! tokens = Some (TokensT t) ->
  h !! hl = Some (HistoryL es) ->
  exists c,
    h !! c = None /\
    history_append_clone h (Some hl) tokens
    = Ok (<[hl := HistoryL (es ++ [c])]> (<[c := TokensT t]> h)).
Proof.
  intros Ht Hh. exists (fresh (dom h)). split.
  - apply not_elem_of_dom, is_fresh.
  - unfold history_append_clone, read_tokens, read_history. rewrite Ht.
    cbn [mbind result_bind]. rewrite Hh. cbn [mbind result_bind]. reflexivity.
Qed.

(** X9.  A step of [forward_decoder] of the glancing model on a state
    that keeps a history appends exactly one entry to the history list: a
    new tensor, different from the state's token tensor, that holds the
    tokens after the step.  Apart from the token tensor, the score tensor
    and the history list, no object that existed before is changed, so
    the entries recorded earlier stay as they were. *)
Theorem glat_forward_decoder_history (net : GlatAnneal.Network)
    (args : GlatAnneal.Args) (decoder_out : DecoderOut) (h : gmap loc obj)
    (toks : list (list Z)) (scores : list (list Q))
    (l : list (GlatAnneal.Logits net)) (logits : GlatAnneal.Logits net)
    (hl : loc) (es : list loc) :
  h !! output_tokens decoder_out = Some (TokensT toks) ->
  h !! output_scores decoder_out = Some (ScoresT scores) ->
  history decoder_out = Some hl ->
  h !! hl = Some (HistoryL es) ->
  GlatAnneal.decoder net args d true toks (step decoder_out) None = Ok l ->
  py_index l (GlatAnneal.inference_decoder_layer args) = Ok logits ->
  let mask := ne toks (pad d) in
  let refined := masked_scatter toks mask
                   (masked_select (GlatAnneal.max_last net logits).2 mask) in
  exists out h' c,
    GlatAnneal.forward_decoder net args d decoder_out h = Ok (out, h') /\
    history out = Some hl /\
    h' !! hl = Some (HistoryL (es ++ [c])) /\
    h !! c = None /\
    c <> output_tokens out /\
    h' !! c = Some (TokensT refined) /\
    h' !! output_tokens out = Some (TokensT refined) /\
    forall e : loc,
      is_Some (h !! e) ->
      e <> output_tokens decoder_out -> e <> output_scores decoder_out -> e <> hl ->
      h' !! e = h !! e.
Proof.
  intros Ht Hs Hhist Hh Hl Hidx mask refined.
  set (tk := output_tokens decoder_out) in *.
  set (sc := output_scores decoder_out) in *.
  assert (tk <> sc) as Hts by congruence.
  assert (tk <> hl) as Hth by congruence.
  assert (sc <> hl) as Hsh by congruence.
  set (new_scores := masked_scatter scores mask
                       (masked_select (GlatAnneal.max_last net logits).1 mask)).
  set (h2 := <[sc := ScoresT new_scores]> (<[tk := TokensT refined]> h)).
  assert (h2 !! tk = Some (TokensT refined)) as Ht2.
  { unfold h2. rewrite lookup_insert_ne by done. apply lookup_insert_eq. }
  assert (h2 !! hl = Some (HistoryL es)) as Hh2.
  { unfold h2. by rewrite !lookup_insert_ne by done. }
  destruct (history_append_clone_Some h2 hl tk refined es Ht2 Hh2)
    as (c & Hc & Happ).
  assert (h !! c = None) as Hc0.
  { unfold h2 in Hc.
    destruct (decide (c = sc)) as [->|Hcs]; [by rewrite lookup_insert_eq in Hc|].
    rewrite lookup_insert_ne in Hc by done.
    destruct (decide (c = tk)) as [->|Hct]; [by rewrite lookup_insert_eq in Hc|].
    by rewrite lookup_insert_ne in Hc by done. }
  assert (c <> tk) as Hctk by congruence.
  assert (c <> hl) as Hchl by congruence.
  eexists. eexists. exists c. split.
  { unfold GlatAnneal.forward_decoder, read_tokens. fold tk sc. rewrite Ht.
    cbn [mbind result_bind]. rewrite Hl. cbn [mbind result_bind].
    rewrite Hidx. cbn [mbind result_bind]. unfold read_scores.
    rewrite lookup_insert_ne by done. rewrite Hs. cbn [mbind result_bind].
    rewrite Hhist. fold mask refined new_scores h2. rewrite Happ.
    cbn [mbind result_bind]. reflexivity. }
  cbn [history output_tokens].
  split; [done|]. split; [apply lookup_insert_eq|]. split; [done|].
  split; [done|].
  split. { rewrite lookup_insert_ne by done. apply lookup_insert_eq. }
  split. { by rewrite !lookup_insert_ne by done. }
  intros e [o He] Het Hes Heh.
  rewrite lookup_insert_ne by done.
  rewrite lookup_insert_ne by congruence.
  unfold h2. by rewrite !lookup_insert_ne by done.
Qed.

(** X10.  In the beam-search branch of the CTC [forward_decoder] the entry
    appended to the history is a copy of the tokens given to the step, not
    of the hypothesis the step returns: the returned token tensor is a
    third object, holding the top beam padded beyond its length. *)
Theorem ctc_beam_history_keeps_input (net : CtcSd.Network)
    (args : CtcSd.Args) (decoder_out : DecoderOut) (h : gmap loc obj)
    (toks : list (list Z)) (logits : list (list (CtcSd.Vec net)))
    (top : list (list Z)) (lens : list Z) (hl : loc) (es : list loc) :
  CtcSd.plain_ctc args = false ->
  h !! output_tokens decoder_out = Some (TokensT toks) ->
  history decoder_out = Some hl ->
  h !! hl = Some (HistoryL es) ->
  py_index (CtcSd.decoder net toks (step decoder_out))
    (CtcSd.inference_decoder_layer args) = Ok logits ->
  let br := CtcSd.ctc_decode net logits (sum1 (ne toks (pad d))) in
  mapM (fun beams : list (list Z) => py_index beams 0) br.1 = Ok top ->
  mapM (fun ls : list Z => py_index ls 0) br.2 = Ok lens ->
  exists out h' c,
    CtcSd.forward_decoder net args d decoder_out h = Ok (out, h') /\
    h' !! hl = Some (HistoryL (es ++ [c])) /\
    h !! c = None /\
    h' !! c = Some (TokensT toks) /\
    c <> output_tokens out /\
    h' !! output_tokens out
    = Some (TokensT (zip_with (CtcSd.pad_beyond d) top lens)).
Proof.
  intros Hplain Ht Hhist Hh Hidx br Htop Hlens.
  destruct (history_append_clone_Some h hl (output_tokens decoder_out) toks es Ht Hh)
    as (c & Hc & Happ).
  set (h1 := <[hl := HistoryL (es ++ [c])]> (<[c := TokensT toks]> h)) in *.
  set (new_toks := zip_with (CtcSd.pad_beyond d) top lens).
  set (a := fresh (dom h1)).
  set (ha := <[a := TokensT new_toks]> h1).
  set (b := fresh (dom ha)).
  assert (h1 !! a = None) as Ha by (apply not_elem_of_dom, is_fresh).
  assert (ha !! b = None) as Hb by (apply not_elem_of_dom, is_fresh).
  assert (a <> b) as Hab.
  { intros E. rewrite <- E in Hb. unfold ha in Hb. by rewrite lookup_insert_eq in Hb. }
  assert (h1 !! b = None) as Hb1.
  { unfold ha in Hb. by rewrite lookup_insert_ne in Hb. }
  assert (c <> hl) as Hchl by congruence.
  assert (h1 !! hl = Some (HistoryL (es ++ [c]))) as H1h by apply lookup_insert_eq.
  assert (h1 !! c = Some (TokensT toks)) as H1c.
  { unfold h1. rewrite lookup_insert_ne by done. apply lookup_insert_eq. }
  eexists. eexists. exists c. split.
  { unfold CtcSd.forward_decoder, read_tokens. rewrite Ht.
    cbn [mbind result_bind]. rewrite Hidx. cbn [mbind result_bind].
    rewrite Hplain. cbv zeta. fold br. rewrite Htop. cbn [mbind result_bind].
    rewrite Hlens. cbn [mbind result_bind]. rewrite Hhist, Happ.
    cbn [mbind result_bind]. reflexivity. }
  cbn [output_tokens]. unfold alloc. cbn [fst snd].
  fold new_toks a ha b.
  split. { rewrite lookup_insert_ne by congruence. unfold ha.
           rewrite lookup_insert_ne by congruence. exact H1h. }
  split; [done|].
  split. { rewrite lookup_insert_ne by congruence. unfold ha.
           rewrite lookup_insert_ne by congruence. exact H1c. }
  split; [congruence|].
  rewrite lookup_insert_ne by done. unfold ha. apply lookup_insert_eq.
Qed.

End History.

Lemma glat_forward_decoder_history_witness :
  exists out h' c,
    GlatAnneal.forward_decoder Examples.toy_net Examples.glat_args Examples.dict
      Examples.state_h Examples.heap_h = Ok (out, h') /\
    h' !! 3%positive = Some (HistoryL [c]) /\
    h' !! c = Some (TokensT [[0; 12; 2; 1]]).
Proof.
  destruct (glat_forward_decoder_history Examples.dict Examples.toy_net
              Examples.glat_args Examples.state_h Examples.heap_h
              [[0; 3; 2; 1]] [[0; 0; 0; 0]]%Q
              [[[0; 3; 2; 1]]; [[0; 3; 2; 1]]] [[0; 3; 2; 1]] 3%positive [])
    as (out & h' & c & Hrun & _ & Hhist & _ & _ & Hc & _).
  - reflexivity.
  - reflexivity.
  - reflexivity.
  - reflexivity.
  - reflexivity.
  - reflexivity.
  - exists out, h', c. split; [exact Hrun|]. split; [exact Hhist|exact Hc].
Defined.

Lemma ctc_beam_history_keeps_input_witness :
  exists out h' c,
    CtcSd.forward_decoder Examples.toy_ctc_net Examples.ctc_args Examples.dict
      Examples.state_h Examples.heap_h = Ok (out, h') /\
    h' !! c = Some (TokensT [[0; 3; 2; 1]]) /\
    h' !! output_tokens out = Some (TokensT [[9; 9; 1; 1]]).
Proof.
  destruct (ctc_beam_history_keeps_input Examples.dict Examples.toy_ctc_net
              Examples.ctc_args Examples.state_h Examples.heap_h
              [[0; 3; 2; 1]] [[3; 3; 3; 3]]%Q [[9; 9; 9; 9]] [2] 3%positive [])
    as (out & h' & c & Hrun & _ & _ & Hc & _ & Hout).
  - reflexivity.
  - reflexivity.
  - reflexivity.
  - reflexivity.
  - reflexivity.
  - reflexivity.
  - reflexivity.
  - exists out, h', c. split; [exact Hrun|]. split; [exact Hc|exact Hout].
Defined.

Section GlancingExtremes.
Import Torch.
Variable d : Dictionary.

Lemma glat_unmasked (prev_output_tokens tgt_tokens : list (list Z))
    (mask : list (list bool)) (b c : nat) (p g : Z) :
  at2 prev_output_tokens b c = Some p ->
  at2 tgt_tokens b c = Some g ->
  at2 mask b c = Some false ->
  at2 (GlatAnneal.glat_prev_output_tokens prev_output_tokens tgt_tokens mask) b c
  = Some p /\
  at2 (GlatAnneal.glat_tgt_tokens d tgt_tokens mask) b c = Some g.
Proof.
  intros Hp Hg Hm. split.
  - unfold GlatAnneal.glat_prev_output_tokens.
    rewrite (at2_add2 _ _ p 0 b c).
    + f_equal. lia.
    + by rewrite (at2_masked_fill2 _ _ 0 p false b c).
    + rewrite (at2_masked_fill2 _ _ 0 g true b c); [done|done|].
      by rewrite (at2_invert _ false).
  - unfold GlatAnneal.glat_tgt_tokens.
    by rewrite (at2_masked_fill2 _ _ (pad d) g false b c).
Qed.

(** A keep probability with a zero count of wrong positions is 0 or
    [nan], and no draw that is not negative is below it. *)
Lemma zero_keep_prob (y z : Float32.t) (u : Q) :
  (0 <= u)%Q ->
  Float32.ltb (Float32.Fin u) (Float32.mul (Float32.div (Float32.Fin 0) y) z) = false.
Proof.
  intros Hu.
  assert (forall q, (q == 0)%Q -> Float32.ltb (Float32.Fin u) (Float32.round q) = false)
    as Hzero.
  { intros q Hq. rewrite (round_zero q Hq). simpl. unfold Qlt_bool.
    by apply negb_false_iff, Qle_bool_iff. }
  assert (Float32.div (Float32.Fin 0) y = Float32.Fin 0
          \/ Float32.div (Float32.Fin 0) y = Float32.NaN) as [->| ->].
  { destruct y as [b| |]; [|by left|by right].
    unfold Float32.div.
    destruct (b ?= 0)%Q; [by right| |]; left; apply round_zero; unfold Qdiv; ring. }
  - destruct z as [c|s|]; [|done|done].
    unfold Float32.mul. apply Hzero. ring.
  - done.
Qed.

(** X11.  Glancing leaves an example alone when the noisy prediction is
    right at every non-pad target position, and also when the target row
    is all padding (the keep probability is then not a number): for draws
    that are not negative the mask is false at every position of the
    row, the decoder input keeps the token it had and the target keeps its
    token, whatever [context_p] is. *)
Theorem glancing_skips_correct_rows
    (prev_output_tokens tgt_tokens pred_tokens : list (list Z))
    (rand : list (list Q)) (context_p : Q) (b : nat) (prow trow : list Z) :
  pred_tokens !! b = Some prow ->
  tgt_tokens !! b = Some trow ->
  length prow = length trow ->
  (forall (c : nat) (g : Z), trow !! c = Some g -> g <> pad d -> prow !! c = Some g) ->
  (forall (c : nat) (u : Q), at2 rand b c = Some u -> (0 <= u)%Q) ->
  let nonpad_positions := invert (eq tgt_tokens (pad d)) in
  let same := GlatAnneal.same_num pred_tokens tgt_tokens nonpad_positions in
  let kp := GlatAnneal.keep_prob context_p (sum1 nonpad_positions) same in
  let mask := GlatAnneal.keep_word_mask rand kp in
  forall (c : nat) (p g : Z) (u : Q),
    at2 prev_output_tokens b c = Some p ->
    at2 tgt_tokens b c = Some g ->
    at2 rand b c = Some u ->
    at2 mask b c = Some false /\
    at2 (GlatAnneal.glat_prev_output_tokens prev_output_tokens tgt_tokens mask) b c
    = Some p /\
    at2 (GlatAnneal.glat_tgt_tokens d tgt_tokens mask) b c = Some g.
Proof.
  intros Hprow Htrow Hlen Hright Hdraw nonpad_positions same kp mask c p g u Hp Hg Hu.
  pose proof (same_num_lookup d pred_tokens tgt_tokens b prow trow Hprow Htrow) as Hsn.
  pose proof (seq_lens_lookup d tgt_tokens b trow Htrow) as Hsl.
  fold nonpad_positions in Hsn, Hsl. fold same in Hsn.
  apply (sn_row_full d prow trow Hlen) in Hright.
  set (sl := GlatAnneal.sl_row d trow) in *.
  assert (exists k, kp !! b = Some k /\ Float32.ltb (Float32.Fin u) k = false)
    as (k & Hk & Hlt).
  { unfold kp, GlatAnneal.keep_prob.
    rewrite lookup_zip_with, Hsl. simpl. rewrite Hsn. simpl. rewrite Hright.
    eexists. split; [reflexivity|].
    rewrite Z.sub_diag. change (Float32.of_Z 0) with (Float32.Fin 0).
    apply zero_keep_prob. by apply (Hdraw c). }
  assert (at2 mask b c = Some false) as Hm.
  { unfold mask. rewrite (at2_keep_word_mask rand kp u k b c Hu Hk). by rewrite Hlt. }
  split; [exact Hm|]. by apply glat_unmasked.
Qed.

End GlancingExtremes.

Lemma glancing_skips_correct_rows_witness :
  Torch.at2
    (GlatAnneal.glat_prev_output_tokens Examples.prev_tokens Examples.tgt_tokens
       (GlatAnneal.keep_word_mask Examples.draws
          (GlatAnneal.keep_prob (1 # 2)
             (Torch.sum1 (Torch.invert (Torch.eq Examples.tgt_tokens 1)))
             (GlatAnneal.same_num Examples.tgt_tokens Examples.tgt_tokens
                (Torch.invert (Torch.eq Examples.tgt_tokens 1)))))) 0 2
  = Some 3.
Proof.
  destruct (glancing_skips_correct_rows Examples.dict Examples.prev_tokens
              Examples.tgt_tokens Examples.tgt_tokens Examples.draws (1 # 2)%Q
              0%nat [0; 12; 11; 2] [0; 12; 11; 2] eq_refl eq_refl eq_refl)
    with (c := 2%nat) (p := 3) (g := 11) (u := (1 # 16)%Q) as (_ & Hprev & _).
  - intros c g H _. exact H.
  - intros c u H.
    destruct c as [|[|[|[|c]]]]; simpl in H; try discriminate;
      injection H as <-; unfold Qle; simpl; lia.
  - reflexivity.
  - reflexivity.
  - reflexivity.
  - exact Hprev.
Defined.

Section CtcForward.
Import Torch.
Variable net : CtcSd.Network.
Variable args : CtcSd.Args.
Variable d : Dictionary.

(** The skeleton that [initialize_output_tokens_by_src_tokens] builds
    outside copy mode, in closed form. *)
Lemma initialize_rows (src_tokens : list (list Z)) :
  let k := CtcSd.src_upsample_scale args in
  let prods := (fun row => nonpad_count d row * k) <$> src_tokens in
  CtcSd.copy_src_token args = false ->
  src_tokens <> [] ->
  in_int64 k ->
  Forall (fun row => in_int64 (nonpad_count d row * k)) src_tokens ->
  CtcSd.initialize_output_tokens_by_src_tokens args d src_tokens
  = Some (Skeleton.row d (foldr Z.max 2 prods) <$> (clamp_min 2 <$> prods)) /\
  Forall (fun len => 2 <= len <= foldr Z.max 2 prods) (clamp_min 2 <$> prods).
Proof.
  intros k prods Hcopy Hne Hk Hprod.
  assert (Forall (fun len => 2 <= len <= foldr Z.max 2 prods) (clamp_min 2 <$> prods))
    as Hrng.
  { apply Forall_fmap, Forall_forall. intros x Hx. simpl.
    pose proof (foldr_max_upper prods 2) as Hup.
    rewrite Forall_forall in Hup. specialize (Hup x Hx).
    pose proof (foldr_max_floor prods 2). unfold clamp_min. lia. }
  split; [|exact Hrng].
  unfold CtcSd.initialize_output_tokens_by_src_tokens.
  rewrite Hcopy. simpl. rewrite sum1_ne_nonpad.
  assert (CtcSd.mul_scalar (nonpad_count d <$> src_tokens)
            (CtcSd.src_upsample_scale args) = Some prods) as ->.
  { unfold CtcSd.mul_scalar. rewrite bool_decide_eq_true_2 by done.
    f_equal. unfold prods. rewrite <- list_fmap_compose.
    apply Forall_fmap_ext_1. eapply Forall_impl; [exact Hprod|].
    intros row Hrow. simpl. by apply wrap64_id. }
  assert (Skeleton.fill d (clamp_min 2 <$> prods)
          = Some (Skeleton.row d (foldr Z.max 2 prods) <$> (clamp_min 2 <$> prods)))
    as Hfill.
  { apply fill_rows; [|exact Hrng|].
    - apply tensor_max_clamped. unfold prods. by destruct src_tokens.
    - apply foldr_max_lt; [lia|]. unfold prods. apply Forall_fmap.
      eapply Forall_impl; [exact Hprod|].
      intros row Hrow. unfold in_int64 in Hrow. simpl. fold k. lia. }
  by destruct (2 <? CtcSd.src_upsample_scale args); csimpl.
Qed.

(** The loop over the layers: the log does not depend on the logits. *)
Lemma all_layers_loop (prev_output_tokens tgt_tokens : list (list Z)) (reduce : bool)
    (ls : list (list (list (CtcSd.Vec net))))
    (acc : list (option Q) * Z * list Z) :
  let step := fun (acc : list (option Q) * Z * list Z) word_ins_out =>
    let r := CtcSd.sequence_ctc_loss_with_logits net word_ins_out
               (ne prev_output_tokens (pad d)) tgt_tokens (ne tgt_tokens (pad d))
               (blank_index d) (CtcSd.label_smoothing args) reduce in
    (CtcSd.add_loss acc.1.1 (CtcSd.scale (inject_Z 1) r.1), acc.1.2 + 1, acc.2 ++ r.2) in
  let W := (CtcSd.sequence_ctc_loss_with_logits net []
              (ne prev_output_tokens (pad d)) tgt_tokens (ne tgt_tokens (pad d))
              (blank_index d) (CtcSd.label_smoothing args) reduce).2 in
  (foldl step acc ls).1.2 = acc.1.2 + Z.of_nat (length ls) /\
  (foldl step acc ls).2 = acc.2 ++ concat (replicate (length ls) W).
Proof.
  intros step W. revert acc. induction ls as [|x ls IH]; intros acc.
  - simpl. split; [lia|by rewrite app_nil_r].
  - cbn [foldl]. destruct (IH (step acc x)) as [IH1 IH2].
    rewrite IH1, IH2. unfold step. cbn [fst snd length replicate concat].
    split; [lia|]. rewrite <- app_assoc. reflexivity.
Qed.

Lemma all_layers_loss (prev_output_tokens tgt_tokens : list (list Z))
    (ls : list (list (list (CtcSd.Vec net)))) (cs : list Q)
    (acc : list (option Q) * Z * list Z) (a : Q) :
  let layer_loss := fun word_ins_out =>
    CtcSd.sequence_ctc_loss_with_logits net word_ins_out
      (ne prev_output_tokens (pad d)) tgt_tokens (ne tgt_tokens (pad d))
      (blank_index d) (CtcSd.label_smoothing args) true in
  let step := fun (acc : list (option Q) * Z * list Z) word_ins_out =>
    let r := layer_loss word_ins_out in
    (CtcSd.add_loss acc.1.1 (CtcSd.scale (inject_Z 1) r.1), acc.1.2 + 1, acc.2 ++ r.2) in
  Forall2 (fun word_ins_out c => (layer_loss word_ins_out).1 = [Some c]) ls cs ->
  acc.1.1 = [Some a] ->
  exists q, (foldl step acc ls).1.1 = [Some q] /\ (q == a + foldr Qplus 0 cs)%Q.
Proof.
  intros layer_loss step Hcs. revert acc a.
  induction Hcs as [|x c ls cs Hx Hcs IH]; intros acc a Hacc.
  - exists a. split; [done|]. simpl. ring.
  - cbn [foldl].
    destruct (IH (step acc x) (a + inject_Z 1 * c)%Q) as (q & Hq & Heq).
    { unfold step. cbn [fst snd]. fold (layer_loss x). by rewrite Hacc, Hx. }
    exists q. split; [exact Hq|]. rewrite Heq. simpl.
    change (inject_Z 1) with 1%Q. ring.
Qed.

(** X12.  Without cross-layer sampling the CTC loss of [forward] is the
    mean over the decoder layers: with a finite reduced loss [c] for every
    layer, the result is the sum of the [c] divided by the number of
    layers.  For a decoder that returns no logits the division is 0 by 0
    and [ZeroDivisionError] is raised. *)
Theorem ctc_forward_layer_average (src_tokens tgt_tokens prev : list (list Z))
    (cs : list Q) (randint : nat -> list nat) :
  CtcSd.num_cross_layer_sample args = 0 ->
  CtcSd.initialize_output_tokens_by_src_tokens args d src_tokens = Some prev ->
  let output_logits_list := CtcSd.decoder net prev 0 in
  let layer_loss := fun word_ins_out =>
    CtcSd.sequence_ctc_loss_with_logits net word_ins_out
      (ne prev (pad d)) tgt_tokens (ne tgt_tokens (pad d))
      (blank_index d) (CtcSd.label_smoothing args) true in
  (output_logits_list = [] ->
   CtcSd.forward net args d src_tokens tgt_tokens true randint
   = Raise ZeroDivisionError) /\
  (output_logits_list <> [] ->
   Forall2 (fun word_ins_out c => (layer_loss word_ins_out).1 = [Some c])
     output_logits_list cs ->
   exists q log,
     CtcSd.forward net args d src_tokens tgt_tokens true randint
     = Ok ([Some q], log) /\
     (q == foldr Qplus 0 cs / inject_Z (Z.of_nat (length cs)))%Q /\
     length cs = length output_logits_list).
Proof.
  intros Hn Hinit output_logits_list layer_loss.
  unfold CtcSd.forward. rewrite Hinit, Hn. simpl negb. cbv iota.
  fold output_logits_list. unfold CtcSd.forward_all_layers.
  split.
  - intros ->. reflexivity.
  - intros Hne Hcs.
    destruct (all_layers_loop prev tgt_tokens true output_logits_list
                ([Some 0%Q], 0, [])) as [Hf _].
    destruct (all_layers_loss prev tgt_tokens output_logits_list cs
                ([Some 0%Q], 0, []) 0%Q Hcs eq_refl) as (q & Hq & Heq).
    cbv zeta in Hf, Hq. cbn [fst snd] in Hf.
    set (acc := foldl _ _ output_logits_list) in *.
    rewrite Hf. rewrite Z.add_0_l.
    assert (length output_logits_list <> 0%nat) as Hlen by (by destruct output_logits_list).
    destruct (Z.eqb_spec (Z.of_nat (length output_logits_list)) 0) as [E|E]; [lia|].
    rewrite Hq. simpl. unfold CtcSd.div_entry.
    destruct (Z.eqb_spec (Z.of_nat (length output_logits_list)) 0) as [E'|_]; [lia|].
    simpl. eexists. eexists. split; [reflexivity|].
    pose proof (Forall2_length _ _ _ Hcs) as Hl.
    split; [|done]. rewrite Heq, Hl. rewrite Qplus_0_l. reflexivity.
Qed.

(** X13.  The warnings of the training pass outside copy mode.  The
    logit length of an example is the larger of 2 and its source length
    times the upsample scale.  [forward] logs nothing exactly when every
    example's target length is at most its logit length; otherwise every
    decoder layer logs the same positive number. *)
Theorem ctc_forward_warnings (src_tokens tgt_tokens : list (list Z))
    (reduce : bool) (randint : nat -> list nat) :
  let k := CtcSd.src_upsample_scale args in
  CtcSd.num_cross_layer_sample args = 0 ->
  CtcSd.copy_src_token args = false ->
  special_distinct d ->
  src_tokens <> [] ->
  length src_tokens = length tgt_tokens ->
  in_int64 k ->
  Forall (fun row => in_int64 (nonpad_count d row * k)) src_tokens ->
  let fits := Forall2 (fun srow trow =>
                         nonpad_count d trow <= Z.max (nonpad_count d srow * k) 2)
                src_tokens tgt_tokens in
  exists prev,
    CtcSd.initialize_output_tokens_by_src_tokens args d src_tokens = Some prev /\
    let L := length (CtcSd.decoder net prev 0) in
    (L <> 0%nat ->
     exists loss log,
       CtcSd.forward net args d src_tokens tgt_tokens reduce randint = Ok (loss, log) /\
       (log = [] <-> fits) /\
       (~ fits -> exists n, 0 < n /\ log = replicate L n)).
Proof.
  intros k Hn Hcopy Hd Hne Hlen Hk Hprod fits.
  destruct (initialize_rows src_tokens Hcopy Hne Hk Hprod) as [Hinit Hrng].
  fold k in Hinit, Hrng.
  set (prods := (fun row => nonpad_count d row * k) <$> src_tokens) in *.
  set (T := foldr Z.max 2 prods) in *.
  set (prev := Skeleton.row d T <$> (clamp_min 2 <$> prods)) in *.
  exists prev. split; [exact Hinit|]. intros L HL.
  unfold CtcSd.forward. rewrite Hinit, Hn. simpl negb. cbv iota.
  fold L. unfold CtcSd.forward_all_layers.
  destruct (all_layers_loop prev tgt_tokens reduce (CtcSd.decoder net prev 0)
              ([Some 0%Q], 0, [])) as [Hf Hlog].
  cbv zeta in Hf, Hlog. cbn [fst snd] in Hf, Hlog.
  set (acc := foldl _ _ (CtcSd.decoder net prev 0)) in *.
  rewrite Hf, Z.add_0_l. fold L.
  destruct (Z.eqb_spec (Z.of_nat L) 0) as [E|_]; [lia|].
  eexists. eexists. split; [reflexivity|]. rewrite Hlog. cbn [app]. fold L.
  destruct (sequence_ctc_loss_log net [] (ne prev (pad d)) tgt_tokens
              (ne tgt_tokens (pad d)) (blank_index d) (CtcSd.label_smoothing args)
              reduce) as [Hempty Hone].
  { unfold ne, prev, prods. by rewrite !length_fmap. }
  cbv zeta in Hempty, Hone.
  set (W := (CtcSd.sequence_ctc_loss_with_logits net [] _ _ _ _ _ _).2) in *.
  assert (Forall2 (fun a b : Z => b <= a) (sum1 (ne prev (pad d)))
            (sum1 (ne tgt_tokens (pad d))) <-> fits) as Hfits.
  { rewrite !sum1_ne_nonpad. unfold prev, prods, fits.
    rewrite <- !list_fmap_compose.
    rewrite Forall2_fmap. 
    assert (Forall (fun srow =>
                      (nonpad_count d ∘ (Skeleton.row d T ∘ (clamp_min 2 ∘
                         (fun row => nonpad_count d row * k)))) srow
                      = Z.max (nonpad_count d srow * k) 2) src_tokens) as Hrows.
    { apply Forall_forall. intros srow Hin. simpl.
      apply nonpad_count_row; [done|].
      rewrite Forall_forall in Hrng. apply Hrng.
      apply list_elem_of_fmap. exists (nonpad_count d srow * k). split; [done|].
      unfold prods. apply list_elem_of_fmap. by exists srow. }
    rewrite !Forall2_same_length_lookup.
    split; intros [Hl H]; (split; [done|]); intros i srow trow Hs Ht;
      specialize (H i srow trow Hs Ht);
      pose proof (Forall_lookup_1 _ _ _ _ Hrows Hs) as Hrow;
      simpl in Hrow, H |- *; lia. }
  split.
  - destruct W as [|w W'].
    + destruct L; [done|]. simpl.
      assert (concat (replicate L []) = @nil Z) as ->.
      { clear. induction L; [done|]. simpl. done. }
      split; [intros _; by apply Hfits, Hempty | done].
    + split.
      * intros H. destruct L; [done|]. simpl in H. done.
      * intros H. apply Hfits, Hempty in H. done.
  - intros Hnot.
    destruct Hone as (n & Hpos & HW).
    { intros E. apply Hnot, Hfits, Hempty, E. }
    exists n. split; [done|]. rewrite HW.
    clear. induction L; [done|]. simpl. by rewrite IHL.
Qed.

End CtcForward.

Lemma ctc_forward_layer_average_witness :
  exists q log,
    CtcSd.forward Examples.toy_ctc_net Examples.ctc_args Examples.dict
      [[5; 6]] [[0; 11; 2]] true Examples.layer_draw = Ok ([Some q], log) /\
    (q == 8)%Q.
Proof.
  destruct (ctc_forward_layer_average Examples.toy_ctc_net Examples.ctc_args
              Examples.dict [[5; 6]] [[0; 11; 2]] [[0; 3; 3; 2]] [4; 12]%Q
              Examples.layer_draw eq_refl eq_refl) as [_ H].
  destruct H as (q & log & Hrun & Hq & _).
  - discriminate.
  - repeat constructor.
  - exists q, log. split; [exact Hrun|]. rewrite Hq. reflexivity.
Defined.

Lemma ctc_forward_warnings_witness :
  exists loss,
    CtcSd.forward Examples.toy_ctc_net Examples.ctc_args Examples.dict
      [[5; 6]] [[0; 11; 2]] true Examples.layer_draw = Ok (loss, []).
Proof.
  destruct (ctc_forward_warnings Examples.toy_ctc_net Examples.ctc_args Examples.dict
              [[5; 6]] [[0; 11; 2]] true Examples.layer_draw)
    as (prev & Hinit & H).
  - reflexivity.
  - reflexivity.
  - apply (bool_decide_unpack _). vm_compute. exact I.
  - discriminate.
  - reflexivity.
  - unfold Torch.in_int64. simpl. lia.
  - repeat constructor; vm_compute; congruence.
  - injection Hinit as <-.
    destruct H as (loss & log & Hrun & Hempty & _); [discriminate|].
    exists loss. rewrite Hrun. f_equal. f_equal. apply Hempty.
    repeat constructor. vm_compute. congruence.
Defined.

Section BeamOne.
Import Torch.
Variable d : Dictionary.

Lemma concat_fmap_singleton {A B} (f : A -> B) (l : list A) :
  concat ((fun x => [f x]) <$> l) = f <$> l.
Proof. induction l as [|x l IH]; [done|]. rewrite !fmap_cons. simpl. by rewrite IH. Qed.

(** X14.  A length beam of size 1 changes nothing: on the tokens that
    [initialize_output_tokens_by_src_tokens] builds outside copy mode,
    [regenerate_length_beam] with [beam_size = 1] finds the length of every
    row again and returns the same tokens, with zero scores. *)
Theorem regenerate_beam_one_keeps_skeleton (args : CtcSd.Args)
    (src_tokens : list (list Z)) :
  let k := CtcSd.src_upsample_scale args in
  CtcSd.copy_src_token args = false ->
  special_distinct d ->
  src_tokens <> [] ->
  in_int64 k ->
  Forall (fun row => 0 <= nonpad_count d row * k < 2 ^ 62) src_tokens ->
  exists prev,
    CtcSd.initialize_output_tokens_by_src_tokens args d src_tokens = Some prev /\
    CtcSd.length_beam d prev 1 = Some (nonpad_count d <$> prev) /\
    CtcSd.regenerate_length_beam d prev 1 = Some (prev, new_zeros prev).
Proof.
  intros k Hcopy Hd Hne Hk Hprod.
  destruct (initialize_rows args d src_tokens Hcopy Hne Hk) as [Hinit Hrng].
  { eapply Forall_impl; [exact Hprod|]. intros row Hrow. simpl in Hrow.
    fold k. unfold in_int64. lia. }
  fold k in Hinit, Hrng.
  set (prods := (fun row => nonpad_count d row * k) <$> src_tokens) in *.
  set (T := foldr Z.max 2 prods) in *.
  set (lens := clamp_min 2 <$> prods) in *.
  set (prev := Skeleton.row d T <$> lens) in *.
  assert (T < 2 ^ 62) as HT.
  { apply foldr_max_lt; [lia|]. unfold prods. apply Forall_fmap.
    eapply Forall_impl; [exact Hprod|]. intros row Hrow. simpl in *. fold k. lia. }
  assert (nonpad_count d <$> prev = lens) as Hcount.
  { unfold prev. rewrite <- list_fmap_compose.
    rewrite <- (list_fmap_id lens) at 2. apply Forall_fmap_ext_1.
    eapply Forall_impl; [exact Hrng|]. intros len Hlen. simpl.
    by apply nonpad_count_row. }
  assert (CtcSd.length_beam d prev 1 = Some lens) as Hbeam.
  { rewrite length_beam_closed; [|lia|].
    - f_equal. simpl. change (1 `div` 2) with 0.
      rewrite (concat_fmap_singleton
                 (fun row => Z.max (nonpad_count d row + (Z.of_nat 0 - 0)) 2) prev).
      rewrite <- Hcount. apply Forall_fmap_ext_1.
      unfold prev. apply Forall_fmap. eapply Forall_impl; [exact Hrng|].
      intros len Hlen. cbv beta in Hlen. simpl.
      rewrite nonpad_count_row by done. lia.
    - unfold prev. apply Forall_fmap. apply Forall_forall. intros len _. simpl.
      rewrite row_length. lia. }
  exists prev. split; [exact Hinit|]. split; [by rewrite Hcount|].
  unfold CtcSd.regenerate_length_beam. rewrite Hbeam. csimpl.
  rewrite (fill_rows d lens T); [done| |exact Hrng|lia].
  unfold lens. apply tensor_max_clamped. unfold prods. by destruct src_tokens.
Qed.

End BeamOne.

Lemma regenerate_beam_one_keeps_skeleton_witness :
  exists prev,
    CtcSd.initialize_output_tokens_by_src_tokens Examples.ctc_args Examples.dict
      Examples.src_batch = Some prev /\
    CtcSd.regenerate_length_beam Examples.dict prev 1
    = Some (prev, Torch.new_zeros prev).
Proof.
  destruct (regenerate_beam_one_keeps_skeleton Examples.dict Examples.ctc_args
              Examples.src_batch) as (prev & Hinit & _ & Hregen).
  - reflexivity.
  - apply (bool_decide_unpack _). vm_compute. exact I.
  - discriminate.
  - unfold Torch.in_int64. simpl. lia.
  - repeat constructor; vm_compute; congruence.
  - exists prev. split; [exact Hinit|exact Hregen].
Defined.

Section ArchitectureDefaults.
Import Architecture.

Lemma run_cons (l : string * default_expr) (ls : list (string * default_expr))
    (args : gmap string pyval) :
  run (l :: ls) args
  = match set_default args l with
    | Ok a => run ls a
    | Raise e => Raise e
    end.
Proof.
  unfold run. cbn [foldl]. destruct (set_default args l) as [a|e]; [done|].
  induction ls as [|x ls IH]; [done|]. cbn [foldl]. exact IH.
Qed.

Lemma run_app (l1 l2 : list (string * default_expr)) (args : gmap string pyval) :
  run (l1 ++ l2) args
  = match run l1 args with
    | Ok a => run l2 a
    | Raise e => Raise e
    end.
Proof.
  revert args. induction l1 as [|l l1 IH]; intros args; [done|].
  rewrite <- app_comm_cons, !run_cons.
  destruct (set_default args l) as [a|e]; [apply IH|done].
Qed.

Lemma set_default_spec (args : gmap string pyval) (name : string) (e : default_expr) :
  match e with
  | Const _ => True
  | Attr a => is_Some (args !! a)
  end ->
  exists v,
    eval_default args e = Ok v /\
    set_default args (name, e) = Ok (<[name := default v (args !! name)]> args).
Proof.
  intros He. unfold set_default. cbn [fst snd].
  destruct e as [v|a]; simpl.
  - by exists v.
  - destruct He as [v Hv]. exists v. by rewrite Hv.
Qed.

(** What a run of lines does to [args]. *)
Lemma run_spec (ls : list (string * default_expr)) (seen : list string)
    (args : gmap string pyval) :
  (forall a, a ∈ seen -> is_Some (args !! a)) ->
  attrs_bound seen ls = true ->
  exists args',
    run ls args = Ok args' /\
    (forall k v, args !! k = Some v -> args' !! k = Some v) /\
    (forall k, k ∈ names ls -> is_Some (args' !! k)) /\
    (forall k, k ∉ names ls -> args' !! k = args !! k).
Proof.
  revert seen args. induction ls as [|[name e] ls IH]; intros seen args Hseen Hb.
  - exists args. repeat split; try done. intros k Hk. by apply elem_of_nil in Hk.
  - simpl in Hb. apply andb_true_iff in Hb as [He Hb].
    destruct (set_default_spec args name e) as (v & _ & Hset).
    { destruct e as [|a]; [done|]. apply Hseen. by apply bool_decide_eq_true in He. }
    set (args1 := <[name := default v (args !! name)]> args) in *.
    destruct (IH (name :: seen) args1) as (args' & Hrun & Hkeep & Hset' & Hother).
    { intros a Ha. apply elem_of_cons in Ha as [->|Ha].
      - unfold args1. rewrite lookup_insert_eq. by eexists.
      - unfold args1. destruct (decide (name = a)) as [->|Hne].
        + rewrite lookup_insert_eq. by eexists.
        + rewrite lookup_insert_ne by done. by apply Hseen. }
    { exact Hb. }
    exists args'. rewrite run_cons, Hset. split; [exact Hrun|].
    assert (forall k v', args !! k = Some v' -> args1 !! k = Some v') as H1.
    { intros k v' Hk. unfold args1. destruct (decide (name = k)) as [->|Hne].
      - rewrite lookup_insert_eq, Hk. done.
      - by rewrite lookup_insert_ne. }
    split; [intros k v' Hk; by apply Hkeep, H1|].
    split.
    + intros k Hk. unfold names in Hk. rewrite fmap_cons in Hk.
      apply elem_of_cons in Hk as [->|Hk]; [|by apply Hset'].
      simpl. assert (is_Some (args1 !! name)) as [x Hx].
      { unfold args1. rewrite lookup_insert_eq. by eexists. }
      exists x. by apply Hkeep.
    + intros k Hk. unfold names in Hk. rewrite fmap_cons in Hk.
      apply not_elem_of_cons in Hk as [Hne Hk]. simpl in Hne.
      rewrite Hother by exact Hk. unfold args1. by rewrite lookup_insert_ne.
Qed.

(** A second run changes nothing. *)
Lemma run_fixed (ls : list (string * default_expr)) (seen : list string)
    (args : gmap string pyval) :
  (forall a, a ∈ seen -> is_Some (args !! a)) ->
  (forall k, k ∈ names ls -> is_Some (args !! k)) ->
  attrs_bound seen ls = true ->
  run ls args = Ok args.
Proof.
  revert seen. induction ls as [|[name e] ls IH]; intros seen Hseen Hnames Hb; [done|].
  simpl in Hb. apply andb_true_iff in Hb as [He Hb].
  destruct (set_default_spec args name e) as (v & _ & Hset).
  { destruct e as [|a]; [done|]. apply Hseen. by apply bool_decide_eq_true in He. }
  destruct (Hnames name) as [x Hx]; [unfold names; rewrite fmap_cons; left|].
  rewrite run_cons, Hset, Hx. simpl. rewrite insert_id by done.
  apply (IH (name :: seen)); [| |exact Hb].
  - intros a Ha. apply elem_of_cons in Ha as [->|Ha]; [by eexists|by apply Hseen].
  - intros k Hk. apply Hnames. unfold names in *. rewrite fmap_cons. by right.
Qed.

(** The value a name ends with: the one it had, or the default of its
    first line. *)
Lemma run_lookup (l1 l2 : list (string * default_expr)) (name : string)
    (e : default_expr) (args args' : gmap string pyval) :
  name ∉ names l1 ->
  match e with
  | Const _ => True
  | Attr a => a ∈ names l1
  end ->
  attrs_bound [] (l1 ++ (name, e) :: l2) = true ->
  run (l1 ++ (name, e) :: l2) args = Ok args' ->
  exists v,
    args' !! name = Some (default v (args !! name)) /\
    match e with
    | Const c => v = c
    | Attr a => args' !! a = Some v
    end.
Proof.
  intros Hname He Hb Hrun.
  assert (forall seen l l', attrs_bound seen (l ++ l') = true ->
            attrs_bound seen l = true /\ attrs_bound (reverse (names l) ++ seen) l' = true)
    as Hsplit.
  { clear. intros seen l. revert seen. induction l as [|[n e] l IH]; intros seen l' H.
    - done.
    - simpl in H. apply andb_true_iff in H as [H1 H2].
      destruct (IH _ _ H2) as [H3 H4]. split.
      + simpl. by rewrite H1, H3.
      + unfold names in *. rewrite fmap_cons, reverse_cons, <- app_assoc. exact H4. }
  destruct (Hsplit [] l1 _ Hb) as [Hb1 Hb2].
  destruct (run_spec l1 [] args) as (args1 & Hrun1 & Hkeep1 & Hset1 & Hother1);
    [intros a Ha; by apply elem_of_nil in Ha|exact Hb1|].
  rewrite run_app, Hrun1, run_cons in Hrun.
  destruct (set_default_spec args1 name e) as (v & Hev & Hset).
  { destruct e as [|a]; [done|]. by apply Hset1. }
  rewrite Hset in Hrun. rewrite (Hother1 name Hname) in Hrun.
  change ((name, e) :: l2) with ([(name, e)] ++ l2) in Hb2.
  destruct (Hsplit _ [(name, e)] l2 Hb2) as [_ Hb3].
  set (args2 := <[name := default v (args !! name)]> args1) in *.
  destruct (run_spec l2 (reverse (names [(name, e)]) ++ reverse (names l1) ++ [])
              args2) as (args3 & Hrun3 & Hkeep3 & _); [|exact Hb3|].
  { intros a Ha. rewrite app_nil_r in Ha.
    apply elem_of_app in Ha as [Ha|Ha].
    - rewrite elem_of_reverse in Ha. unfold names in Ha.
      apply list_elem_of_singleton in Ha as ->. unfold args2. simpl.
      rewrite lookup_insert_eq. by eexists.
    - rewrite elem_of_reverse in Ha. destruct (Hset1 a Ha) as [x Hx].
      unfold args2. destruct (decide (name = a)) as [->|Hne].
      + rewrite lookup_insert_eq. by eexists.
      + rewrite lookup_insert_ne by done. by eexists. }
  rewrite Hrun3 in Hrun. injection Hrun as <-.
  exists v. split.
  - apply Hkeep3. unfold args2. apply lookup_insert_eq.
  - destruct e as [c|a]; simpl in Hev.
    + congruence.
    + destruct (args1 !! a) as [x|] eqn:Ha; [|done]. injection Hev as <-.
      apply Hkeep3. unfold args2. rewrite lookup_insert_ne; [done|].
      intros <-. done.
Qed.

End ArchitectureDefaults.

Section ArchitectureFunctions.
Import Architecture.

Lemma lines_bound (n : Z) : attrs_bound [] (lines n) = true.
Proof. reflexivity. Qed.

Lemma big_architecture_12e_run (args : gmap string pyval) :
  big_architecture_12e args
  = run (("encoder_layers"%string, Const (PyInt 12)) :: lines 6) args.
Proof. by rewrite run_cons. Qed.

Lemma run_defaults (ls : list (string * default_expr)) (args : gmap string pyval) :
  attrs_bound [] ls = true ->
  exists args',
    run ls args = Ok args' /\
    (forall k v, args !! k = Some v -> args' !! k = Some v) /\
    (forall k, is_Some (args' !! k) <-> is_Some (args !! k) \/ k ∈ names ls) /\
    run ls args' = Ok args'.
Proof.
  intros Hb.
  destruct (run_spec ls [] args) as (args' & Hrun & Hkeep & Hset & Hother);
    [intros a Ha; by apply elem_of_nil in Ha|exact Hb|].
  exists args'. split; [exact Hrun|]. split; [exact Hkeep|]. split.
  - intros k. split.
    + intros Hk. destruct (decide (k ∈ names ls)) as [Hin|Hout]; [by right|].
      left. by rewrite <- Hother.
    + intros [[v Hv]|Hin]; [exists v; by apply Hkeep|by apply Hset].
  - apply (run_fixed ls []); [intros a Ha; by apply elem_of_nil in Ha|exact Hset|exact Hb].
Qed.

(** X15.  Each of the architecture functions [base_architecture],
    [base_architecture_12d], [base_architecture_24d] and
    [big_architecture_12e] returns without raising, keeps every attribute
    the caller has set, sets exactly the 31 attributes of the table
    besides, and changes nothing when it is applied a second time. *)
Theorem architecture_defaults_keep_user_values :
  Forall (fun f : gmap string pyval -> result (gmap string pyval) =>
            forall args : gmap string pyval,
            exists args',
              f args = Ok args' /\
              (forall k v, args !! k = Some v -> args' !! k = Some v) /\
              (forall k, is_Some (args' !! k)
                         <-> is_Some (args !! k) \/ k ∈ names (lines 6)) /\
              f args' = Ok args')
    [base_architecture; base_architecture_12d; base_architecture_24d;
     big_architecture_12e].
Proof.
  repeat apply Forall_cons_2; [| | | |apply Forall_nil_2]; intros args.
  - apply (run_defaults (lines 6)), lines_bound.
  - apply (run_defaults (lines 12)), lines_bound.
  - apply (run_defaults (lines 24)), lines_bound.
  - destruct (run_defaults (("encoder_layers"%string, Const (PyInt 12)) :: lines 6)
                args eq_refl) as (args' & Hrun & Hkeep & Hdom & Hfix).
    exists args'. rewrite !big_architecture_12e_run.
    split; [exact Hrun|]. split; [exact Hkeep|]. split; [|exact Hfix].
    intros k. rewrite Hdom. unfold names. rewrite fmap_cons. simpl fst.
    rewrite elem_of_cons. split; [|tauto].
    intros [H|[->|H]]; [tauto| |tauto]. right.
    apply (bool_decide_unpack _). by vm_compute.
Qed.

Lemma line_value (n : Z) (i : nat) (name : string) (e : default_expr)
    (args args' : gmap string pyval) :
  lines n !! i = Some (name, e) ->
  bool_decide (name ∉ names (take i (lines n))) = true ->
  match e with
  | Const _ => True
  | Attr a => bool_decide (a ∈ names (take i (lines n))) = true
  end ->
  run (lines n) args = Ok args' ->
  exists v,
    args' !! name = Some (default v (args !! name)) /\
    match e with
    | Const c => v = c
    | Attr a => args' !! a = Some v
    end.
Proof.
  intros Hi Hname He Hrun.
  pose proof (take_drop_middle (lines n) i (name, e) Hi) as Hsplit.
  apply (run_lookup (take i (lines n)) (drop (S i) (lines n)) name e args args').
  - by apply bool_decide_eq_true in Hname.
  - destruct e as [|a]; [done|]. by apply bool_decide_eq_true in He.
  - rewrite Hsplit. apply lines_bound.
  - by rewrite Hsplit.
Qed.

(** X16.  The defaults that depend on other attributes.  With [n] the
    default of [decoder_layers] (6, 12 or 24), an architecture function
    gives [decoder_layers] the caller's value or [n]; [decoder_embed_dim]
    falls back to the final [encoder_embed_dim] (512 unless set), and
    [decoder_output_dim] and [decoder_input_dim] fall back to the final
    [decoder_embed_dim].  [big_architecture_12e] gives [encoder_layers] the
    caller's value or 12, where the others give 6. *)
Theorem architecture_dependent_defaults (n : Z) (args : gmap string pyval) :
  exists args' enc dec,
    run (lines n) args = Ok args' /\
    args' !! "decoder_layers"%string
    = Some (default (PyInt n) (args !! "decoder_layers"%string)) /\
    args' !! "encoder_layers"%string
    = Some (default (PyInt 6) (args !! "encoder_layers"%string)) /\
    enc = default (PyInt 512) (args !! "encoder_embed_dim"%string) /\
    args' !! "encoder_embed_dim"%string = Some enc /\
    dec = default enc (args !! "decoder_embed_dim"%string) /\
    args' !! "decoder_embed_dim"%string = Some dec /\
    args' !! "decoder_output_dim"%string
    = Some (default dec (args !! "decoder_output_dim"%string)) /\
    args' !! "decoder_input_dim"%string
    = Some (default dec (args !! "decoder_input_dim"%string)) /\
    args' !! "length_loss_factor"%string
    = Some (default (PyFloat (1 # 10)) (args !! "length_loss_factor"%string)) /\
    exists args12,
      big_architecture_12e args = Ok args12 /\
      args12 !! "encoder_layers"%string
      = Some (default (PyInt 12) (args !! "encoder_layers"%string)).
Proof.
  destruct (run_defaults (lines n) args (lines_bound n)) as (args' & Hrun & _).
  destruct (line_value n 10 _ _ args args' eq_refl eq_refl I Hrun) as (v1 & H1 & ->).
  destruct (line_value n 3 _ _ args args' eq_refl eq_refl I Hrun) as (v2 & H2 & ->).
  destruct (line_value n 1 _ _ args args' eq_refl eq_refl I Hrun) as (v3 & H3 & ->).
  destruct (line_value n 8 _ _ args args' eq_refl eq_refl eq_refl Hrun)
    as (v4 & H4 & H4').
  destruct (line_value n 25 _ _ args args' eq_refl eq_refl eq_refl Hrun)
    as (v5 & H5 & H5').
  destruct (line_value n 26 _ _ args args' eq_refl eq_refl eq_refl Hrun)
    as (v6 & H6 & H6').
  destruct (line_value n 29 _ _ args args' eq_refl eq_refl I Hrun) as (v7 & H7 & ->).
  exists args'. eexists. eexists. split; [exact Hrun|].
  split; [exact H1|]. split; [exact H2|]. split; [reflexivity|].
  split; [exact H3|]. split; [reflexivity|].
  assert (v4 = default (PyInt 512) (args !! "encoder_embed_dim"%string)) as ->
    by congruence.
  split; [exact H4|].
  assert (v5 = default (default (PyInt 512) (args !! "encoder_embed_dim"%string))
                 (args !! "decoder_embed_dim"%string)) as -> by congruence.
  assert (v6 = default (default (PyInt 512) (args !! "encoder_embed_dim"%string))
                 (args !! "decoder_embed_dim"%string)) as -> by congruence.
  split; [exact H5|]. split; [exact H6|]. split; [exact H7|].
  unfold big_architecture_12e, set_default. cbn [eval_default fst snd mbind result_bind].
  set (a1 := <["encoder_layers"%string :=
                 default (PyInt 12) (args !! "encoder_layers"%string)]> args).
  destruct (run_defaults (lines 6) a1 (lines_bound 6)) as (args12 & Hrun12 & Hkeep & _).
  exists args12. split; [exact Hrun12|].
  apply Hkeep. unfold a1. apply lookup_insert_eq.
Qed.

End ArchitectureFunctions.

Section UniformSteps.

Lemma inject_Z_sub (a b : Z) : (inject_Z (a - b) == inject_Z a - inject_Z b)%Q.
Proof. unfold Z.sub. rewrite inject_Z_plus, inject_Z_opp. reflexivity. Qed.

Lemma round_half_even_near (q : Q) (z : Z) :
  (inject_Z z - (1 # 2) < q < inject_Z z + (1 # 2))%Q ->
  Float32.round_half_even q = z.
Proof.
  intros [H1 H2]. pose proof (round_half_even_err q) as [E1 E2].
  assert (inject_Z (z - 1) < inject_Z (Float32.round_half_even q))%Q as L.
  { rewrite inject_Z_sub. change (inject_Z 1) with 1%Q. lra. }
  assert (inject_Z (Float32.round_half_even q) < inject_Z (z + 1))%Q as U.
  { rewrite inject_Z_plus. change (inject_Z 1) with 1%Q. lra. }
  rewrite <- Zlt_Qlt in L, U. lia.
Qed.

(** An integer below [2^24] is a [float32] number. *)
Lemma of_Z_small (n : Z) :
  0 <= n < 2 ^ 24 -> Float32.of_Z n = Float32.Fin (inject_Z n).
Proof.
  intros Hn. destruct (of_Z_count n) as (a & Ra & _ & _ & _ & Hx); [lia|].
  rewrite Ra. f_equal. apply Hx. lia.
Qed.

(** A multiple of [1/16] below [2^20] is a [float32] number. *)
Lemma round_sixteenth (q : Q) (m : Z) :
  0 <= m <= 2 ^ 24 -> (q == inject_Z m * (1 # 16))%Q ->
  Float32.round q = Float32.Fin (Qred q).
Proof.
  intros Hm Hq. apply (round_exact q m (-4)); [lia|lia|exact Hq|].
  rewrite Hq. apply Qlt_le_trans with (inject_Z (2 ^ 24 + 1) * (1 # 16))%Q.
  - apply Qmult_lt_compat_r; [reflexivity|]. rewrite <- Zlt_Qlt. lia.
  - discriminate.
Qed.

(** The step of one example: [(src_len - 1) / (trg_len - 1)] in
    [float32], within [1/16] of the exact quotient when multiplied by
    [trg_len - 1]. *)
Lemma uniform_step (s t : Z) :
  1 <= s <= 2 ^ 20 -> 2 <= t <= 2 ^ 20 ->
  exists c : Q,
    Float32.div (Float32.sub (Float32.of_Z s) (Float32.Fin 1))
                (Float32.sub (Float32.of_Z t) (Float32.Fin 1)) = Float32.Fin c /\
    (0 <= c <= inject_Z (2 ^ 20))%Q /\
    (inject_Z (s - 1) - (1 # 16) <= c * inject_Z (t - 1)
     <= inject_Z (s - 1) + (1 # 16))%Q /\
    (s = 1 -> c = 0%Q).
Proof.
  intros Hs Ht.
  rewrite !of_Z_small by lia. unfold Float32.sub.
  assert (inject_Z s - 1 == inject_Z (s - 1))%Q as Ea
    by (rewrite inject_Z_sub; reflexivity).
  assert (inject_Z t - 1 == inject_Z (t - 1))%Q as Eb
    by (rewrite inject_Z_sub; reflexivity).
  rewrite (round_exact (inject_Z s - 1) (s - 1) 0); [|lia|lia| |].
  2:{ rewrite Ea. change (Float32.pow2 0) with 1%Q. ring. }
  2:{ rewrite Ea. apply Qlt_le_trans with (inject_Z (2 ^ 24)); [|discriminate].
      rewrite <- Zlt_Qlt. lia. }
  rewrite (round_exact (inject_Z t - 1) (t - 1) 0); [|lia|lia| |].
  2:{ rewrite Eb. change (Float32.pow2 0) with 1%Q. ring. }
  2:{ rewrite Eb. apply Qlt_le_trans with (inject_Z (2 ^ 24)); [|discriminate].
      rewrite <- Zlt_Qlt. lia. }
  set (a := Qred (inject_Z s - 1)). set (b := Qred (inject_Z t - 1)).
  assert (a == inject_Z (s - 1))%Q as Ha by (unfold a; by rewrite Qred_correct).
  assert (b == inject_Z (t - 1))%Q as Hb by (unfold b; by rewrite Qred_correct).
  assert (0 <= a <= inject_Z (2 ^ 20))%Q as Ha0.
  { rewrite Ha. change 0%Q with (inject_Z 0). rewrite <- !Zle_Qle. lia. }
  assert (1 <= b <= inject_Z (2 ^ 20))%Q as Hb1.
  { rewrite Hb. change 1%Q with (inject_Z 1). rewrite <- !Zle_Qle. lia. }
  unfold Float32.div.
  assert ((b ?= 0)%Q = Gt) as -> by (apply Qgt_alt; lra).
  assert (a / b * b == a)%Q as Hab by (field; lra).
  assert (0 <= a / b <= a)%Q as Hq.
  { split.
    - apply Qle_shift_div_l; lra.
    - apply Qle_shift_div_r; [lra|]. nra. }
  destruct (decide (s = 1)) as [->|Hs1].
  { assert (a / b == 0)%Q as Hz.
    { assert (a == 0)%Q as -> by (rewrite Ha; reflexivity). unfold Qdiv. ring. }
    rewrite (round_zero _ Hz). exists 0%Q. split; [done|].
    split; [split; [lra|discriminate]|]. split; [|done].
    rewrite Qmult_0_l. change (inject_Z (1 - 1)) with 0%Q. split; discriminate. }
  assert (1 <= a)%Q as Ha1.
  { rewrite Ha. change 1%Q with (inject_Z 1). rewrite <- Zle_Qle. lia. }
  destruct (round_error (a / b)) as (c & Rc & Hc).
  { apply Qle_trans with (1 / inject_Z (2 ^ 20))%Q; [discriminate|].
    apply Qle_shift_div_l; [lra|].
    assert (1 / inject_Z (2 ^ 20) * b <= 1)%Q; [|lra].
    change (1 / inject_Z (2 ^ 20))%Q with (1 # 1048576)%Q.
    change (inject_Z (2 ^ 20)) with 1048576%Q in Hb1. lra. }
  { apply Qle_lt_trans with (inject_Z (2 ^ 20)); [lra|reflexivity]. }
  exists c. split; [exact Rc|].
  destruct (round_upto (a / b) (inject_Z (2 ^ 20))) as (c' & Rc' & Hc');
    [discriminate|reflexivity|lra|].
  assert (c' = c) as -> by congruence.
  split; [exact Hc'|]. split; [|done].
  change (Float32.pow2 (-24)) with (1 # 16777216)%Q in Hc.
  change (inject_Z (2 ^ 20)) with 1048576%Q in Ha0, Hb1.
  rewrite <- Ha, <- Hb.
  set (q := (a / b)%Q) in *.
  split; nra.
Qed.

(** The position of one column: [round(steps * t)]. *)
Lemma uniform_position (c : Q) (j : Z) :
  (0 <= c <= inject_Z (2 ^ 20))%Q -> 0 <= j <= 2 ^ 20 ->
  exists p : Q,
    Float32.round (c * inject_Z j) = Float32.Fin p /\ (0 <= p)%Q /\
    Float32.to_long (Float32.mul (Float32.Fin c) (Float32.of_Z j))
    = Some (Float32.round_half_even p).
Proof.
  intros Hc Hj. rewrite of_Z_small by lia. unfold Float32.mul.
  assert (0 <= inject_Z j <= inject_Z (2 ^ 20))%Q as Hj'.
  { change 0%Q with (inject_Z 0). rewrite <- !Zle_Qle. lia. }
  change (inject_Z (2 ^ 20)) with 1048576%Q in Hc, Hj'.
  destruct (round_upto (c * inject_Z j) (inject_Z (2 ^ 40))) as (p & Rp & Hp);
    [discriminate|reflexivity| |].
  { change (inject_Z (2 ^ 40)) with 1099511627776%Q. split; nra. }
  exists p. split; [exact Rp|]. split; [lra|].
  rewrite Rp. unfold Float32.to_long.
  rewrite bool_decide_eq_true_2; [done|].
  assert (inject_Z 0 <= p <= inject_Z (2 ^ 40))%Q as Hb
    by (change (inject_Z 0) with 0%Q; lra).
  pose proof (round_half_even_bounds p 0 (2 ^ 40) Hb). unfold Torch.in_int64. lia.
Qed.

(** The positions of one example, column by column. *)
Lemma uniform_row (s t : Z) (c : Q) :
  1 <= s <= 2 ^ 20 -> 2 <= t <= 2 ^ 20 ->
  (0 <= c <= inject_Z (2 ^ 20))%Q ->
  (inject_Z (s - 1) - (1 # 16) <= c * inject_Z (t - 1)
   <= inject_Z (s - 1) + (1 # 16))%Q ->
  (s = 1 -> c = 0%Q) ->
  forall j : Z, 0 <= j <= 2 ^ 20 ->
    exists i : Z,
      Float32.to_long (Float32.mul (Float32.Fin c) (Float32.of_Z j)) = Some i /\
      (j = 0 -> i = 0) /\
      (j <= t - 1 -> 0 <= i <= s - 1) /\
      (j = t - 1 -> i = s - 1) /\
      (forall (j' i' : Z),
          j <= j' <= 2 ^ 20 ->
          Float32.to_long (Float32.mul (Float32.Fin c) (Float32.of_Z j')) = Some i' ->
          i <= i').
Proof.
  intros Hs Ht Hc Hcb Hc1 j Hj.
  destruct (uniform_position c j Hc Hj) as (p & Rp & Hp0 & Hlong).
  exists (Float32.round_half_even p). split; [exact Hlong|].
  assert (0 <= inject_Z j)%Q as Hj0
    by (change 0%Q with (inject_Z 0); rewrite <- Zle_Qle; lia).
  set (hi := (inject_Z (s - 1) + (1 # 16))%Q).
  assert (Float32.round hi = Float32.Fin (Qred hi)) as Rhi.
  { apply (round_sixteenth hi (16 * (s - 1) + 1)); [lia|].
    unfold hi. rewrite inject_Z_plus, inject_Z_mult.
    change (inject_Z 16) with 16%Q. change (inject_Z 1) with 1%Q. field. }
  assert (0 <= hi)%Q as Hhi0.
  { unfold hi. assert (0 <= inject_Z (s - 1))%Q; [|lra].
    change 0%Q with (inject_Z 0). rewrite <- Zle_Qle. lia. }
  pose proof (round_idem hi _ Hhi0 Rhi) as Rhi'.
  split; [|split; [|split]].
  - intros ->. assert (c * inject_Z 0 == 0)%Q as Hz by (change (inject_Z 0) with 0%Q; ring).
    rewrite (round_zero _ Hz) in Rp. injection Rp as <-. reflexivity.
  - intros Hle.
    assert (inject_Z j <= inject_Z (t - 1))%Q as Hjt by (rewrite <- Zle_Qle; lia).
    assert (c * inject_Z j <= hi)%Q as Hcj.
    { unfold hi. apply Qle_trans with (c * inject_Z (t - 1))%Q; [|lra].
      destruct Hc as [Hc0 _]. nra. }
    destruct (round_upto (c * inject_Z j) (Qred hi)) as (p' & Rp' & Hp');
      [by rewrite Qred_correct|exact Rhi'|rewrite Qred_correct; split; [|done]|].
    { apply Qmult_le_0_compat; lra. }
    assert (p' = p) as -> by congruence. rewrite Qred_correct in Hp'.
    assert (inject_Z 0 <= p)%Q as Hp0' by (change (inject_Z 0) with 0%Q; lra).
    split.
    + pose proof (round_half_even_mono 0 p Hp0) as M.
      change (Float32.round_half_even 0) with 0 in M. exact M.
    + pose proof (round_half_even_mono p hi (proj2 Hp')) as M.
      rewrite (round_half_even_near hi (s - 1)) in M; [exact M|].
      unfold hi. split; lra.
  - intros ->.
    destruct (decide (s = 1)) as [->|Hs1].
    { rewrite (Hc1 eq_refl) in Rp.
      assert (0 * inject_Z (t - 1) == 0)%Q as Hz by ring.
      rewrite (round_zero _ Hz) in Rp. injection Rp as <-. reflexivity. }
    set (lo := (inject_Z (s - 1) - (1 # 16))%Q).
    assert (Float32.round lo = Float32.Fin (Qred lo)) as Rlo.
    { apply (round_sixteenth lo (16 * (s - 1) - 1)); [lia|].
      unfold lo. rewrite (inject_Z_sub (16 * (s - 1)) 1), inject_Z_mult.
      change (inject_Z 16) with 16%Q. change (inject_Z 1) with 1%Q. field. }
    assert (0 <= lo)%Q as Hlo0.
    { unfold lo. assert (1 <= inject_Z (s - 1))%Q; [|lra].
      change 1%Q with (inject_Z 1). rewrite <- Zle_Qle. lia. }
    pose proof (round_idem lo _ Hlo0 Rlo) as Rlo'.
    destruct (round_between (c * inject_Z (t - 1)) (Qred lo) (Qred hi))
      as (p' & Rp' & Hp');
      [by rewrite Qred_correct|exact Rlo'|by rewrite Qred_correct|exact Rhi'| |].
    { rewrite !Qred_correct. exact Hcb. }
    assert (p' = p) as -> by congruence. rewrite !Qred_correct in Hp'.
    apply round_half_even_near. unfold lo, hi in Hp'. split; lra.
  - intros j' i' Hj' Hlong'.
    destruct (uniform_position c j' Hc ltac:(lia)) as (p' & Rp' & _ & Hlong2).
    rewrite Hlong2 in Hlong'. injection Hlong' as <-.
    apply round_half_even_mono.
    assert (inject_Z j <= inject_Z j')%Q as Hjj by (rewrite <- Zle_Qle; lia).
    pose proof (round_mono (c * inject_Z j) (c * inject_Z j')) as M.
    rewrite Rp, Rp' in M. apply M.
    + apply Qmult_le_0_compat; lra.
    + destruct Hc as [Hc0 _]. nra.
Qed.

End UniformSteps.

Section CopySource.
Import Torch.

Lemma mapM_rows {A B} (f : A -> option B) (l : list A) :
  Forall (fun x => is_Some (f x)) l ->
  exists k,
    mapM f l = Some k /\ length k = length l /\
    forall (b : nat) (x : A) (y : B),
      l !! b = Some x -> k !! b = Some y -> f x = Some y.
Proof.
  intros Hall. destruct (proj2 (mapM_is_Some f l)) as [k Hk].
  { eapply Forall_impl; [exact Hall|]. done. }
  exists k. split; [exact Hk|]. apply mapM_Some in Hk.
  split; [symmetry; by eapply Forall2_length|].
  intros b x y Hx Hy.
  exact (Forall2_lookup_lr (fun x y => f x = Some y) l k b x y Hk Hx Hy).
Qed.


(** The rows of [_uniform_assignment] for rows of at most [2^20] tokens:
    in range up to the target length, from the first to the last source
    position, and never decreasing. *)
Lemma uniform_assignment_rows (src_lens trg_lens : list Z) :
  trg_lens <> [] ->
  length src_lens = length trg_lens ->
  Forall (fun s => 1 <= s <= 2 ^ 20) src_lens ->
  Forall (fun t => 2 <= t <= 2 ^ 20) trg_lens ->
  exists index_t M,
    GlatAnneal._uniform_assignment src_lens trg_lens = Some index_t /\
    tensor_max trg_lens = Some M /\
    length index_t = length trg_lens /\
    forall (b : nat) (s t : Z) (row : list Z),
      src_lens !! b = Some s -> trg_lens !! b = Some t -> index_t !! b = Some row ->
      length row = Z.to_nat M /\
      t <= M /\
      row !! 0%nat = Some 0 /\
      row !! Z.to_nat (t - 1) = Some (s - 1) /\
      (forall (j : nat) (i : Z),
          row !! j = Some i -> Z.of_nat j <= t - 1 -> 0 <= i <= s - 1) /\
      (forall (j j' : nat) (i i' : Z),
          (j <= j')%nat -> row !! j = Some i -> row !! j' = Some i' -> i <= i').
Proof.
  intros Hne Hlen Hs Ht.
  destruct (tensor_max_Some trg_lens Hne) as (M & HM & HMin & HMup).
  assert (2 <= M <= 2 ^ 20) as HM2 by (rewrite Forall_forall in Ht; by apply Ht).
  set (idx := Z.of_nat <$> seq 0 (Z.to_nat M)).
  set (f := fun st : Z * Z =>
              mapM (fun t : Z =>
                      Float32.to_long
                        (Float32.mul
                           (Float32.div
                              (Float32.sub (Float32.of_Z st.1) (Float32.Fin 1))
                              (Float32.sub (Float32.of_Z st.2) (Float32.Fin 1)))
                           (Float32.of_Z t))) idx).
  assert (forall j : nat, (j < Z.to_nat M)%nat -> idx !! j = Some (Z.of_nat j)) as Hidx.
  { intros j Hj. unfold idx. by rewrite list_lookup_fmap, lookup_seq_lt. }
  assert (length idx = Z.to_nat M) as Hlidx
    by (unfold idx; by rewrite length_fmap, length_seq).
  assert (forall (s t : Z), 1 <= s <= 2 ^ 20 -> 2 <= t <= 2 ^ 20 ->
            exists row c,
              f (s, t) = Some row /\ length row = Z.to_nat M /\
              (0 <= c <= inject_Z (2 ^ 20))%Q /\
              (inject_Z (s - 1) - (1 # 16) <= c * inject_Z (t - 1)
               <= inject_Z (s - 1) + (1 # 16))%Q /\
              (s = 1 -> c = 0%Q) /\
              forall (j : nat) (i : Z),
                row !! j = Some i ->
                (j < Z.to_nat M)%nat /\
                Float32.to_long
                  (Float32.mul (Float32.Fin c) (Float32.of_Z (Z.of_nat j))) = Some i)
    as Hrow.
  { intros s t Hs1 Ht2.
    destruct (uniform_step s t Hs1 Ht2) as (c & Hstep & Hc & Hcb & Hc1).
    destruct (mapM_rows
                (fun t : Z =>
                   Float32.to_long (Float32.mul (Float32.Fin c) (Float32.of_Z t))) idx)
      as (row & Hrow & Hlrow & Hcells).
    { apply Forall_forall. intros j Hj. unfold idx in Hj.
      apply list_elem_of_fmap in Hj as (j0 & -> & Hj0).
      apply elem_of_seq in Hj0.
      destruct (uniform_position c (Z.of_nat j0) Hc ltac:(lia)) as (p & _ & _ & ->).
      by eexists. }
    exists row, c. split; [unfold f; cbn [fst snd]; by rewrite Hstep|].
    split; [lia|]. split; [done|]. split; [done|]. split; [done|].
    intros j i Hj. assert (j < Z.to_nat M)%nat as Hlt.
    { apply lookup_lt_Some in Hj. lia. }
    split; [done|]. exact (Hcells j _ i (Hidx j Hlt) Hj). }
  destruct (mapM_rows f (zip src_lens trg_lens)) as (index_t & Hall & Hlall & Hrows).
  { apply Forall_forall. intros [s t] Hin.
    pose proof (elem_of_zip_l _ _ _ _ Hin) as Hsin.
    pose proof (elem_of_zip_r _ _ _ _ Hin) as Htin.
    rewrite Forall_forall in Hs, Ht.
    destruct (Hrow s t (Hs s Hsin) (Ht t Htin)) as (row & c & -> & _). by eexists. }
  exists index_t, M. split.
  { unfold GlatAnneal._uniform_assignment. rewrite HM. cbn [mbind option_bind].
    unfold new_arange. rewrite bool_decide_eq_true_2 by lia. cbn [mbind option_bind].
    rewrite (broadcast1_same src_lens trg_lens Hlen). cbn [mbind option_bind fst snd].
    exact Hall. }
  split; [done|]. split; [rewrite Hlall, length_zip; lia|].
  intros b s t row Hsb Htb Hb.
  assert (1 <= s <= 2 ^ 20) as Hs1 by (eapply (Forall_lookup_1 _ _ _ _ Hs); eauto).
  assert (2 <= t <= 2 ^ 20) as Ht2 by (eapply (Forall_lookup_1 _ _ _ _ Ht); eauto).
  assert (t <= M) as HtM by (eapply (Forall_lookup_1 _ _ _ _ HMup); eauto).
  assert (zip src_lens trg_lens !! b = Some (s, t)) as Hz
    by (by apply lookup_zip_with_Some').
  pose proof (Hrows b _ row Hz Hb) as Hf.
  destruct (Hrow s t Hs1 Ht2) as (row' & c & Hf' & Hlrow & Hc & Hcb & Hc1 & Hcells).
  assert (row' = row) as -> by congruence.
  assert (forall j : nat, (j < Z.to_nat M)%nat ->
            exists i, row !! j = Some i /\
                      Float32.to_long
                        (Float32.mul (Float32.Fin c) (Float32.of_Z (Z.of_nat j)))
                      = Some i) as Hcol.
  { intros j Hj. destruct (lookup_lt_is_Some_2 row j) as [i Hi]; [lia|].
    exists i. split; [done|]. by apply Hcells. }
  split; [done|]. split; [done|]. split.
  { destruct (Hcol 0%nat ltac:(lia)) as (i & Hi & Hlong).
    destruct (uniform_row s t c Hs1 Ht2 Hc Hcb Hc1 0 ltac:(lia))
      as (i0 & Hlong0 & H0 & _).
    change (Z.of_nat 0) with 0 in Hlong. rewrite Hlong0 in Hlong.
    rewrite Hi. f_equal. specialize (H0 eq_refl). congruence. }
  split.
  { destruct (Hcol (Z.to_nat (t - 1)) ltac:(lia)) as (i & Hi & Hlong).
    rewrite Z2Nat.id in Hlong by lia.
    destruct (uniform_row s t c Hs1 Ht2 Hc Hcb Hc1 (t - 1) ltac:(lia))
      as (i0 & Hlong0 & _ & _ & Hend & _).
    rewrite Hlong0 in Hlong. rewrite Hi. f_equal. specialize (Hend eq_refl). congruence. }
  split.
  { intros j i Hj Hle. destruct (Hcells j i Hj) as [Hlt Hlong].
    destruct (uniform_row s t c Hs1 Ht2 Hc Hcb Hc1 (Z.of_nat j) ltac:(lia))
      as (i0 & Hlong0 & _ & Hrange & _).
    rewrite Hlong0 in Hlong. injection Hlong as <-. by apply Hrange. }
  intros j j' i i' Hjj Hj Hj'.
  destruct (Hcells j i Hj) as [Hlt Hlong]. destruct (Hcells j' i' Hj') as [Hlt' Hlong'].
  destruct (uniform_row s t c Hs1 Ht2 Hc Hcb Hc1 (Z.of_nat j) ltac:(lia))
    as (i0 & Hlong0 & _ & _ & _ & Hmono).
  rewrite Hlong0 in Hlong. injection Hlong as <-.
  apply (Hmono (Z.of_nat j') i'); [lia|done].
Qed.

(** X17.  [forward_copying_source] with [_uniform_assignment], in
    [float32].  For source rows with at least one token and target rows
    with at least two tokens whose padding comes last, no row longer than
    [2^20] tokens, and one target row without padding, the call returns:
    every target position gets the embedding of a source position below
    the source length, the first target token that of source position 0,
    the last target token that of the last source token, the positions
    never decrease along the row, and a padded target position gets the
    embedding of source position 0. *)
Theorem forward_copying_source_positions {E} (src_embeds : list (list E))
    (src_masks tgt_masks : list (list bool)) (W : nat) :
  tgt_masks <> [] ->
  length src_masks = length tgt_masks ->
  Forall2 (fun (e : list E) (m : list bool) => length e = length m)
    src_embeds src_masks ->
  Forall (fun m => 1 <= sum_row m <= 2 ^ 20) src_masks ->
  Z.of_nat W <= 2 ^ 20 ->
  Forall (fun m => 2 <= sum_row m /\ length m = W /\
                   forall t : nat, m !! t = Some true -> Z.of_nat t < sum_row m)
    tgt_masks ->
  tensor_max (sum1 tgt_masks) = Some (Z.of_nat W) ->
  exists out index_t,
    GlatAnneal.forward_copying_source src_embeds src_masks tgt_masks = Some out /\
    GlatAnneal._uniform_assignment (sum1 src_masks) (sum1 tgt_masks) = Some index_t /\
    length out = length tgt_masks /\
    forall (b : nat) (erow : list E) (smask tmask : list bool) (orow : list E)
           (irow : list Z),
      src_embeds !! b = Some erow -> src_masks !! b = Some smask ->
      tgt_masks !! b = Some tmask -> out !! b = Some orow ->
      index_t !! b = Some irow ->
      length orow = W /\ length irow = W /\
      (forall (t : nat) (i : Z),
          tmask !! t = Some true -> irow !! t = Some i ->
          0 <= i < sum_row smask /\
          is_Some (orow !! t) /\
          orow !! t = erow !! Z.to_nat i /\
          (t = 0%nat -> i = 0) /\
          (Z.of_nat t = sum_row tmask - 1 -> i = sum_row smask - 1) /\
          (forall (t' : nat) (i' : Z),
              (t <= t')%nat -> irow !! t' = Some i' -> i <= i')) /\
      (forall t : nat,
          tmask !! t = Some false -> is_Some (orow !! t) /\ orow !! t = erow !! 0%nat).
Proof.
  intros Hne Hlen Hemb Hsrc HW20 Htgt HW.
  pose proof (Forall2_length _ _ _ Hemb) as Hlen_e.
  destruct (uniform_assignment_rows (sum1 src_masks) (sum1 tgt_masks))
    as (index_t & M & Hidx & HM & Hlen_i & Hrows).
  { unfold sum1. by destruct tgt_masks. }
  { unfold sum1. by rewrite !length_fmap. }
  { unfold sum1. by apply Forall_fmap. }
  { unfold sum1. apply Forall_fmap. eapply Forall_impl; [exact Htgt|].
    intros m (H2 & HmW & _). simpl. pose proof (sum_row_bounds m). lia. }
  rewrite HW in HM. injection HM as <-.
  unfold sum1 in Hlen_i. rewrite length_fmap in Hlen_i.
  (* every row of indices, with its masks *)
  assert (forall b irow, index_t !! b = Some irow ->
            exists erow smask tmask,
              src_embeds !! b = Some erow /\ src_masks !! b = Some smask /\
              tgt_masks !! b = Some tmask) as Hrow_b.
  { intros b irow Hb. apply lookup_lt_Some in Hb.
    destruct (lookup_lt_is_Some_2 src_embeds b) as [erow He]; [lia|].
    destruct (lookup_lt_is_Some_2 src_masks b) as [smask Hs]; [lia|].
    destruct (lookup_lt_is_Some_2 tgt_masks b) as [tmask Ht]; [lia|].
    by exists erow, smask, tmask. }
  assert (forall b irow erow smask tmask,
            index_t !! b = Some irow -> src_embeds !! b = Some erow ->
            src_masks !! b = Some smask -> tgt_masks !! b = Some tmask ->
            length irow = W /\ length tmask = W /\ length erow = length smask /\
            1 <= sum_row smask <= Z.of_nat (length smask) /\
            2 <= sum_row tmask /\
            (forall t : nat, tmask !! t = Some true -> Z.of_nat t < sum_row tmask) /\
            irow !! 0%nat = Some 0 /\
            irow !! Z.to_nat (sum_row tmask - 1) = Some (sum_row smask - 1) /\
            (forall (j : nat) (i : Z),
                irow !! j = Some i -> Z.of_nat j <= sum_row tmask - 1 ->
                0 <= i <= sum_row smask - 1) /\
            (forall (j j' : nat) (i i' : Z),
                (j <= j')%nat -> irow !! j = Some i -> irow !! j' = Some i' -> i <= i'))
    as Hfacts.
  { intros b irow erow smask tmask Hb He Hs Ht.
    destruct (Hrows b (sum_row smask) (sum_row tmask) irow)
      as (Hl & _ & H0 & Hlast & Hrange & Hmono); [| |done|].
    { unfold sum1. by rewrite list_lookup_fmap, Hs. }
    { unfold sum1. by rewrite list_lookup_fmap, Ht. }
    pose proof (Forall_lookup_1 _ _ _ _ Htgt Ht) as (Ht2 & HtW & Hpre).
    pose proof (Forall_lookup_1 _ _ _ _ Hsrc Hs) as Hs1. cbv beta in Hs1.
    pose proof (Forall2_lookup_lr _ _ _ _ _ _ Hemb He Hs) as Hes. cbv beta in Hes.
    pose proof (sum_row_bounds smask) as Hsb.
    rewrite Nat2Z.id in Hl. destruct Hs1 as [Hs1 _].
    split; [exact Hl|]. split; [exact HtW|]. split; [exact Hes|].
    split; [lia|]. split; [exact Ht2|]. split; [exact Hpre|].
    split; [exact H0|]. split; [exact Hlast|]. split; [exact Hrange|exact Hmono]. }
  set (mapped := masked_fill2 index_t (invert tgt_masks) 0).
  assert (forall b irow tmask, index_t !! b = Some irow -> tgt_masks !! b = Some tmask ->
            mapped !! b = Some (masked_fill irow (negb <$> tmask) 0)) as Hmapped.
  { intros b irow tmask Hb Ht. unfold mapped, masked_fill2, invert.
    rewrite lookup_zip_with, Hb. simpl. rewrite list_lookup_fmap, Ht. done. }
  assert (forall irow tmask t, length irow = length tmask ->
            masked_fill irow (negb <$> tmask) 0 !! t
            = irow !! t ≫= fun i => tmask !! t ≫= fun m : bool =>
                Some (if m then i else 0)) as Hfill.
  { intros irow tmask t _. unfold masked_fill.
    rewrite lookup_zip_with. destruct (irow !! t); [|done]. simpl.
    rewrite list_lookup_fmap. destruct (tmask !! t) as [[|]|]; done. }
  assert (length mapped = length tgt_masks) as Hlen_m.
  { unfold mapped, masked_fill2, invert. rewrite length_zip_with, length_fmap. lia. }
  (* the two tensors of [masked_fill] have one shape *)
  assert (has_shape (length tgt_masks) W index_t) as Hshape_i.
  { split; [done|]. apply Forall_lookup. intros b irow Hb.
    destruct (Hrow_b b irow Hb) as (erow & smask & tmask & He & Hs & Ht).
    by destruct (Hfacts b irow erow smask tmask Hb He Hs Ht) as (Hl1 & _). }
  assert (has_shape (length tgt_masks) W (invert tgt_masks)) as Hshape_m.
  { unfold invert. split; [by rewrite length_fmap|].
    apply Forall_fmap. eapply Forall_impl; [exact Htgt|].
    intros m (_ & HmW & _). simpl. by rewrite length_fmap. }
  (* the gather *)
  destruct (mapM_rows
              (fun em : list E * list Z =>
                 mapM (fun i : Z =>
                         if 0 <=? i then (em.1 : list E) !! Z.to_nat i else None)
                      (em.2 : list Z))
              (zip src_embeds mapped)) as (out & Hout & Hlen_o & Hout_b).
  { apply Forall_forall. intros [erow mrow] Hin.
    apply list_elem_of_lookup in Hin as [b Hb].
    apply lookup_zip_with_Some in Hb as (erow' & mrow' & [= <- <-] & He & Hm).
    cbn [fst snd]. apply mapM_is_Some, Forall_forall. intros i Hi.
    apply list_elem_of_lookup in Hi as [t Hti]. simpl.
    destruct (lookup_lt_is_Some_2 index_t b) as [irow Hb];
      [apply lookup_lt_Some in Hm; lia|].
    destruct (Hrow_b b irow Hb) as (erow' & smask & tmask & He' & Hs & Ht).
    assert (erow' = erow) as -> by congruence.
    destruct (Hfacts b irow erow smask tmask Hb He Hs Ht)
      as (Hl1 & Hl2 & Hl3 & Hs1 & Ht2 & Hpre & _ & _ & Hrange & _).
    rewrite (Hmapped b irow tmask Hb Ht) in Hm. injection Hm as <-.
    rewrite Hfill in Hti by congruence.
    destruct (irow !! t) as [i0|] eqn:Hit; [|done]. simpl in Hti.
    destruct (tmask !! t) as [m|] eqn:Htt; [|done]. simpl in Hti.
    injection Hti as <-.
    assert (0 <= (if m then i0 else 0) < Z.of_nat (length erow)) as Hin.
    { destruct m; [|lia]. specialize (Hpre t Htt).
      specialize (Hrange t i0 Hit ltac:(lia)). lia. }
    destruct (Z.leb_spec 0 (if m then i0 else 0)); [|lia].
    apply lookup_lt_is_Some_2. lia. }
  rewrite length_zip in Hlen_o.
  exists out, index_t. split.
  { unfold GlatAnneal.forward_copying_source. rewrite Hidx.
    cbn [mbind option_bind].
    rewrite (broadcast2_same _ _ _ _ Hshape_i Hshape_m). cbn [mbind option_bind fst snd].
    fold mapped. rewrite bool_decide_eq_true_2 by lia. exact Hout. }
  split; [exact Hidx|]. split; [lia|].
  intros b erow smask tmask orow irow He Hs Ht Ho Hb.
  destruct (Hfacts b irow erow smask tmask Hb He Hs Ht)
    as (Hl1 & Hl2 & Hl3 & Hs1 & Ht2 & Hpre & H0 & Hlast & Hrange & Hmono).
  pose proof (Hmapped b irow tmask Hb Ht) as Hm.
  assert (zip src_embeds mapped !! b
          = Some (erow, masked_fill irow (negb <$> tmask) 0)) as Hz.
  { by apply lookup_zip_with_Some'. }
  pose proof (Hout_b b _ orow Hz Ho) as Hrow. cbn [fst snd] in Hrow.
  apply mapM_Some in Hrow.
  pose proof (Forall2_length _ _ _ Hrow) as Hlo.
  assert (length (masked_fill irow (negb <$> tmask) 0) = W) as Hlm.
  { unfold masked_fill. rewrite length_zip_with, length_fmap. lia. }
  assert (forall (t : nat) (m : bool) (i : Z),
            tmask !! t = Some m -> irow !! t = Some i ->
            is_Some (orow !! t) /\
            orow !! t = erow !! Z.to_nat (if m then i else 0) /\
            0 <= (if m then i else 0)) as Hcell.
  { intros t m i Htt Hit.
    destruct (Forall2_lookup_l _ _ _ t (if m then i else 0) Hrow) as (y & Hy & Hgy).
    { rewrite Hfill by congruence. rewrite Hit. simpl. by rewrite Htt. }
    simpl in Hgy. destruct (Z.leb_spec 0 (if m then i else 0)); [|done].
    split; [by eexists|]. split; [congruence|done]. }
  split; [lia|]. split; [done|]. split.
  - intros t i Htt Hit.
    destruct (Hcell t true i Htt Hit) as (Hsome & Heq & _).
    specialize (Hpre t Htt). specialize (Hrange t i Hit ltac:(lia)).
    split; [lia|]. split; [done|]. split; [done|].
    split; [intros ->; congruence|].
    split.
    + intros Et. replace (Z.to_nat (sum_row tmask - 1)) with t in Hlast by lia.
      congruence.
    + intros t' i' Htt' Hit'. by eapply (Hmono t t').
  - intros t Htt.
    destruct (lookup_lt_is_Some_2 irow t) as [i Hit].
    { apply lookup_lt_Some in Htt. lia. }
    destruct (Hcell t false i Htt Hit) as (Hsome & Heq & _). done.
Qed.

End CopySource.

Lemma forward_copying_source_positions_witness :
  exists out index_t,
    GlatAnneal.forward_copying_source [[10; 20; 30]] [[true; true; true]]
      [[true; true; true; true; true]] = Some out /\
    GlatAnneal._uniform_assignment [3] [5] = Some index_t /\
    length out = 1%nat.
Proof.
  destruct (forward_copying_source_positions [[10; 20; 30]] [[true; true; true]]
              [[true; true; true; true; true]] 5)
    as (out & index_t & Hrun & Hidx & Hlen & _).
  - discriminate.
  - reflexivity.
  - repeat constructor.
  - repeat constructor; simpl; lia.
  - simpl. lia.
  - repeat constructor; simpl; try lia.
    intros t H. apply lookup_lt_Some in H. simpl in H. lia.
  - reflexivity.
  - exists out, index_t. split; [exact Hrun|]. split; [exact Hidx|exact Hlen].
Defined.


(** The positions are those of [float32]: for a source of 8 and a target
    of 47 tokens the product for target position 23 is 3.4999998 and
    rounds to 3, where the exact product 3.5 would round to 4. *)
Lemma uniform_assignment_float32_example :
  exists row,
    GlatAnneal._uniform_assignment [8] [47] = Some [row] /\
    row !! 23%nat = Some 3 /\
    Float32.round_half_even (inject_Z 7 / inject_Z 46 * inject_Z 23) = 4.
Proof. eexists. split; [vm_compute; reflexivity|]. split; reflexivity. Qed.

Section RegenerateState.
Import Torch.
Variable d : Dictionary.

Lemma regenerate_closed (output_tokens : list (list Z)) (beam_size : Z) :
  output_tokens <> [] ->
  0 < beam_size ->
  Forall (fun row => Z.of_nat (length row) + beam_size < 2 ^ 63) output_tokens ->
  exists lens M,
    CtcSd.length_beam d output_tokens beam_size = Some lens /\
    CtcSd.regenerate_length_beam d output_tokens beam_size
    = Some (Skeleton.row d M <$> lens, new_zeros (Skeleton.row d M <$> lens)) /\
    length lens = (length output_tokens * Z.to_nat beam_size)%nat /\
    Forall (fun len => 2 <= len <= M) lens.
Proof.
  intros Hne Hb Hfit.
  pose proof (length_beam_closed d output_tokens beam_size Hb Hfit) as Hlens.
  set (inner := fun row : list Z =>
                  (fun j : nat =>
                     Z.max (nonpad_count d row + (Z.of_nat j - beam_size `div` 2)) 2)
                    <$> seq 0 (Z.to_nat beam_size)) in Hlens.
  set (lens := concat (inner <$> output_tokens)) in Hlens.
  assert (Forall (fun l => length l = Z.to_nat beam_size) (inner <$> output_tokens))
    as Hinner.
  { apply Forall_fmap, Forall_forall. intros row _. unfold inner. simpl.
    by rewrite length_fmap, length_seq. }
  assert (length lens = (length output_tokens * Z.to_nat beam_size)%nat) as Hlen.
  { unfold lens. rewrite (length_concat_fixed _ _ Hinner). by rewrite length_fmap. }
  assert (0 <= beam_size `div` 2 <= beam_size) as Hhalf
    by (split; Z.div_mod_to_equations; lia).
  assert (Forall (fun x => 2 <= x < 2 ^ 63) lens) as Hrange.
  { unfold lens. apply Forall_concat, Forall_fmap.
    eapply Forall_impl; [exact Hfit|]. intros row Hrow. simpl. unfold inner.
    apply Forall_fmap, Forall_forall. intros j Hj. apply elem_of_seq in Hj. simpl.
    pose proof (nonpad_count_bounds d row). cbv beta in Hrow. lia. }
  assert (lens <> []) as Hlens_ne.
  { intros E. rewrite E in Hlen. simpl in Hlen.
    destruct output_tokens; [done|]. simpl in Hlen. lia. }
  destruct (tensor_max_Some lens Hlens_ne) as (M & HM & HMin & HMup).
  rewrite Forall_forall in Hrange.
  pose proof (Hrange M HMin) as HMr.
  assert (Forall (fun len => 2 <= len <= M) lens) as Hr2.
  { apply Forall_forall. intros x Hx. rewrite Forall_forall in HMup.
    specialize (Hrange x Hx). specialize (HMup x Hx). lia. }
  exists lens, M. split; [exact Hlens|]. split; [|by split].
  unfold CtcSd.regenerate_length_beam. rewrite Hlens. csimpl.
  rewrite (fill_rows d lens M HM Hr2); [done|lia].
Qed.

Lemma regenerate_refused (output_tokens : list (list Z)) (beam_size : Z) :
  beam_size <= 0 -> CtcSd.regenerate_length_beam d output_tokens beam_size = None.
Proof.
  intros Hb. unfold CtcSd.regenerate_length_beam, CtcSd.length_beam, new_arange.
  case_bool_decide as H0; [|done]. csimpl.
  replace (Z.to_nat beam_size) with 0%nat by lia. simpl.
  assert (concat ((fun _ : Z => @nil Z) <$> sum1 (ne output_tokens (pad d))) = [])
    as ->.
  { induction (sum1 (ne output_tokens (pad d))) as [|x l IH]; [done|]. exact IH. }
  done.
Qed.

(** X18.  [regenerate_length_beam] as a step on decoder states.  For a
    beam size of 0 or less it raises [RuntimeError].  For a positive beam
    size it returns a state with two new tensors, [beam_size] rows for
    every row of the state it was given, each with at least two non-pad
    tokens, and zero scores; the step and the history reference are the
    old ones, and no object that existed before is changed. *)
Theorem regenerate_length_beam_state (decoder_out : DecoderOut) (beam_size : Z)
    (h : gmap loc obj) (toks : list (list Z)) (scores : list (list Q)) :
  valid_state decoder_out h toks scores ->
  (beam_size <= 0 ->
   GlatAnneal.regenerate_length_beam d decoder_out beam_size h = Raise RuntimeError) /\
  (0 < beam_size ->
   special_distinct d ->
   toks <> [] ->
   Forall (fun row => Z.of_nat (length row) + beam_size < 2 ^ 63) toks ->
   exists out h' new_toks,
     GlatAnneal.regenerate_length_beam d decoder_out beam_size h = Ok (out, h') /\
     valid_state out h' new_toks (new_zeros new_toks) /\
     length new_toks = (length toks * Z.to_nat beam_size)%nat /\
     Forall (fun r => 2 <= nonpad_count d r) new_toks /\
     h !! output_tokens out = None /\
     h !! output_scores out = None /\
     (forall l : loc, is_Some (h !! l) -> h' !! l = h !! l) /\
     step out = step decoder_out /\
     history out = history decoder_out).
Proof.
  intros (Ht & Hs & Hh). split.
  - intros Hb. unfold GlatAnneal.regenerate_length_beam, read_tokens.
    rewrite Ht. cbn [mbind result_bind]. by rewrite regenerate_refused.
  - intros Hb Hd Hne Hfit.
    destruct (regenerate_closed toks beam_size Hne Hb Hfit)
      as (lens & M & _ & Hregen & Hlen & Hrange).
    set (new_toks := Skeleton.row d M <$> lens) in *.
    pose proof (alloc_two h (TokensT new_toks) (ScoresT (new_zeros new_toks)))
      as (Ha & Hbb & Hab & Hta & Htb & Hframe).
    eexists. eexists. exists new_toks. split.
    { unfold GlatAnneal.regenerate_length_beam, read_tokens.
      rewrite Ht. cbn [mbind result_bind]. rewrite Hregen. reflexivity. }
    cbn [output_tokens output_scores step history].
    split.
    { split; [exact Hta|]. split; [exact Htb|]. cbn [history].
      destruct (history decoder_out) as [hl|]; [|done].
      destruct Hh as [es Hes]. exists es. rewrite Hframe; [done|by eexists]. }
    split; [unfold new_toks; by rewrite length_fmap|].
    split.
    { unfold new_toks. apply Forall_fmap. eapply Forall_impl; [exact Hrange|].
      intros len Hl. cbv beta in Hl. simpl. rewrite nonpad_count_row by done. lia. }
    by repeat split.
Qed.

End RegenerateState.

Lemma regenerate_length_beam_state_witness :
  exists out h' new_toks,
    GlatAnneal.regenerate_length_beam Examples.dict Examples.state0 3 Examples.heap0
    = Ok (out, h') /\
    valid_state out h' new_toks (Torch.new_zeros new_toks) /\
    length new_toks = 3%nat.
Proof.
  destruct (regenerate_length_beam_state Examples.dict Examples.state0 3
              Examples.heap0 [[0; 3; 2; 1]] [[0; 0; 0; 0]]%Q) as [_ H].
  - repeat split.
  - destruct H as (out & h' & new_toks & Hrun & Hvalid & Hlen & _).
    + lia.
    + apply (bool_decide_unpack _). vm_compute. exact I.
    + discriminate.
    + repeat constructor.
    + exists out, h', new_toks. split; [exact Hrun|]. split; [exact Hvalid|exact Hlen].
Defined.

Section Argmax.
Import Torch.

Lemma fold_max_spec (l : list Q) (x : Q) :
  let m := foldl (fun a b => if Qlt_bool a b then b else a) x l in
  (x <= m)%Q /\ Forall (fun v => (v <= m)%Q) l /\ (m = x \/ m ∈ l).
Proof.
  revert x. induction l as [|y l IH]; intros x; simpl.
  - split; [lra|]. split; [constructor|by left].
  - destruct (IH (if Qlt_bool x y then y else x)) as (H1 & H2 & H3).
    destruct (Qlt_bool_spec x y) as [Hlt|Hge].
    + split; [lra|]. split; [by constructor|].
      right. destruct H3 as [->|H3]; [left|by right].
    + split; [done|]. split; [constructor; [lra|done]|].
      destruct H3 as [->|H3]; [by left|right; by right].
Qed.

Lemma row_max_spec (r : list Q) :
  r <> [] ->
  exists m, Helpers.row_max r = Some m /\ m ∈ r /\ Forall (fun v => (v <= m)%Q) r.
Proof.
  destruct r as [|x l]; [done|]. intros _. eexists. split; [reflexivity|].
  destruct (fold_max_spec l x) as (H1 & H2 & H3). cbv zeta in *.
  split.
  - destruct H3 as [->|H3]; [left|by right].
  - by constructor.
Qed.

(** X19.  [_argmax] on the last dimension marks the maxima of every row:
    the result has the shape of the input, holds 1 at a position exactly
    when no entry of the row is larger than the entry there and 0
    elsewhere, and every row has at least one 1, several when the maximum
    is tied. *)
Theorem argmax_marks_maxima (x : list (list Q)) :
  Forall (fun r => r <> []) x ->
  exists y,
    Helpers._argmax x = Some y /\
    length y = length x /\
    forall (b : nat) (r : list Q),
      x !! b = Some r ->
      exists o,
        y !! b = Some o /\
        length o = length r /\
        (forall (c : nat) (v : Q),
            r !! c = Some v ->
            ((forall (c' : nat) (v' : Q), r !! c' = Some v' -> (v' <= v)%Q) ->
             o !! c = Some 1%Q) /\
            (~ (forall (c' : nat) (v' : Q), r !! c' = Some v' -> (v' <= v)%Q) ->
             o !! c = Some 0%Q)) /\
        exists c, o !! c = Some 1%Q.
Proof.
  intros Hne.
  destruct (mapM_rows
              (fun r : list Q =>
                 m ← Helpers.row_max r;
                 Some ((fun v : Q => if Qeq_bool v m then 1%Q else 0%Q) <$> r)) x)
    as (y & Hy & Hlen & Hrows).
  { eapply Forall_impl; [exact Hne|]. intros r Hr. simpl.
    destruct (row_max_spec r Hr) as (m & -> & _). by eexists. }
  exists y. split; [exact Hy|]. split; [exact Hlen|].
  intros b r Hr.
  destruct (lookup_lt_is_Some_2 y b) as [o Ho];
    [rewrite Hlen; by eapply lookup_lt_Some|].
  exists o. split; [exact Ho|].
  pose proof (Hrows b r o Hr Ho) as Hrow. simpl in Hrow.
  destruct (row_max_spec r (Forall_lookup_1 _ _ _ _ Hne Hr)) as (m & Hm & Hin & Hup).
  rewrite Hm in Hrow. simpl in Hrow. injection Hrow as <-.
  split; [by rewrite length_fmap|]. split.
  - intros c v Hv. rewrite list_lookup_fmap, Hv. simpl.
    pose proof (Forall_lookup_1 _ _ _ _ Hup Hv) as Hvm. cbv beta in Hvm.
    split.
    + intros Hmax. apply list_elem_of_lookup in Hin as [c' Hc'].
      specialize (Hmax c' m Hc').
      assert (v == m)%Q as E by lra. apply Qeq_bool_iff in E. by rewrite E.
    + intros Hnot. destruct (Qeq_bool v m) eqn:E; [|done]. exfalso.
      apply Qeq_bool_iff in E. apply Hnot. intros c' v' Hv'.
      pose proof (Forall_lookup_1 _ _ _ _ Hup Hv') as H'. cbv beta in H'. lra.
  - apply list_elem_of_lookup in Hin as [c Hc]. exists c.
    rewrite list_lookup_fmap, Hc. simpl.
    assert (Qeq_bool m m = true) as -> by (apply Qeq_bool_iff; reflexivity). done.
Qed.

End Argmax.

Lemma argmax_marks_maxima_witness :
  exists y, Helpers._argmax [[1; 3; 3]]%Q = Some y /\ length y = 1%nat.
Proof.
  destruct (argmax_marks_maxima [[1; 3; 3]]%Q) as (y & Hrun & Hlen & _).
  - repeat constructor. discriminate.
  - exists y. split; [exact Hrun|exact Hlen].
Defined.
